(** * TitleCardMaker: the TMDb interface (modules/TMDbInterface.py)

    A shallow embedding of the blacklist/backoff cache, the series-ID
    resolver, the episode matcher, the asset selectors and the three public
    queries of [TMDbInterface], with the properties the specification states
    about them; then of its constructor and its season download, of
    [CleanPath.sanitize_name] (modules/CleanPath.py) and of the earlier
    [DatabaseInterface] (config/DatabaseInterface.py), with properties read
    off the code.

    What the embedding leaves out: the two files are not written
    ([dump] after a change of the blacklist or of the identifier map),
    nothing is logged, and the file system is not there ([mkdir],
    [urlretrieve]: a download is the call of [download_image]). The
    identifier map is taken as loaded (it has no repair pass); a YAML
    document is a tree (no two places share an object), and
    [__EMPTY_BLACKLIST], a dict shared by every interface object, is taken
    with its initial contents.

    Conventions of the embedding:
    - Python objects loaded from YAML are terms of [value]; a [dict] is an
      association list in insertion order, its keys are strings;
    - a [datetime] is its number of microseconds on the local time line;
    - an exception is a [Raise] result; the state in which it was raised is
      kept, as the Python object keeps its attributes;
    - every call of [datetime.now()] reads the next value of a clock;
    - every call of [self._get] appends the request to a trace and returns
      what the provider answers for it. *)

From Stdlib Require Import ZArith List String Ascii Bool Lia QArith Qround.
From Stdlib Require Import DecimalString.
From Stdlib Require DecimalZ DecimalPos.
Import ListNotations.
Local Open Scope Z_scope.
Set Warnings "-register-all".

(* ================================================================== *)
(** ** Python values *)
(* ================================================================== *)

Module Py.

Inductive value : Type :=
| VNone
| VBool (b : bool)
| VInt (z : Z)
| VFloat (q : Q)
| VStr (s : string)
| VDatetime (t : Z)
| VList (l : list value)
| VDict (d : list (string * value)).

Definition dict := list (string * value).

Inductive exn : Type :=
| KeyError | TypeError | IndexError | AttributeError.

Inductive result (A : Type) : Type :=
| Ok (a : A)
| Raise (e : exn).
Arguments Ok {A} a.
Arguments Raise {A} e.

(** [k in d] for a dict. *)
Fixpoint dict_mem (k : string) (d : dict) : bool :=
  match d with
  | [] => false
  | (k', _) :: d' => if String.eqb k k' then true else dict_mem k d'
  end.

(** [d.get(k, None)]. *)
Fixpoint dict_get (k : string) (d : dict) : option value :=
  match d with
  | [] => None
  | (k', v) :: d' => if String.eqb k k' then Some v else dict_get k d'
  end.

(** [d[k] = v]: the value of a present key is replaced where it stands, a
    new key is appended. *)
Fixpoint dict_set (k : string) (v : value) (d : dict) : dict :=
  match d with
  | [] => [(k, v)]
  | (k', v') :: d' =>
      if String.eqb k k' then (k', v) :: d' else (k', v') :: dict_set k v d'
  end.

Definition is_dict (v : value) : bool :=
  match v with VDict _ => true | _ => false end.

(** [isinstance(v, int)]: [bool] is a subclass of [int]. *)
Definition is_int (v : value) : bool :=
  match v with VInt _ | VBool _ => true | _ => false end.

Definition is_datetime (v : value) : bool :=
  match v with VDatetime _ => true | _ => false end.

(** [s in t] for two strings: [s] occurs in [t]. *)
Fixpoint is_substring (s t : string) : bool :=
  if String.prefix s t then true
  else match t with
       | EmptyString => false
       | String _ t' => is_substring s t'
       end.

Definition is_VStr (k : string) (v : value) : bool :=
  match v with VStr s => String.eqb s k | _ => false end.

(** [k in v] for a string [k]. *)
Definition contains (v : value) (k : string) : result bool :=
  match v with
  | VDict d => Ok (dict_mem k d)
  | VList l => Ok (existsb (is_VStr k) l)
  | VStr s => Ok (is_substring k s)
  | _ => Raise TypeError
  end.

(** [v[k]] for a string [k]. *)
Definition getitem (v : value) (k : string) : result value :=
  match v with
  | VDict d => match dict_get k d with
               | Some x => Ok x
               | None => Raise KeyError
               end
  | _ => Raise TypeError
  end.

(** [v[k] = x] for a string [k]. *)
Definition setitem (v : value) (k : string) (x : value) : result value :=
  match v with
  | VDict d => Ok (VDict (dict_set k x d))
  | _ => Raise TypeError
  end.

(** [v + 1]. *)
Definition add_one (v : value) : result value :=
  match v with
  | VInt z => Ok (VInt (z + 1))
  | VBool b => Ok (VInt (Z.b2z b + 1))
  | VFloat q => Ok (VFloat (q + 1)%Q)
  | _ => Raise TypeError
  end.

(** [v > n] for an integer [n]. *)
Definition gt_int (v : value) (n : Z) : result bool :=
  match v with
  | VInt z => Ok (n <? z)
  | VBool b => Ok (n <? Z.b2z b)
  | VFloat q => Ok (negb (Qle_bool q (inject_Z n)))
  | _ => Raise TypeError
  end.

(** [now >= v] and [now < v] for a datetime [now]. *)
Definition datetime_ge (now : Z) (v : value) : result bool :=
  match v with
  | VDatetime t => Ok (t <=? now)
  | _ => Raise TypeError
  end.

Definition datetime_lt (now : Z) (v : value) : result bool :=
  match v with
  | VDatetime t => Ok (now <? t)
  | _ => Raise TypeError
  end.

(** [timedelta(days=1)], in microseconds. *)
Definition one_day : Z := 86400 * 1000000.

(** [l[i]] and [l[i] = x] for a list and an integer index; a negative index
    counts from the end. *)
Definition list_index (len i : Z) : option nat :=
  if (0 <=? i) && (i <? len) then Some (Z.to_nat i)
  else if (i <? 0) && (0 <=? i + len) then Some (Z.to_nat (i + len))
  else None.

Fixpoint list_set (n : nat) (x : value) (l : list value) : list value :=
  match l, n with
  | [], _ => []
  | _ :: l', O => x :: l'
  | y :: l', S n' => y :: list_set n' x l'
  end.

End Py.
Export Py.

(* ================================================================== *)
(** ** The provider, the two information objects and the state *)
(* ================================================================== *)

(** A response of the provider is a record of the fields the code reads. A
    field whose presence the code tests ([in], [.get]) is an option; the
    others have the type the provider gives them. *)

Record find_episode_result := {
  fe_show_id : Z;
  fe_season_number : Z;
  fe_episode_number : Z }.

Record find_response := {
  tv_results : list Z;
  tv_episode_results : list find_episode_result }.

Record search_response := {
  total_results : Z;
  results : list Z }.

Record episode_response := {
  ep_success : option bool;
  ep_name : option string;
  ep_season_number : option Z;
  ep_episode_number : option Z }.

Record season_episode := {
  se_name : string;
  se_season_number : Z;
  se_episode_number : Z }.

Record season_response := {
  sn_success : option bool;
  sn_episodes : option (list season_episode) }.

Record image := {
  width : Z;
  height : Z;
  vote_average : Q;
  file_path : string }.

Record images_response := { stills : option (list image) }.

Record logo := {
  logo_file_path : string;
  logo_width : Z;
  logo_height : Z;
  iso_639_1 : option string }.

Record series_images_response := { logos : option (list logo) }.

(** The requests [self._get] is called with: the URL and its parameters. *)
Inductive request : Type :=
| ReqFind (tvdb_id : Z)
| ReqSearch (name : string) (year : Z)
| ReqEpisode (tmdb_id season episode : Z)
| ReqSeason (tmdb_id season : Z)
| ReqEpisodeImages (tmdb_id : option Z) (season episode : Z)
| ReqEpisodeTitle (tmdb_id : option Z) (season episode : Z) (language : string)
| ReqSeriesImages (tmdb_id : option Z).

Record provider := {
  provider_find : Z -> find_response;
  provider_search : string -> Z -> search_response;
  provider_episode : Z -> Z -> Z -> episode_response;
  provider_season : Z -> Z -> season_response;
  provider_episode_images : option Z -> Z -> Z -> images_response;
  provider_episode_title : option Z -> Z -> Z -> string -> episode_response;
  provider_series_images : option Z -> series_images_response }.

(** [SeriesInfo] and [EpisodeInfo], with the attributes the interface
    reads. The direct query reads [season] and [episode], the scans read
    [season_number]; the two pairs are kept apart as the code names them. *)
Record SeriesInfo := {
  name : string;
  year : Z;
  full_name : string;
  series_tvdb_id : option Z;
  tmdb_id : option Z }.

Record EpisodeInfo := {
  title : string;
  season : Z;
  episode : Z;
  season_number : Z;
  episode_number : Z;
  abs_number : option Z;
  tvdb_id : option Z;
  key : string }.

Record index := { idx_season : Z; idx_episode : Z }.

(** The attributes of the interface object, the clock and the trace. *)
Record state := {
  blacklist : dict;
  id_map_name : list (string * option Z);
  id_map_id : list (Z * option Z);
  trace : list request;
  ticks : nat }.

Definition with_blacklist (b : dict) (st : state) : state :=
  {| blacklist := b; id_map_name := id_map_name st;
     id_map_id := id_map_id st; trace := trace st; ticks := ticks st |}.

Definition with_id_map (n : list (string * option Z))
    (i : list (Z * option Z))
    (st : state) : state :=
  {| blacklist := blacklist st; id_map_name := n; id_map_id := i;
     trace := trace st; ticks := ticks st |}.

(** The state after the requests [rs] were sent. *)
Definition log (rs : list request) (st : state) : state :=
  {| blacklist := blacklist st; id_map_name := id_map_name st;
     id_map_id := id_map_id st; trace := (trace st ++ rs)%list;
     ticks := ticks st |}.

(* ================================================================== *)
(** ** The monad of the methods: state and exceptions *)
(* ================================================================== *)

Definition M (A : Type) : Type := state -> result A * state.

Definition ret {A} (a : A) : M A := fun st => (Ok a, st).

Definition bind {A B} (c : M A) (k : A -> M B) : M B :=
  fun st => match c st with
            | (Ok a, st') => k a st'
            | (Raise e, st') => (Raise e, st')
            end.

Definition raise {A} (e : exn) : M A := fun st => (Raise e, st).

Definition lift {A} (r : result A) : M A := fun st => (r, st).

Declare Scope monad_scope.
Delimit Scope monad_scope with monad.
Notation "x <- c ;; k" := (bind c (fun x => k))
  (at level 61, c at next level, right associativity) : monad_scope.
Notation "c ;; k" := (bind c (fun _ => k))
  (at level 61, right associativity) : monad_scope.
Local Open Scope monad_scope.

Definition get_blacklist : M dict := fun st => (Ok (blacklist st), st).
Definition put_blacklist (b : dict) : M unit :=
  fun st => (Ok tt, with_blacklist b st).

Local Open Scope string_scope.

(** [__EMPTY_BLACKLIST]. *)
Definition EMPTY_BLACKLIST : dict :=
  [("image", VDict []); ("title", VDict []); ("logo", VDict [])].

(** [BLACKLIST_THRESHOLD]. *)
Definition BLACKLIST_THRESHOLD : Z := 3.

Section Interface.

(** What the interface is given from outside: the provider behind
    [WebInterface._get], the clock behind [datetime.now()], and the parts of
    [SeriesInfo], [Title] and the preferences that are not among the
    sources. [SeriesInfo_set_tmdb_id old new] is the ID the series holds
    after [series_info.set_tmdb_id(new)], whatever that method does;
    [matches t s] is [t.matches(s)]. *)
Variable P : provider.
Variable clock : nat -> Z.
Variable SeriesInfo_set_tmdb_id : option Z -> option Z -> option Z.
Variable matches : string -> string -> bool.
Variable tmdb_retry_count : Z.
Variable min_width min_height : Z.

(** [datetime.now()]. *)
Definition now : M Z :=
  fun st => (Ok (clock (ticks st)),
             {| blacklist := blacklist st; id_map_name := id_map_name st;
                id_map_id := id_map_id st; trace := trace st;
                ticks := S (ticks st) |}).

(* ------------------------------------------------------------------ *)
(** *** [__fix_blacklist] *)

(** The body of the inner loop, for the object [e] found at
    [blacklist[qt][key]]: one branch of the [if]/[elif] chain is taken. *)
Definition fix_entry (e : value) : M value :=
  match e with
  | VDict d =>
      match dict_get "failures" d with
      | None => ret (VDict (dict_set "failures" (VInt 1) d))
      | Some f =>
          if negb (is_int f) then ret (VDict (dict_set "failures" (VInt 1) d))
          else match dict_get "next" d with
               | None =>
                   t <- now ;; ret (VDict (dict_set "next" (VDatetime t) d))
               | Some n =>
                   if negb (is_datetime n)
                   then t <- now ;;
                        ret (VDict (dict_set "next" (VDatetime t) d))
                   else ret e
               end
      end
  | _ =>
      t <- now ;; ret (VDict [("failures", VInt 1); ("next", VDatetime t)])
  end.

(** [for key in section] when the section is a dict: its keys in order. *)
Fixpoint fix_dict (keys : list string) (d : dict) : M dict :=
  match keys with
  | [] => ret d
  | k :: keys' =>
      match dict_get k d with
      | Some e => e' <- fix_entry e ;; fix_dict keys' (dict_set k e' d)
      | None => raise KeyError
      end
  end.

(** [for key in section] when the section is a list: the element at
    position [i] is used as an index into the list itself. *)
Fixpoint fix_list (n i : nat) (l : list value) : M (list value) :=
  match n with
  | O => ret l
  | S n' =>
      match nth_error l i with
      | None => ret l
      | Some k =>
          match match k with
                | VInt z => Some z
                | VBool b => Some (Z.b2z b)
                | _ => None
                end with
          | None => raise TypeError
          | Some z =>
              match list_index (Z.of_nat (List.length l)) z with
              | None => raise IndexError
              | Some j =>
                  match nth_error l j with
                  | None => raise IndexError
                  | Some e =>
                      e' <- fix_entry e ;; fix_list n' (S i) (list_set j e' l)
                  end
              end
          end
      end
  end.

(** The inner loop over one section [blacklist[qt]]. *)
Definition fix_section (sec : value) : M value :=
  match sec with
  | VDict d => d' <- fix_dict (map fst d) d ;; ret (VDict d')
  | VList l => l' <- fix_list (List.length l) 0 l ;; ret (VList l')
  | VStr EmptyString => ret sec
  | _ => raise TypeError
  end.

(** The first loop: a missing section, or one that is not a dict, is set to
    an empty dict. *)
Definition ensure_section (bl : dict) (query_type : string) : dict :=
  match dict_get query_type bl with
  | Some (VDict _) => bl
  | _ => dict_set query_type (VDict []) bl
  end.

(** The second loop: [for qt in blacklist]. *)
Fixpoint fix_sections (qts : list string) (bl : dict) : M dict :=
  match qts with
  | [] => ret bl
  | qt :: qts' =>
      match dict_get qt bl with
      | Some sec =>
          sec' <- fix_section sec ;; fix_sections qts' (dict_set qt sec' bl)
      | None => raise KeyError
      end
  end.

Definition fix_blacklist (loaded : value) : M dict :=
  match loaded with
  | VDict bl =>
      let bl := fold_left ensure_section ["image"; "title"; "logo"] bl in
      fix_sections (map fst bl) bl
  | _ => ret EMPTY_BLACKLIST
  end.

(* ------------------------------------------------------------------ *)
(** *** [__update_blacklist] and [__is_blacklisted] *)

(** The key of a request: the series for a logo, series and episode
    otherwise. The logo queries pass [None] for the episode. *)
Definition blacklist_key (si : SeriesInfo) (ei : option EpisodeInfo)
    (query_type : string) : result string :=
  if String.eqb query_type "logo" then Ok (full_name si)
  else match ei with
       | Some e => Ok (full_name si ++ "-" ++ key e)
       | None => Raise AttributeError
       end.

Definition new_entry (later : Z) : value :=
  VDict [("failures", VInt 1); ("next", VDatetime later)].

Definition update_blacklist (si : SeriesInfo) (ei : option EpisodeInfo)
    (query_type : string) : M unit :=
  k <- lift (blacklist_key si ei query_type) ;;
  t <- now ;;
  let later := t + one_day in
  bl <- get_blacklist ;;
  present <- lift (contains (match dict_get query_type bl with
                             | Some sec => sec
                             | None => VDict []
                             end) k) ;;
  if (present : bool) then
    t' <- now ;;
    sec <- lift (getitem (VDict bl) query_type) ;;
    entry <- lift (getitem sec k) ;;
    next <- lift (getitem entry "next") ;;
    passed <- lift (datetime_ge t' next) ;;
    if (passed : bool) then
      failures <- lift (getitem entry "failures") ;;
      failures' <- lift (add_one failures) ;;
      entry <- lift (setitem entry "failures" failures') ;;
      entry <- lift (setitem entry "next" (VDatetime later)) ;;
      sec <- lift (setitem sec k entry) ;;
      put_blacklist (dict_set query_type sec bl)
    else ret tt
  else
    sec <- lift (getitem (VDict bl) query_type) ;;
    sec <- lift (setitem sec k (new_entry later)) ;;
    put_blacklist (dict_set query_type sec bl).

Definition is_blacklisted (si : SeriesInfo) (ei : option EpisodeInfo)
    (query_type : string) : M bool :=
  bl <- get_blacklist ;;
  if negb (dict_mem query_type bl) then ret false else
  k <- lift (blacklist_key si ei query_type) ;;
  sec <- lift (getitem (VDict bl) query_type) ;;
  present <- lift (contains sec k) ;;
  if negb present then ret false else
  entry <- lift (getitem sec k) ;;
  failures <- lift (getitem entry "failures") ;;
  over <- lift (gt_int failures tmdb_retry_count) ;;
  if (over : bool) then ret true else
  t <- now ;;
  next <- lift (getitem entry "next") ;;
  lift (datetime_lt t next).

(* ------------------------------------------------------------------ *)
(** *** The identifier map and [__set_tmdb_id] *)

(** [self._get(url, params)]: the request is recorded, the answer is the
    provider's. *)
Definition _get {A} (r : request) (answer : A) : M A :=
  fun st => (Ok answer, log [r] st).

Fixpoint map_get {K V} (eqb : K -> K -> bool) (k : K) (m : list (K * V))
    : option V :=
  match m with
  | [] => None
  | (k', v) :: m' => if eqb k k' then Some v else map_get eqb k m'
  end.

Fixpoint map_set {K V} (eqb : K -> K -> bool) (k : K) (v : V)
    (m : list (K * V)) : list (K * V) :=
  match m with
  | [] => [(k, v)]
  | (k', v') :: m' =>
      if eqb k k' then (k', v) :: m' else (k', v') :: map_set eqb k v m'
  end.

Definition with_tmdb_id (si : SeriesInfo) (new : option Z) : SeriesInfo :=
  {| name := name si; year := year si; full_name := full_name si;
     series_tvdb_id := series_tvdb_id si;
     tmdb_id := SeriesInfo_set_tmdb_id (tmdb_id si) new |}.

Definition add_id_to_map (si : SeriesInfo) : M unit :=
  fun st =>
    let names := map_set String.eqb (full_name si) (tmdb_id si)
                   (id_map_name st) in
    let ids := match series_tvdb_id si with
               | Some tv => map_set Z.eqb tv (tmdb_id si) (id_map_id st)
               | None => id_map_id st
               end in
    (Ok tt, with_id_map names ids st).

(** The title and year search, the last step of [__set_tmdb_id]. *)
Definition search_by_title (si : SeriesInfo) : M SeriesInfo :=
  res <- _get (ReqSearch (name si) (year si))
              (provider_search P (name si) (year si)) ;;
  if Z.eqb (total_results res) 0 then ret si
  else match results res with
       | [] => raise IndexError
       | id :: _ =>
           let si := with_tmdb_id si (Some id) in
           add_id_to_map si ;; ret si
       end.

(** The lookup by TVDb ID, falling back to the title and year search. *)
Definition match_by_tvdb_id (si : SeriesInfo) : M SeriesInfo :=
  match series_tvdb_id si with
  | Some tv =>
      res <- _get (ReqFind tv) (tv_results (provider_find P tv)) ;;
      match res with
      | [id] =>
          let si := with_tmdb_id si (Some id) in
          add_id_to_map si ;; ret si
      | _ => search_by_title si
      end
  | None => search_by_title si
  end.

Definition get_id_map : M (list (string * option Z) * list (Z * option Z)) :=
  fun st => (Ok (id_map_name st, id_map_id st), st).

(** The truth value of [id_ := self.__id_map['name'].get(full_name, None)]:
    [None] and [0] are false. *)
Definition truthy_id (o : option (option Z)) : option Z :=
  match o with
  | Some (Some id) => if Z.eqb id 0 then None else Some id
  | _ => None
  end.

(** [__set_tmdb_id]; the series object is returned with the ID it holds
    afterwards. *)
Definition set_tmdb_id (si : SeriesInfo) : M SeriesInfo :=
  id_map <- get_id_map ;;
  match match series_tvdb_id si with
        | Some tv => map_get Z.eqb tv (snd id_map)
        | None => None
        end with
  | Some mapped => ret (with_tmdb_id si mapped)
  | None =>
      match truthy_id (map_get String.eqb (full_name si) (fst id_map)) with
      | Some id => ret (with_tmdb_id si (Some id))
      | None => match_by_tvdb_id si
      end
  end.

(* ------------------------------------------------------------------ *)
(** *** [__find_episode] *)

(** [range(0, n+1)]. *)
Definition seasons_upto (n : Z) : list Z :=
  map Z.of_nat (seq 0 (Z.to_nat (n + 1))).

(** ['success' in info and not info['success']]. *)
Definition reports_not_found (success : option bool) : bool :=
  match success with
  | Some b => negb b
  | None => false
  end.

(** The loop of the absolute-number fallback over
    [range(0, season_number+1)[::-1]]: [info] is the last answer. *)
Fixpoint absolute_scan (id abs : Z) (seasons : list Z)
    (info : episode_response) : M episode_response :=
  match seasons with
  | [] => ret info
  | s :: seasons' =>
      info' <- _get (ReqEpisode id s abs) (provider_episode P id s abs) ;;
      match ep_season_number info' with
      | Some _ => ret info'
      | None => absolute_scan id abs seasons' info'
      end
  end.

(** [{'season': info['season_number'], 'episode': info['episode_number']}]. *)
Definition index_of (info : episode_response) : result index :=
  match ep_season_number info, ep_episode_number info with
  | Some s, Some e => Ok {| idx_season := s; idx_episode := e |}
  | _, _ => Raise KeyError
  end.

(** The inner loop of the season scan: the first episode whose name matches
    the title. *)
Fixpoint first_match (t : string) (episodes : list season_episode)
    : option index :=
  match episodes with
  | [] => None
  | e :: episodes' =>
      if matches t (se_name e)
      then Some {| idx_season := se_season_number e;
                   idx_episode := se_episode_number e |}
      else first_match t episodes'
  end.

(** The last loop of [__find_episode], over [range(0, season_number+1)]. *)
Fixpoint season_scan (id : Z) (t : string) (seasons : list Z)
    : M (option index) :=
  match seasons with
  | [] => ret None
  | s :: seasons' =>
      tmdb_season <- _get (ReqSeason id s) (provider_season P id s) ;;
      if reports_not_found (sn_success tmdb_season) then ret None
      else match sn_episodes tmdb_season with
           | None => raise KeyError
           | Some episodes =>
               match first_match t episodes with
               | Some i => ret (Some i)
               | None => season_scan id t seasons'
               end
           end
  end.

(** The direct query and the absolute-number fallback. *)
Definition query_index (id : Z) (ei : EpisodeInfo) : M episode_response :=
  tmdb_info <- _get (ReqEpisode id (season ei) (episode ei))
                    (provider_episode P id (season ei) (episode ei)) ;;
  match abs_number ei with
  | Some abs =>
      if reports_not_found (ep_success tmdb_info)
      then absolute_scan id abs (rev (seasons_upto (season_number ei)))
             tmdb_info
      else ret tmdb_info
  | None => ret tmdb_info
  end.

(** What follows the lookup by the episode's TVDb ID. *)
Definition find_by_index (si : SeriesInfo) (ei : EpisodeInfo)
    (title_match : bool) : M (option index) :=
  match tmdb_id si with
  | None => ret None
  | Some id =>
      tmdb_info <- query_index id ei ;;
      match ep_name tmdb_info with
      | Some n =>
          if negb title_match then i <- lift (index_of tmdb_info) ;; ret (Some i)
          else if matches (title ei) n
               then i <- lift (index_of tmdb_info) ;; ret (Some i)
               else season_scan id (title ei) (seasons_upto (season_number ei))
      | None => season_scan id (title ei) (seasons_upto (season_number ei))
      end
  end.

Definition find_episode (si : SeriesInfo) (ei : EpisodeInfo)
    (title_match : bool) : M (SeriesInfo * option index) :=
  match tvdb_id ei with
  | Some tv =>
      res <- _get (ReqFind tv) (tv_episode_results (provider_find P tv)) ;;
      match res with
      | r :: _ =>
          ret (with_tmdb_id si (Some (fe_show_id r)),
               Some {| idx_season := fe_season_number r;
                       idx_episode := fe_episode_number r |})
      | [] => i <- find_by_index si ei title_match ;; ret (si, i)
      end
  | None => i <- find_by_index si ei title_match ;; ret (si, i)
  end.

(* ------------------------------------------------------------------ *)
(** *** [__determine_best_image] *)

(** Modelled from the spec: [preferences.meets_minimum_resolution] is not
    among the sources; a candidate passes when neither dimension is below
    the configured minimum. *)
Definition meets_minimum_resolution (w h : Z) : bool :=
  (min_width <=? w)%Z && (min_height <=? h)%Z.

(** [int(x)] for a number: the fraction is dropped. *)
Definition py_int (q : Q) : Z := Z.quot (Qnum q) (Zpos (Qden q)).

Record best_image := {
  best_index : nat;
  best_pixels : Z;
  best_score : Z }.

(** The loop over [enumerate(images)], from position [i] on. *)
Fixpoint best_image_loop (i : nat) (images : list image)
    (best : best_image) (valid_image : bool) : best_image * bool :=
  match images with
  | [] => (best, valid_image)
  | img :: images' =>
      if negb (meets_minimum_resolution (width img) (height img))
      then best_image_loop (S i) images' best valid_image
      else
        let pixels := (height img * width img)%Z in
        let score := py_int (vote_average img) in
        let best :=
          if (best_pixels best <? pixels)%Z
          then {| best_index := i; best_pixels := pixels;
                  best_score := score |}
          else if Z.eqb pixels (best_pixels best)
               then if (best_score best <? score)%Z
                    then {| best_index := i; best_pixels := pixels;
                            best_score := score |}
                    else best
               else best in
        best_image_loop (S i) images' best true
  end.

Definition determine_best_image (images : list image) : option image :=
  let (best, valid_image) :=
    best_image_loop 0 images
      {| best_index := 0; best_pixels := 0; best_score := 0 |} false in
  if valid_image then nth_error images (best_index best) else None.

(* ------------------------------------------------------------------ *)
(** *** [__is_generic_title] *)

(** [GENERIC_TITLE_FORMATS]: each format string is given by the text before
    and the text after its [{number}] field. *)
Definition GENERIC_TITLE_FORMATS : list (string * (string * string)) :=
  [ ("ar", ("الحلقة ", ""));
    ("zh", ("第 ", " 集"));
    ("cs", ("", ". epizoda"));
    ("en", ("Episode ", ""));
    ("fr", ("Épisode ", ""));
    ("de", ("Episode ", ""));
    ("he", ("פרק ", ""));
    ("hu", ("", ". epizód"));
    ("id", ("Episode ", ""));
    ("it", ("Episodio ", ""));
    ("ja", ("第", "話"));
    ("ko", ("에피소드 ", ""));
    ("pl", ("Odcinek ", ""));
    ("pt", ("Episódio ", ""));
    ("ro", ("Episodul ", ""));
    ("ru", ("Эпизод ", ""));
    ("sk", ("Epizóda ", ""));
    ("es", ("Episodio ", ""));
    ("th", ("Episode ", ""));
    ("tr", ("", ". Bölüm"));
    ("uk", ("Серія ", ""));
    ("vi", ("Episode ", "")) ].

(** [str(n)] for an integer. *)
Definition str_of_int (n : Z) : string :=
  NilZero.string_of_int (Z.to_int n).

(** [generic.format(number=n)]. *)
Definition format (generic : string * string) (n : Z) : string :=
  fst generic ++ str_of_int n ++ snd generic.

Definition is_generic_title (t : string) (language_code : string)
    (ei : EpisodeInfo) : bool :=
  match map_get String.eqb language_code GENERIC_TITLE_FORMATS with
  | None => false
  | Some generic =>
      match abs_number ei with
      | Some abs =>
          String.eqb t (format generic (episode_number ei))
          || String.eqb t (format generic abs)
      | None => String.eqb t (format generic (episode_number ei))
      end
  end.

(* ------------------------------------------------------------------ *)
(** *** The three queries *)

Definition image_url (path : string) : string :=
  "https://image.tmdb.org/t/p/original" ++ path.

Definition get_source_image (si : SeriesInfo) (ei : EpisodeInfo)
    (title_match : bool) : M (SeriesInfo * option string) :=
  blacklisted <- is_blacklisted si (Some ei) "image" ;;
  if (blacklisted : bool) then ret (si, None) else
  si <- set_tmdb_id si ;;
  found <- find_episode si ei title_match ;;
  let si := fst found in
  match snd found with
  | None => update_blacklist si (Some ei) "image" ;; ret (si, None)
  | Some i =>
      res <- _get (ReqEpisodeImages (tmdb_id si) (idx_season i)
                     (idx_episode i))
                  (provider_episode_images P (tmdb_id si) (idx_season i)
                     (idx_episode i)) ;;
      match stills res with
      | None => ret (si, None)
      | Some [] => update_blacklist si (Some ei) "image" ;; ret (si, None)
      | Some images =>
          match determine_best_image images with
          | None => update_blacklist si (Some ei) "image" ;; ret (si, None)
          | Some best => ret (si, Some (image_url (file_path best)))
          end
      end
  end.

Definition get_episode_title (si : SeriesInfo) (ei : EpisodeInfo)
    (language_code : string) : M (SeriesInfo * option string) :=
  blacklisted <- is_blacklisted si (Some ei) "title" ;;
  if (blacklisted : bool) then ret (si, None) else
  si <- set_tmdb_id si ;;
  found <- find_episode si ei true ;;
  let si := fst found in
  match snd found with
  | None => update_blacklist si (Some ei) "title" ;; ret (si, None)
  | Some i =>
      res <- _get (ReqEpisodeTitle (tmdb_id si) (idx_season i)
                     (idx_episode i) language_code)
                  (provider_episode_title P (tmdb_id si) (idx_season i)
                     (idx_episode i) language_code) ;;
      if reports_not_found (ep_success res)
      then update_blacklist si (Some ei) "title" ;; ret (si, None)
      else match ep_name res with
           | None => raise KeyError
           | Some t =>
               if is_generic_title t language_code ei
               then update_blacklist si (Some ei) "title" ;; ret (si, None)
               else ret (si, Some t)
           end
  end.

(** The default of the [language_code] argument. *)
Definition default_language_code : string := "en-US".

(** [s.endswith(suffix)]. *)
Definition endswith (s suffix : string) : bool :=
  let n := String.length s in
  let m := String.length suffix in
  (m <=? n)%nat && String.eqb (substring (n - m) m s) suffix.

Definition is_en (l : option string) : bool :=
  match l with
  | Some c => String.eqb c "en"
  | None => false
  end.

(** The loop of [get_series_logo] over the logos; an SVG ends it. *)
Fixpoint logo_loop (images : list logo) (best : logo) (valid_image : bool)
    : logo * bool :=
  match images with
  | [] => (best, valid_image)
  | img :: images' =>
      if negb (endswith (logo_file_path img) ".png"
               || endswith (logo_file_path img) ".svg")
      then logo_loop images' best valid_image
      else if negb (is_en (iso_639_1 img))
      then logo_loop images' best valid_image
      else if endswith (logo_file_path img) ".svg" then (img, true)
      else if (logo_width best * logo_height best
               <? logo_width img * logo_height img)%Z
      then logo_loop images' img true
      else logo_loop images' best true
  end.

(** The selection among the logos of a non-empty answer: [best] starts as
    the first logo; [None] when no logo was valid. *)
Definition best_logo (images : list logo) : option logo :=
  match images with
  | [] => None
  | first :: _ =>
      let (best, valid_image) := logo_loop images first false in
      if valid_image then Some best else None
  end.

Definition get_series_logo (si : SeriesInfo)
    : M (SeriesInfo * option string) :=
  blacklisted <- is_blacklisted si None "logo" ;;
  if (blacklisted : bool) then ret (si, None) else
  si <- set_tmdb_id si ;;
  res <- _get (ReqSeriesImages (tmdb_id si))
              (provider_series_images P (tmdb_id si)) ;;
  match best_logo (match logos res with
                   | Some images => images
                   | None => []
                   end) with
  | None => update_blacklist si None "logo" ;; ret (si, None)
  | Some best => ret (si, Some (image_url (logo_file_path best)))
  end.

End Interface.

(* ================================================================== *)
(** ** Reading a blacklist *)
(* ================================================================== *)

(** The entry of a key in the section of a query type, and its two
    fields. *)
Definition blacklist_entry (bl : dict) (query_type k : string)
    : option value :=
  match dict_get query_type bl with
  | Some (VDict sec) => dict_get k sec
  | _ => None
  end.

Definition failures_of (entry : value) : option value :=
  match entry with
  | VDict d => dict_get "failures" d
  | _ => None
  end.

Definition next_of (entry : value) : option value :=
  match entry with
  | VDict d => dict_get "next" d
  | _ => None
  end.

(** The three query types, and a blacklist in which each of them has a
    section that is a dict. *)
Definition query_types : list string := ["image"; "title"; "logo"].

Definition has_sections (bl : dict) : Prop :=
  forall query_type,
    In query_type query_types ->
    exists sec, dict_get query_type bl = Some (VDict sec).

(** The number of pixels of a candidate. *)
Definition pixels (img : image) : Z := (height img * width img)%Z.

(* ================================================================== *)
(** ** Concrete series, episodes and states *)
(* ================================================================== *)

Module Scenario.

Definition show : SeriesInfo :=
  {| name := "Show"; year := 2020; full_name := "Show (2020)";
     series_tvdb_id := None; tmdb_id := None |}.

Definition resolved_show : SeriesInfo :=
  {| name := "Show"; year := 2020; full_name := "Show (2020)";
     series_tvdb_id := None; tmdb_id := Some 77 |}.

Definition pilot : EpisodeInfo :=
  {| title := "Pilot"; season := 1; episode := 1; season_number := 1;
     episode_number := 1; abs_number := None; tvdb_id := None;
     key := "s1e1" |}.

(** An episode with an absolute number, in season 2. *)
Definition finale : EpisodeInfo :=
  {| title := "Finale"; season := 2; episode := 5; season_number := 2;
     episode_number := 5; abs_number := Some 17; tvdb_id := None;
     key := "s2e5" |}.

Definition pilot_key : string := "Show (2020)-s1e1".

(** A clock that advances by one microsecond at each reading, from 1000. *)
Definition clock (n : nat) : Z := 1000 + Z.of_nat n.

Definition start (bl : dict) : state :=
  {| blacklist := bl; id_map_name := []; id_map_id := []; trace := [];
     ticks := 0 |}.

(** A state in which the series is mapped to the ID 77. *)
Definition mapped (bl : dict) : state :=
  {| blacklist := bl; id_map_name := [("Show (2020)", Some 77)];
     id_map_id := []; trace := []; ticks := 0 |}.

(** One image entry for the pilot, with the given fields. *)
Definition one_entry (failures next : Z) : dict :=
  [("image", VDict [(pilot_key, VDict [("failures", VInt failures);
                                       ("next", VDatetime next)])]);
   ("title", VDict []); ("logo", VDict [])].

(** [SeriesInfo.set_tmdb_id] as an overwrite. *)
Definition overwrite (old new : option Z) : option Z := new.

(** [Title.matches] as equality of strings. *)
Definition same_title (t s : string) : bool := String.eqb t s.

Definition not_found : episode_response :=
  {| ep_success := Some false; ep_name := None; ep_season_number := None;
     ep_episode_number := None |}.

Definition found (n : string) (s e : Z) : episode_response :=
  {| ep_success := None; ep_name := Some n; ep_season_number := Some s;
     ep_episode_number := Some e |}.

(** A provider that knows nothing. *)
Definition nothing : provider :=
  {| provider_find := fun _ => {| tv_results := []; tv_episode_results := [] |};
     provider_search := fun _ _ => {| total_results := 0; results := [] |};
     provider_episode := fun _ _ _ => not_found;
     provider_season :=
       fun _ _ => {| sn_success := Some false; sn_episodes := None |};
     provider_episode_images := fun _ _ _ => {| stills := None |};
     provider_episode_title := fun _ _ _ _ => not_found;
     provider_series_images := fun _ => {| logos := None |} |}.

(** A provider that knows the pilot of series 77 as season 1, episode 1,
    answers the image query without a [stills] field, and gives the
    episode the title [t] in every language. *)
Definition knows_pilot (t : string) : provider :=
  {| provider_find := provider_find nothing;
     provider_search := provider_search nothing;
     provider_episode := fun _ _ _ => found "Pilot" 1 1;
     provider_season := provider_season nothing;
     provider_episode_images := fun _ _ _ => {| stills := None |};
     provider_episode_title := fun _ _ _ _ => found t 1 1;
     provider_series_images := provider_series_images nothing |}.

(** A provider that answers the logo query with the given logos. *)
Definition with_logos (l : list logo) : provider :=
  {| provider_find := provider_find nothing;
     provider_search := provider_search nothing;
     provider_episode := provider_episode nothing;
     provider_season := provider_season nothing;
     provider_episode_images := provider_episode_images nothing;
     provider_episode_title := provider_episode_title nothing;
     provider_series_images := fun _ => {| logos := Some l |} |}.

Definition season_episode_of (n : string) (s e : Z) : season_episode :=
  {| se_name := n; se_season_number := s; se_episode_number := e |}.

Definition specials : season_response :=
  {| sn_success := None;
     sn_episodes := Some [season_episode_of "Special" 0 1] |}.

Definition missing_season : season_response :=
  {| sn_success := Some false; sn_episodes := None |}.

Definition full_season : season_response :=
  {| sn_success := None;
     sn_episodes := Some [season_episode_of "Opening" 1 1;
                          season_episode_of "Finale" 1 2;
                          season_episode_of "Finale" 1 3] |}.

(** A provider whose seasons are answered by [answer]. *)
Definition with_seasons (answer : Z -> season_response) : provider :=
  {| provider_find := provider_find nothing;
     provider_search := provider_search nothing;
     provider_episode := provider_episode nothing;
     provider_season := fun _ s => answer s;
     provider_episode_images := provider_episode_images nothing;
     provider_episode_title := provider_episode_title nothing;
     provider_series_images := provider_series_images nothing |}.

(** Season 0 holds specials, season 1 is not found, season 2 holds the
    finale. *)
Definition gap_at_one (s : Z) : season_response :=
  if Z.eqb s 0 then specials
  else if Z.eqb s 1 then missing_season
  else full_season.

(** Season 0 holds specials, the others hold the finale. *)
Definition no_gap (s : Z) : season_response :=
  if Z.eqb s 0 then specials else full_season.

(** A provider whose episodes are answered by [answer]. *)
Definition with_episodes (answer : Z -> Z -> episode_response) : provider :=
  {| provider_find := provider_find nothing;
     provider_search := provider_search nothing;
     provider_episode := fun _ s e => answer s e;
     provider_season := provider_season nothing;
     provider_episode_images := provider_episode_images nothing;
     provider_episode_title := provider_episode_title nothing;
     provider_series_images := provider_series_images nothing |}.

(** Episode 17 exists in seasons 1 and 0 only; no other episode exists. *)
Definition absolute_only (s e : Z) : episode_response :=
  if Z.eqb e 17
  then if Z.eqb s 2 then not_found else found "Finale" s 17
  else not_found.

(** The two candidates of equal area of the specification. *)
Definition square_still : image :=
  {| width := 100; height := 100; vote_average := 5; file_path := "/s.jpg" |}.

Definition wide_still : image :=
  {| width := 200; height := 50; vote_average := 9; file_path := "/w.jpg" |}.

(** Two candidates of equal area whose vote averages differ by less than
    one: 5.2 and 5.9. *)
Definition low_vote_still : image :=
  {| width := 100; height := 100; vote_average := 52 # 10;
     file_path := "/l.jpg" |}.

Definition high_vote_still : image :=
  {| width := 100; height := 100; vote_average := 59 # 10;
     file_path := "/h.jpg" |}.

(** A candidate below a minimum height of 100, and one of zero width. *)
Definition small_still : image :=
  {| width := 50; height := 50; vote_average := 7; file_path := "/m.jpg" |}.

Definition flat_still : image :=
  {| width := 0; height := 200; vote_average := 0; file_path := "/f.jpg" |}.

(** The fifth episode of season 1. *)
Definition fifth : EpisodeInfo :=
  {| title := "Pilot"; season := 1; episode := 5; season_number := 1;
     episode_number := 5; abs_number := None; tvdb_id := None;
     key := "s1e5" |}.

Definition jpg_logo : logo :=
  {| logo_file_path := "/a.jpg"; logo_width := 1000; logo_height := 1000;
     iso_639_1 := Some "en" |}.

Definition png_logo : logo :=
  {| logo_file_path := "/b.png"; logo_width := 10; logo_height := 10;
     iso_639_1 := Some "en" |}.

(** A blacklist file with one image entry that is an empty record. *)
Definition empty_record_file : value :=
  VDict [("image", VDict [(pilot_key, VDict [])])].

(** What the repair pass makes of it. *)
Definition empty_record_repaired : dict :=
  [("image", VDict [(pilot_key, VDict [("failures", VInt 1)])]);
   ("title", VDict []); ("logo", VDict [])].

End Scenario.

(** The season scan goes on after season [s]: the season is found, has an
    episode list, and no episode of it matches the title. *)
Definition scan_goes_on (P : provider) (matches : string -> string -> bool)
    (id : Z) (t : string) (s : Z) : bool :=
  negb (reports_not_found (sn_success (provider_season P id s)))
  && match sn_episodes (provider_season P id s) with
     | Some episodes =>
         match first_match matches t episodes with
         | Some _ => false
         | None => true
         end
     | None => false
     end.

(** The absolute-number query on season [s] yields no result: its answer
    has no [season_number]. *)
Definition yields_nothing (P : provider) (id abs s : Z) : bool :=
  match ep_season_number (provider_episode P id s abs) with
  | Some _ => false
  | None => true
  end.

(** [score] in [__determine_best_image]: the vote average without its
    fraction. *)
Definition score (img : image) : Z := py_int (vote_average img).

(** The candidate passes the minimum resolution. *)
Definition meets (min_width min_height : Z) (img : image) : bool :=
  meets_minimum_resolution min_width min_height (width img) (height img).

(** The order of the selection: pixels first, then score. *)
Definition lex_le (c r : image) : Prop :=
  pixels c < pixels r \/ (pixels c = pixels r /\ score c <= score r).

Definition lex_lt (c r : image) : Prop :=
  pixels c < pixels r \/ (pixels c = pixels r /\ score c < score r).

(** [best] describes the candidate [r] of [images], and [r] is the first
    greatest candidate among those of [images] that pass. *)
Definition best_so_far (min_width min_height : Z) (images : list image)
    (best : best_image) (r : image) : Prop :=
  nth_error images (best_index best) = Some r /\
  meets min_width min_height r = true /\
  best_pixels best = pixels r /\
  best_score best = score r /\
  forall j c,
    nth_error images j = Some c -> meets min_width min_height c = true ->
    lex_le c r /\ ((j < best_index best)%nat -> lex_lt c r).

(** The invariant of the loop of [__determine_best_image] after the
    candidates [images]. *)
Definition loop_invariant (min_width min_height : Z) (images : list image)
    (best : best_image) (valid_image : bool) : Prop :=
  if valid_image
  then exists r, best_so_far min_width min_height images best r
  else best_pixels best = 0 /\
       forall c, In c images -> meets min_width min_height c = false.

(** A method leaves the blacklist as it found it. *)
Definition keeps_blacklist {A} (c : M A) : Prop :=
  forall st, blacklist (snd (c st)) = blacklist st.

(* ================================================================== *)
(** ** The constructor and the shape of a blacklist *)
(* ================================================================== *)

(** [__init__]: the identifier map and the blacklist are read from their
    files when these exist, and the blacklist goes through the repair pass;
    [started] is the number of readings of the clock so far. The
    constructor raises what the repair pass raises. *)
Definition __init__ (clock : nat -> Z)
    (id_map_file : option (list (string * option Z) * list (Z * option Z)))
    (blacklist_file : option value) (started : nat) : result state :=
  let id_map := match id_map_file with
                | Some m => m
                | None => ([], [])
                end in
  let st := {| blacklist := []; id_map_name := fst id_map;
               id_map_id := snd id_map; trace := []; ticks := started |} in
  match blacklist_file with
  | Some loaded =>
      match fix_blacklist clock loaded st with
      | (Ok bl, st') => Ok (with_blacklist bl st')
      | (Raise e, _) => Raise e
      end
  | None => Ok (with_blacklist EMPTY_BLACKLIST st)
  end.

(** An entry with an integer failure count, with a next time that is a
    datetime, and with both. *)
Definition has_failures (e : value) : bool :=
  match failures_of e with
  | Some f => is_int f
  | None => false
  end.

Definition has_next (e : value) : bool :=
  match next_of e with
  | Some n => is_datetime n
  | None => false
  end.

Definition well_formed_entry (e : value) : bool :=
  has_failures e && has_next e.

(** A section that is a dict of entries with both fields, and a blacklist
    that has the three sections and only such sections. *)
Definition well_formed_section (sec : value) : bool :=
  match sec with
  | VDict d => forallb (fun p => well_formed_entry (snd p)) d
  | _ => false
  end.

Definition well_formed (bl : dict) : bool :=
  forallb (fun query_type => dict_mem query_type bl) query_types
  && forallb (fun p => well_formed_section (snd p)) bl.

(** A value the inner loop of the repair pass cannot go through: it is
    neither a dict nor a list nor the empty string. *)
Definition breaks_repair (v : value) : bool :=
  match v with
  | VDict _ | VList _ => false
  | VStr EmptyString => false
  | _ => true
  end.

(** The shape the two loops of the repair pass share: the keys are visited
    in order, the object found under a key is replaced by what [f] makes of
    it. *)
Fixpoint for_keys (f : value -> M value) (keys : list string) (d : dict)
    : M dict :=
  match keys with
  | [] => ret d
  | k :: keys' =>
      match dict_get k d with
      | Some e => bind (f e) (fun e' => for_keys f keys' (dict_set k e' d))
      | None => raise KeyError
      end
  end.

(** The entries of a section, when it is a dict, all satisfy [R]. *)
Definition entries_all (R : value -> Prop) (sec : value) : Prop :=
  forall d, sec = VDict d -> forall k e, dict_get k d = Some e -> R e.

Module Repaired.

(** A blacklist file whose image entry has a failure count only, and one
    with a stray top-level key. *)
Definition counted_file : dict :=
  [("image", VDict [(Scenario.pilot_key, VDict [("failures", VInt 2)])])].

Definition counted_repaired : dict :=
  [("image", VDict [(Scenario.pilot_key,
                     VDict [("failures", VInt 2);
                            ("next", VDatetime 1000)])]);
   ("title", VDict []); ("logo", VDict [])].

Definition versioned_file : dict :=
  [("image", VDict []); ("version", VInt 2)].

End Repaired.

(** The series is known to the identifier map: its TVDb ID is mapped, or
    its full name is mapped to an ID that counts as true. *)
Definition known (si : SeriesInfo) (st : state) : Prop :=
  (exists tv mapped,
     series_tvdb_id si = Some tv /\
     map_get Z.eqb tv (id_map_id st) = Some mapped) \/
  (exists id,
     truthy_id (map_get String.eqb (full_name si) (id_map_name st))
     = Some id).

Module Resolved.

(** A provider whose title search finds the series 77, and whose lookup by
    TVDb ID finds nothing. *)
Definition finds_show : provider :=
  {| provider_find := provider_find Scenario.nothing;
     provider_search := fun _ _ => {| total_results := 1; results := [77] |};
     provider_episode := provider_episode Scenario.nothing;
     provider_season := provider_season Scenario.nothing;
     provider_episode_images := provider_episode_images Scenario.nothing;
     provider_episode_title := provider_episode_title Scenario.nothing;
     provider_series_images := provider_series_images Scenario.nothing |}.

(** The series with the TVDb ID 5. *)
Definition show_with_tvdb : SeriesInfo :=
  {| name := "Show"; year := 2020; full_name := "Show (2020)";
     series_tvdb_id := Some 5; tmdb_id := None |}.

End Resolved.

(** A method sends at most [n] requests and changes nothing else. *)
Definition sends_at_most {A} (n : nat) (c : M A) : Prop :=
  forall st,
    exists reqs,
      snd (c st) = log reqs st /\ (List.length reqs <= n)%nat.

(* ================================================================== *)
(** ** The filter of the logo selection *)
(* ================================================================== *)

(** What the loop of [get_series_logo] tests on a logo: the file is a PNG
    or an SVG, the language is English; whether it is an SVG; and the area
    it compares. *)
Definition is_transparent (l : logo) : bool :=
  endswith (logo_file_path l) ".png" || endswith (logo_file_path l) ".svg".

Definition passes_filter (l : logo) : bool :=
  is_transparent l && is_en (iso_639_1 l).

Definition is_svg (l : logo) : bool := endswith (logo_file_path l) ".svg".

Definition logo_area (l : logo) : Z := logo_width l * logo_height l.

Module Logos.

Definition big_png : logo :=
  {| logo_file_path := "/c.png"; logo_width := 400; logo_height := 100;
     iso_639_1 := Some "en" |}.

Definition french_png : logo :=
  {| logo_file_path := "/d.png"; logo_width := 900; logo_height := 900;
     iso_639_1 := Some "fr" |}.

Definition svg_logo : logo :=
  {| logo_file_path := "/e.svg"; logo_width := 1; logo_height := 1;
     iso_639_1 := Some "en" |}.

End Logos.

(* ================================================================== *)
(** ** The three queries and the blacklist *)
(* ================================================================== *)

(** The key [k] of the query type is blacklisted at the next reading of
    the clock: its entry has both fields, and its failure count exceeds the
    retry count or its next time is still ahead. *)
Definition blocked (clock : nat -> Z) (tmdb_retry_count : Z) (st : state)
    (query_type k : string) : Prop :=
  exists sec entry failures next,
    dict_get query_type (blacklist st) = Some (VDict sec) /\
    dict_get k sec = Some (VDict entry) /\
    dict_get "failures" entry = Some (VInt failures) /\
    dict_get "next" entry = Some (VDatetime next) /\
    (tmdb_retry_count < failures \/ clock (ticks st) < next).

(** Two states that differ at most in the number of readings of the
    clock. *)
Definition same_but_clock (st st' : state) : Prop :=
  trace st' = trace st /\ blacklist st' = blacklist st /\
  id_map_name st' = id_map_name st /\ id_map_id st' = id_map_id st.

(** The key of an episode of a series in the image and title sections. *)
Definition episode_key (si : SeriesInfo) (ei : EpisodeInfo) : string :=
  full_name si ++ "-" ++ key ei.

(** A method leaves the three sections of the blacklist in place. *)
Definition keeps_sections {A} (c : M A) : Prop :=
  forall st, has_sections (blacklist st) ->
             has_sections (blacklist (snd (c st))).

Module Answers.

(** A provider that knows the pilot of every series as season 1, episode 1,
    answers the image query with the stills [l] and the title query with
    the title [t]. *)
Definition with_stills (l : list image) (t : string) : provider :=
  {| provider_find := provider_find Scenario.nothing;
     provider_search := provider_search Scenario.nothing;
     provider_episode := fun _ _ _ => Scenario.found "Pilot" 1 1;
     provider_season := provider_season Scenario.nothing;
     provider_episode_images := fun _ _ _ => {| stills := Some l |};
     provider_episode_title := fun _ _ _ _ => Scenario.found t 1 1;
     provider_series_images := provider_series_images Scenario.nothing |}.

End Answers.

(* ================================================================== *)
(** ** [manually_download_season] *)
(* ================================================================== *)

(** [l1] is [l2] with some elements left out, the others in the order of
    [l2]. *)
Inductive subsequence {A : Type} : list A -> list A -> Prop :=
| subsequence_nil : subsequence [] []
| subsequence_skip x l1 l2 : subsequence l1 l2 -> subsequence l1 (x :: l2)
| subsequence_keep x l1 l2 :
    subsequence l1 l2 -> subsequence (x :: l1) (x :: l2).

(** [range(1, n+1)]. *)
Definition episodes_upto (n : Z) : list Z :=
  map Z.of_nat (seq 1 (Z.to_nat n)).

(** [f's{season}e{episode}.jpg']. *)
Definition filename (season episode : Z) : string :=
  "s" ++ str_of_int season ++ "e" ++ str_of_int episode ++ ".jpg".

Section Season.

(** Besides the parameters of the interface: the constructors of
    [SeriesInfo] and [EpisodeInfo], which are not among the sources.
    [SeriesInfo_init title year] is [SeriesInfo(title, year)],
    [EpisodeInfo_init season episode] is
    [EpisodeInfo(Title(''), season, episode)]. *)
Variable P : provider.
Variable clock : nat -> Z.
Variable SeriesInfo_set_tmdb_id : option Z -> option Z -> option Z.
Variable matches : string -> string -> bool.
Variable tmdb_retry_count : Z.
Variable min_width min_height : Z.
Variable SeriesInfo_init : string -> Z -> SeriesInfo.
Variable EpisodeInfo_init : Z -> Z -> EpisodeInfo.

(** The loop over the episodes. [downloaded] holds the calls of
    [download_image] made so far, each with its URL and the name of its
    file; they stay made when a later query raises. The series object is
    the same in every turn; it is returned as the loop leaves it, with the
    state of the interface object. *)
Fixpoint download_episodes (season : Z) (episodes : list Z)
    (si : SeriesInfo) (downloaded : list (string * string)) (st : state)
    : result SeriesInfo * list (string * string) * state :=
  match episodes with
  | [] => (Ok si, downloaded, st)
  | episode :: episodes' =>
      match get_source_image P clock SeriesInfo_set_tmdb_id matches
              tmdb_retry_count min_width min_height si
              (EpisodeInfo_init season episode) false st with
      | (Ok (si', image_url), st') =>
          let downloaded' :=
            match image_url with
            | Some url =>
                if negb (String.eqb url "")
                then (downloaded ++ [(url, filename season episode)])%list
                else downloaded
            | None => downloaded
            end in
          download_episodes season episodes' si' downloaded' st'
      | (Raise e, st') => (Raise e, downloaded, st')
      end
  end.

(** [manually_download_season]: a new interface object is made from the
    two files, then the episodes 1 to [episode_count] are queried. *)
Definition manually_download_season
    (id_map_file : option (list (string * option Z) * list (Z * option Z)))
    (blacklist_file : option value) (started : nat)
    (title : string) (year season episode_count : Z)
    : result unit * list (string * string) :=
  match __init__ clock id_map_file blacklist_file started with
  | Ok st =>
      match download_episodes season (episodes_upto episode_count)
              (SeriesInfo_init title year) [] st with
      | (Ok _, downloaded, _) => (Ok tt, downloaded)
      | (Raise e, downloaded, _) => (Raise e, downloaded)
      end
  | Raise e => (Raise e, [])
  end.

End Season.

Module Downloads.

Definition new_series (title : string) (year : Z) : SeriesInfo :=
  {| name := title; year := year;
     full_name := title ++ " (" ++ str_of_int year ++ ")";
     series_tvdb_id := None; tmdb_id := None |}.

Definition new_episode (season episode : Z) : EpisodeInfo :=
  {| title := ""; season := season; episode := episode;
     season_number := season; episode_number := episode;
     abs_number := None; tvdb_id := None;
     key := "s" ++ str_of_int season ++ "e" ++ str_of_int episode |}.

(** A provider that finds the series 77 by title and knows episodes 1 and
    3 of every season, each with one still. *)
Definition odd_episodes : provider :=
  {| provider_find := provider_find Scenario.nothing;
     provider_search := fun _ _ => {| total_results := 1; results := [77] |};
     provider_episode :=
       fun _ s e => if Z.eqb e 2 then Scenario.not_found
                    else Scenario.found "Odd" s e;
     provider_season := provider_season Scenario.nothing;
     provider_episode_images :=
       fun _ _ _ => {| stills := Some [Scenario.square_still] |};
     provider_episode_title := provider_episode_title Scenario.nothing;
     provider_series_images := provider_series_images Scenario.nothing |}.

End Downloads.

(* ================================================================== *)
(** ** [CleanPath.sanitize_name] (modules/CleanPath.py) *)
(* ================================================================== *)

(** [__ILLEGAL_FILE_CHARACTERS]. A string stands for the bytes of its
    UTF-8 encoding; the keys of the table are ASCII characters, and such a
    byte occurs in the encoding only as the character itself. The double
    quote is the character 34, the backslash the character 92. *)
Definition ILLEGAL_FILE_CHARACTERS : list (ascii * string) :=
  [ ("?"%char, "!");
    ("<"%char, "");
    (">"%char, "");
    (":"%char, " -");
    (ascii_of_nat 34, "");
    ("|"%char, "");
    ("*"%char, "-");
    ("/"%char, "+");
    (ascii_of_nat 92, "+") ].

(** [s.translate(str.maketrans(table))]: a character of the table is
    replaced by its string, any other is kept. *)
Fixpoint translate (table : list (ascii * string)) (s : string) : string :=
  match s with
  | EmptyString => EmptyString
  | String c s' =>
      match map_get Ascii.eqb c table with
      | Some replacement => replacement
      | None => String c EmptyString
      end ++ translate table s'
  end.

Definition sanitize_name (filename : string) : string :=
  translate ILLEGAL_FILE_CHARACTERS filename.

(** The character is not a key of the table; no character of the string
    is. *)
Definition legal (table : list (ascii * string)) (c : ascii) : bool :=
  match map_get Ascii.eqb c table with
  | Some _ => false
  | None => true
  end.

Definition all_legal (table : list (ascii * string)) (s : string) : bool :=
  forallb (legal table) (list_ascii_of_string s).

(* ================================================================== *)
(** ** [DatabaseInterface] (config/DatabaseInterface.py) *)
(* ================================================================== *)

(** The earlier interface to the provider: its blacklist is a list of
    keys without count or time, its identifier map goes from full titles
    to IDs. The requests and their answers are those of the provider
    above; the two files are not written. *)
Module Database.

Record state := {
  blacklist : list string;
  id_map : list (string * Z);
  trace : list request }.

(** [f'{title} ({year})'] and [f'{title} ({year})-{season}-{episode}']. *)
Definition full_title (title : string) (year : Z) : string :=
  title ++ " (" ++ str_of_int year ++ ")".

Definition entry_key (title : string) (year season episode : Z) : string :=
  full_title title year ++ "-" ++ str_of_int season ++ "-"
  ++ str_of_int episode.

Definition sent (r : request) (st : state) : state :=
  {| blacklist := blacklist st; id_map := id_map st;
     trace := (trace st ++ [r])%list |}.

Definition add_to_blacklist (title : string) (year season episode : Z)
    (st : state) : state :=
  {| blacklist :=
       (blacklist st ++ [entry_key title year season episode])%list;
     id_map := id_map st; trace := trace st |}.

Definition is_in_blacklist (title : string) (year season episode : Z)
    (st : state) : bool :=
  existsb (String.eqb (entry_key title year season episode)) (blacklist st).

Definition add_id_to_map (title : string) (year id_ : Z) (st : state)
    : state :=
  {| blacklist := blacklist st;
     id_map := map_set String.eqb (full_title title year) id_ (id_map st);
     trace := trace st |}.

(** [__get_tv_id]: [None] when the search has no result. *)
Definition get_tv_id (P : provider) (title : string) (year : Z) (st : state)
    : result (option Z) * state :=
  match map_get String.eqb (full_title title year) (id_map st) with
  | Some id => (Ok (Some id), st)
  | None =>
      let res := provider_search P title year in
      let st := sent (ReqSearch title year) st in
      if Z.eqb (total_results res) 0 then (Ok None, st)
      else match results res with
           | [] => (Raise IndexError, st)
           | new_id :: _ =>
               (Ok (Some new_id), add_id_to_map title year new_id st)
           end
  end.

(** The loop of [__determine_best_image]: every image is a candidate. *)
Fixpoint best_image_loop (i : nat) (images : list image) (best : best_image)
    : best_image :=
  match images with
  | [] => best
  | img :: images' =>
      let pixels := (height img * width img)%Z in
      let score := py_int (vote_average img) in
      let best :=
        if Z.ltb (best_pixels best) pixels
        then {| best_index := i; best_pixels := pixels;
                best_score := score |}
        else if Z.eqb pixels (best_pixels best)
             then if Z.ltb (best_score best) score
                  then {| best_index := i; best_pixels := pixels;
                          best_score := score |}
                  else best
             else best in
      best_image_loop (S i) images' best
  end.

Definition determine_best_image (images : list image) : result image :=
  match images with
  | [only] => Ok only
  | _ =>
      let best := best_image_loop 0 images
                    {| best_index := 0; best_pixels := 0;
                       best_score := 0 |} in
      match nth_error images (best_index best) with
      | Some img => Ok img
      | None => Raise IndexError
      end
  end.

Definition get_title_card_source_image (P : provider) (title : string)
    (year season episode : Z) (st : state)
    : result (option string) * state :=
  if is_in_blacklist title year season episode st then (Ok None, st)
  else
    match get_tv_id P title year st with
    | (Raise e, st) => (Raise e, st)
    | (Ok tv_id, st) =>
        let res := provider_episode_images P tv_id season episode in
        let st := sent (ReqEpisodeImages tv_id season episode) st in
        match stills res with
        | None => (Ok None, add_to_blacklist title year season episode st)
        | Some [] => (Ok None, add_to_blacklist title year season episode st)
        | Some images =>
            match determine_best_image images with
            | Ok best =>
                (Ok (Some (image_url (file_path best))), st)
            | Raise e => (Raise e, st)
            end
        end
    end.

End Database.

Module Earlier.

(** A state of the earlier interface with nothing in it, and an episode
    answered without stills. *)
Definition fresh : Database.state :=
  {| Database.blacklist := []; Database.id_map := [];
     Database.trace := [] |}.

Definition mapped : Database.state :=
  {| Database.blacklist := []; Database.id_map := [("Show (2020)", 77)];
     Database.trace := [] |}.

End Earlier.

(* ================================================================== *)
(** ** The tiers of [__find_episode] *)
(* ================================================================== *)

(** The lookup by the TVDb ID of the episode gives nothing: the episode
    has no TVDb ID, or the answer has no episode. The state after it. *)
Definition lookup_fails (P : provider) (ei : EpisodeInfo) : Prop :=
  match tvdb_id ei with
  | Some tv => tv_episode_results (provider_find P tv) = []
  | None => True
  end.

Definition after_lookup (ei : EpisodeInfo) (st : state) : state :=
  match tvdb_id ei with
  | Some tv => log [ReqFind tv] st
  | None => st
  end.

(** The answer to the episode query confirms the episode: it has a name,
    and the title is not to be matched or matches the name. *)
Definition confirms (matches : string -> string -> bool) (ei : EpisodeInfo)
    (title_match : bool) (info : episode_response) : bool :=
  match ep_name info with
  | Some n => negb title_match || matches (title ei) n
  | None => false
  end.

(** A run of [__find_episode] from [st] goes on with the answer [info]
    after the requests [reqs]: its requests are [reqs], then those of a
    prefix of the seasons 0 to the season number; and when the answer
    confirms the episode, its index is the result and nothing more is
    sent. *)
Definition goes_on_with (P : provider)
    (SeriesInfo_set_tmdb_id : option Z -> option Z -> option Z)
    (matches : string -> string -> bool) (si : SeriesInfo)
    (ei : EpisodeInfo) (title_match : bool) (id : Z) (st : state)
    (info : episode_response) (reqs : list request) : Prop :=
  let run := find_episode P SeriesInfo_set_tmdb_id matches si ei
               title_match st in
  (exists k,
     trace (snd run)
     = (trace (after_lookup ei st) ++ reqs
        ++ map (ReqSeason id)
             (firstn k (seasons_upto (season_number ei))))%list) /\
  (forall i,
     confirms matches ei title_match info = true ->
     index_of info = Ok i ->
     run = (Ok (si, Some i), log reqs (after_lookup ei st))).

Module Tiers.

(** The last episode of season 2, without absolute number. *)
Definition closing : EpisodeInfo :=
  {| title := "Finale"; season := 2; episode := 5; season_number := 2;
     episode_number := 5; abs_number := None; tvdb_id := None;
     key := "s2e5" |}.

End Tiers.
(* ================================================================== *)
(** ** Dictionaries *)
(* ================================================================== *)

Lemma dict_mem_get (k : string) (d : dict) :
  dict_mem k d = match dict_get k d with Some _ => true | None => false end.
Proof.
  induction d as [|[k' v] d IH]; simpl; [reflexivity|].
  destruct (String.eqb k k'); [reflexivity | exact IH].
Qed.

Lemma dict_get_set_same (k : string) (v : value) (d : dict) :
  dict_get k (dict_set k v d) = Some v.
Proof.
  induction d as [|[k' v'] d IH]; simpl.
  - now rewrite String.eqb_refl.
  - destruct (String.eqb k k') eqn:E; simpl; rewrite E; [reflexivity | exact IH].
Qed.

Lemma dict_get_set_other (k k' : string) (v : value) (d : dict) :
  k <> k' -> dict_get k' (dict_set k v d) = dict_get k' d.
Proof.
  intros Hne. induction d as [|[k0 v0] d IH]; simpl.
  - destruct (String.eqb_spec k' k); [congruence | reflexivity].
  - destruct (String.eqb_spec k k0) as [->|Hk]; simpl.
    + destruct (String.eqb_spec k' k0); [congruence | reflexivity].
    + destruct (String.eqb k' k0); [reflexivity | exact IH].
Qed.

Lemma blacklist_entry_set (bl : dict) (query_type k : string) (e : value)
    (sec : dict) :
  blacklist_entry (dict_set query_type (VDict (dict_set k e sec)) bl)
    query_type k = Some e.
Proof.
  unfold blacklist_entry. rewrite dict_get_set_same.
  apply dict_get_set_same.
Qed.

(* ================================================================== *)
(** ** The backoff rule of the blacklist *)
(* ================================================================== *)

(** Unfolds the monad in a run of a method. *)
Ltac run_monad :=
  unfold bind, lift, ret, raise, get_blacklist, put_blacklist, now; simpl.

(** C1. Recording a failure ([__update_blacklist]), for a query type whose
    section is a dict and with [t], [t'] the two readings of the clock the
    call makes; a day is 24 * 60 * 60 * 1000000 microseconds. On an absent
    key an entry is inserted that has the two fields [failures] and [next]
    and no other, with failure count 1 and next time [t] plus one day; on a
    present key whose next time has passed at [t'] the failure count grows
    by exactly one and the next time becomes [t] plus one day; on a present
    key whose next time has not passed the blacklist is left as it is. *)
Theorem update_blacklist_backoff :
  forall (clock : nat -> Z) si ei query_type k sec st,
    blacklist_key si ei query_type = Ok k ->
    dict_get query_type (blacklist st) = Some (VDict sec) ->
    let t := clock (ticks st) in
    let t' := clock (S (ticks st)) in
    let later := t + 24 * 60 * 60 * 1000000 in
    let run := update_blacklist clock si ei query_type st in
    (dict_get k sec = None ->
       let entry := VDict [("failures", VInt 1); ("next", VDatetime later)] in
       fst run = Ok tt /\
       blacklist_entry (blacklist (snd run)) query_type k = Some entry /\
       failures_of entry = Some (VInt 1) /\
       next_of entry = Some (VDatetime later)) /\
    (forall entry failures next,
       dict_get k sec = Some (VDict entry) ->
       dict_get "failures" entry = Some (VInt failures) ->
       dict_get "next" entry = Some (VDatetime next) ->
       (next <= t' ->
          let entry' :=
            VDict (dict_set "next" (VDatetime later)
                     (dict_set "failures" (VInt (failures + 1)) entry)) in
          fst run = Ok tt /\
          blacklist_entry (blacklist (snd run)) query_type k = Some entry' /\
          failures_of entry' = Some (VInt (failures + 1)) /\
          next_of entry' = Some (VDatetime later)) /\
       (t' < next ->
          fst run = Ok tt /\ blacklist (snd run) = blacklist st)).
Proof.
  intros clock si ei query_type k sec st Hkey Hsec t t' later run.
  assert (Hday : later = t + one_day) by reflexivity.
  subst run. unfold update_blacklist. run_monad.
  rewrite Hkey, Hsec. simpl. rewrite dict_mem_get.
  fold t. rewrite <- Hday.
  split.
  - intros Habs. rewrite Habs. simpl.
    split; [reflexivity|]. split; [|split; reflexivity].
    unfold new_entry. apply blacklist_entry_set.
  - intros entry failures next Hent Hf Hn. rewrite Hent. simpl.
    rewrite Hn. simpl.
    split.
    + intros Hpassed.
      destruct (Z.leb_spec next (clock (S (ticks st)))); [|subst t'; lia].
      rewrite Hf. simpl.
      repeat split.
      * apply blacklist_entry_set.
      * rewrite dict_get_set_other by discriminate.
        apply dict_get_set_same.
      * apply dict_get_set_same.
    + intros Hearly.
      destruct (Z.leb_spec next (clock (S (ticks st)))); [subst t'; lia|].
      split; reflexivity.
Qed.

Lemma update_blacklist_backoff_witness :
  let absent := update_blacklist Scenario.clock Scenario.show
                  (Some Scenario.pilot) "image"
                  (Scenario.start EMPTY_BLACKLIST) in
  let due := update_blacklist Scenario.clock Scenario.show
               (Some Scenario.pilot) "image"
               (Scenario.start (Scenario.one_entry 2 1001)) in
  let waiting := update_blacklist Scenario.clock Scenario.show
                   (Some Scenario.pilot) "image"
                   (Scenario.start (Scenario.one_entry 2 1002)) in
  (fst absent = Ok tt /\
   blacklist_entry (blacklist (snd absent)) "image" Scenario.pilot_key
   = Some (VDict [("failures", VInt 1);
                  ("next", VDatetime 86400001000)])) /\
  (fst due = Ok tt /\
   blacklist (snd due) = Scenario.one_entry 3 86400001000) /\
  (fst waiting = Ok tt /\
   blacklist (snd waiting) = Scenario.one_entry 2 1002).
Proof.
  split; [|split].
  - destruct (update_blacklist_backoff Scenario.clock Scenario.show
                (Some Scenario.pilot) "image" Scenario.pilot_key []
                (Scenario.start EMPTY_BLACKLIST) eq_refl eq_refl)
      as [Habsent _].
    destruct (Habsent eq_refl) as (Hok & Hentry & _).
    split; [exact Hok | exact Hentry].
  - destruct (update_blacklist_backoff Scenario.clock Scenario.show
                (Some Scenario.pilot) "image" Scenario.pilot_key _
                (Scenario.start (Scenario.one_entry 2 1001))
                eq_refl eq_refl) as [_ H].
    destruct (H _ 2 1001 eq_refl eq_refl eq_refl) as [Hdue _].
    destruct Hdue as [Hok _]; [vm_compute; discriminate|].
    split; [exact Hok | reflexivity].
  - destruct (update_blacklist_backoff Scenario.clock Scenario.show
                (Some Scenario.pilot) "image" Scenario.pilot_key _
                (Scenario.start (Scenario.one_entry 2 1002))
                eq_refl eq_refl) as [_ H].
    destruct (H _ 2 1002 eq_refl eq_refl eq_refl) as [_ Hwait].
    apply Hwait. reflexivity.
Defined.

(** C2. The blacklist test ([__is_blacklisted]): a key that is absent (its
    section is missing, or the section has no such key) is not
    blacklisted; a present key whose failure count exceeds the retry count
    is blacklisted whatever the clock and the next time are; a present key
    whose failure count does not exceed it is blacklisted exactly when the
    clock is before the next time. *)
Theorem is_blacklisted_spec :
  forall (clock : nat -> Z) (tmdb_retry_count : Z) si ei query_type st,
    let run := is_blacklisted clock tmdb_retry_count si ei query_type st in
    (dict_mem query_type (blacklist st) = false -> fst run = Ok false) /\
    (forall k sec,
       blacklist_key si ei query_type = Ok k ->
       dict_get query_type (blacklist st) = Some (VDict sec) ->
       (dict_get k sec = None -> fst run = Ok false) /\
       (forall entry failures,
          dict_get k sec = Some (VDict entry) ->
          dict_get "failures" entry = Some (VInt failures) ->
          (tmdb_retry_count < failures -> fst run = Ok true) /\
          (forall next,
             failures <= tmdb_retry_count ->
             dict_get "next" entry = Some (VDatetime next) ->
             fst run = Ok (Z.ltb (clock (ticks st)) next)))).
Proof.
  intros clock retry si ei query_type st run. subst run.
  unfold is_blacklisted. run_monad.
  split.
  - intros Hmiss. now rewrite Hmiss.
  - intros k sec Hkey Hsec. rewrite dict_mem_get, Hsec, Hkey. simpl.
    rewrite dict_mem_get. split.
    + intros Habs. now rewrite Habs.
    + intros entry failures Hent Hf. rewrite Hent. simpl. rewrite Hf. simpl.
      split.
      * intros Hover. destruct (Z.ltb_spec retry failures); [reflexivity|lia].
      * intros next Hle Hn.
        destruct (Z.ltb_spec retry failures); [lia|]. simpl.
        now rewrite Hn.
Qed.

Lemma is_blacklisted_spec_witness :
  fst (is_blacklisted Scenario.clock BLACKLIST_THRESHOLD Scenario.show
         (Some Scenario.pilot) "image" (Scenario.start [])) = Ok false /\
  fst (is_blacklisted Scenario.clock BLACKLIST_THRESHOLD Scenario.show
         (Some Scenario.pilot) "image" (Scenario.start EMPTY_BLACKLIST))
  = Ok false /\
  fst (is_blacklisted Scenario.clock BLACKLIST_THRESHOLD Scenario.show
         (Some Scenario.pilot) "image"
         (Scenario.start (Scenario.one_entry 4 0))) = Ok true /\
  fst (is_blacklisted Scenario.clock BLACKLIST_THRESHOLD Scenario.show
         (Some Scenario.pilot) "image"
         (Scenario.start (Scenario.one_entry 3 2000))) = Ok true /\
  fst (is_blacklisted Scenario.clock BLACKLIST_THRESHOLD Scenario.show
         (Some Scenario.pilot) "image"
         (Scenario.start (Scenario.one_entry 3 1000))) = Ok false.
Proof.
  split; [|split; [|split; [|split]]].
  - apply (is_blacklisted_spec Scenario.clock BLACKLIST_THRESHOLD
             Scenario.show (Some Scenario.pilot) "image" (Scenario.start [])).
    reflexivity.
  - eapply (is_blacklisted_spec Scenario.clock BLACKLIST_THRESHOLD
              Scenario.show (Some Scenario.pilot) "image"
              (Scenario.start EMPTY_BLACKLIST)); reflexivity.
  - eapply (is_blacklisted_spec Scenario.clock BLACKLIST_THRESHOLD
              Scenario.show (Some Scenario.pilot) "image"
              (Scenario.start (Scenario.one_entry 4 0)));
      try reflexivity.
  - change (Ok true) with (Ok (Z.ltb (Scenario.clock 0) 2000)).
    eapply (is_blacklisted_spec Scenario.clock BLACKLIST_THRESHOLD
              Scenario.show (Some Scenario.pilot) "image"
              (Scenario.start (Scenario.one_entry 3 2000)));
      try reflexivity; vm_compute; discriminate.
  - change (Ok false) with (Ok (Z.ltb (Scenario.clock 0) 1000)).
    eapply (is_blacklisted_spec Scenario.clock BLACKLIST_THRESHOLD
              Scenario.show (Some Scenario.pilot) "image"
              (Scenario.start (Scenario.one_entry 3 1000)));
      try reflexivity; vm_compute; discriminate.
Defined.

(* ================================================================== *)
(** ** The sections of the blacklist *)
(* ================================================================== *)

(** The blacklist of an interface object has its three sections: the empty
    blacklist has them, the repair pass makes them, and the recording of a
    failure keeps them. *)

Lemma EMPTY_BLACKLIST_has_sections : has_sections EMPTY_BLACKLIST.
Proof.
  intros query_type [<-|[<-|[<-|[]]]]; eexists; reflexivity.
Qed.

Lemma ensure_section_makes (bl : dict) (query_type : string) :
  exists sec, dict_get query_type (ensure_section bl query_type)
              = Some (VDict sec).
Proof.
  unfold ensure_section.
  destruct (dict_get query_type bl) as [[| | | | | | |d]|] eqn:E;
    try (exists []; apply dict_get_set_same).
  exists d. exact E.
Qed.

Lemma ensure_section_keeps (bl : dict) (query_type q : string) :
  (exists sec, dict_get q bl = Some (VDict sec)) ->
  exists sec, dict_get q (ensure_section bl query_type) = Some (VDict sec).
Proof.
  intros [sec Hq]. unfold ensure_section.
  destruct (String.eqb_spec query_type q) as [->|Hne].
  - rewrite Hq. now exists sec.
  - destruct (dict_get query_type bl) as [[| | | | | | |d]|];
      try (rewrite dict_get_set_other by exact Hne); now exists sec.
Qed.

Lemma ensure_sections_has_sections (bl : dict) :
  has_sections (fold_left ensure_section query_types bl).
Proof.
  intros query_type [<-|[<-|[<-|[]]]]; simpl.
  - do 2 apply ensure_section_keeps. apply ensure_section_makes.
  - apply ensure_section_keeps. apply ensure_section_makes.
  - apply ensure_section_makes.
Qed.

Lemma has_sections_set (bl : dict) (q : string) (sec : value) :
  has_sections bl ->
  (In q query_types -> exists d, sec = VDict d) ->
  has_sections (dict_set q sec bl).
Proof.
  intros Hbl Hsec query_type Hin.
  destruct (String.eqb_spec q query_type) as [->|Hne].
  - destruct (Hsec Hin) as [d ->]. exists d. apply dict_get_set_same.
  - rewrite dict_get_set_other by exact Hne. now apply Hbl.
Qed.

Section Sections.

Variable clock : nat -> Z.

Lemma fix_section_dict (d : dict) (st : state) (sec' : value) (st' : state) :
  fix_section clock (VDict d) st = (Ok sec', st') -> exists d', sec' = VDict d'.
Proof.
  unfold fix_section, bind, ret.
  destruct (fix_dict clock (map fst d) d st) as [[d'|e] st1];
    intros [= <- _]. now exists d'.
Qed.

Lemma fix_sections_has_sections (qts : list string) :
  forall bl st bl' st',
    has_sections bl ->
    fix_sections clock qts bl st = (Ok bl', st') ->
    has_sections bl'.
Proof.
  induction qts as [|qt qts IH]; intros bl st bl' st' Hbl; simpl.
  - unfold ret. now intros [= <- _].
  - destruct (dict_get qt bl) as [sec|] eqn:Hqt; [|discriminate].
    unfold bind.
    destruct (fix_section clock sec st) as [[sec'|e] st1] eqn:Hfix;
      [|discriminate].
    apply IH. apply has_sections_set; [exact Hbl|].
    intros Hin. destruct (Hbl qt Hin) as [d Hd].
    assert (sec = VDict d) by congruence. subst sec.
    now apply fix_section_dict in Hfix.
Qed.

(** What the repair pass returns has the three sections. *)
Lemma fix_blacklist_has_sections (loaded : value) (st : state) (bl : dict)
    (st' : state) :
  fix_blacklist clock loaded st = (Ok bl, st') -> has_sections bl.
Proof.
  unfold fix_blacklist.
  destruct loaded as [| | | | | | |d];
    try (intros [= <- _]; apply EMPTY_BLACKLIST_has_sections).
  apply fix_sections_has_sections. apply ensure_sections_has_sections.
Qed.

(** The recording of a failure keeps the three sections. *)
Lemma update_blacklist_has_sections si ei query_type (st : state) :
  has_sections (blacklist st) ->
  has_sections (blacklist (snd (update_blacklist clock si ei query_type st))).
Proof.
  intros Hbl. unfold update_blacklist. run_monad.
  destruct (blacklist_key si ei query_type) as [k|e]; simpl; [|exact Hbl].
  destruct (contains _ k) as [[|]|e]; simpl; try exact Hbl.
  - destruct (dict_get query_type (blacklist st)) as [sec|]; simpl;
      [|exact Hbl].
    destruct (getitem sec k) as [entry|e]; simpl; [|exact Hbl].
    destruct (getitem entry "next") as [next|e]; simpl; [|exact Hbl].
    destruct (datetime_ge _ next) as [[|]|e]; simpl; try exact Hbl.
    destruct (getitem entry "failures") as [failures|e]; simpl; [|exact Hbl].
    destruct (add_one failures) as [failures'|e]; simpl; [|exact Hbl].
    destruct (setitem entry "failures" failures') as [entry1|e]; simpl;
      [|exact Hbl].
    destruct (setitem entry1 "next" _) as [entry2|e]; simpl; [|exact Hbl].
    destruct (setitem sec k entry2) as [sec'|e] eqn:Hset; simpl;
      [|exact Hbl].
    apply has_sections_set; [exact Hbl|]. intros _.
    destruct sec; try discriminate. injection Hset as <-. now eexists.
  - destruct (dict_get query_type (blacklist st)) as [sec|]; simpl;
      [|exact Hbl].
    destruct (setitem sec k _) as [sec'|e] eqn:Hset; simpl; [|exact Hbl].
    apply has_sections_set; [exact Hbl|]. intros _.
    destruct sec; try discriminate. injection Hset as <-. now eexists.
Qed.

End Sections.

(* ================================================================== *)
(** ** The repair pass *)
(* ================================================================== *)

(** C4. The repair pass ([__fix_blacklist]) on a file whose image section
    holds an empty record for a key: the record is given a failure count
    and no next time, and both the blacklist test and the recording of a
    failure on that key then raise [KeyError]. *)
Theorem fix_blacklist_leaves_entry_without_next :
  fst (fix_blacklist Scenario.clock Scenario.empty_record_file
         (Scenario.start []))
  = Ok Scenario.empty_record_repaired /\
  (exists e,
     blacklist_entry Scenario.empty_record_repaired "image"
       Scenario.pilot_key = Some e /\
     failures_of e = Some (VInt 1) /\ next_of e = None) /\
  fst (is_blacklisted Scenario.clock BLACKLIST_THRESHOLD Scenario.show
         (Some Scenario.pilot) "image"
         (Scenario.start Scenario.empty_record_repaired))
  = Raise KeyError /\
  fst (update_blacklist Scenario.clock Scenario.show (Some Scenario.pilot)
         "image" (Scenario.start Scenario.empty_record_repaired))
  = Raise KeyError.
Proof.
  split; [reflexivity|]. split; [|split; reflexivity].
  eexists. split; [reflexivity|]. split; reflexivity.
Qed.

(* ================================================================== *)
(** ** The logo selection *)
(* ================================================================== *)

(** C3. The logo selection of [get_series_logo] on a JPEG logo followed by
    a smaller English PNG logo: the JPEG logo, which the filter skips, is
    the one returned, and its URL is the result of the query. *)
Theorem best_logo_returns_skipped_logo :
  best_logo [Scenario.jpg_logo; Scenario.png_logo] = Some Scenario.jpg_logo /\
  endswith (logo_file_path Scenario.jpg_logo) ".png" = false /\
  endswith (logo_file_path Scenario.jpg_logo) ".svg" = false /\
  fst (get_series_logo
         (Scenario.with_logos [Scenario.jpg_logo; Scenario.png_logo])
         Scenario.clock Scenario.overwrite BLACKLIST_THRESHOLD
         Scenario.resolved_show (Scenario.mapped EMPTY_BLACKLIST))
  = Ok (Scenario.resolved_show,
        Some "https://image.tmdb.org/t/p/original/a.jpg").
Proof.
  repeat split.
Qed.

(* ================================================================== *)
(** ** What leaves the blacklist alone *)
(* ================================================================== *)

Section Frame.

Variable P : provider.
Variable clock : nat -> Z.
Variable SeriesInfo_set_tmdb_id : option Z -> option Z -> option Z.
Variable matches : string -> string -> bool.
Variable tmdb_retry_count : Z.

Lemma keeps_ret {A} (a : A) : keeps_blacklist (ret a).
Proof. intros st. reflexivity. Qed.

Lemma keeps_raise {A} (e : exn) : keeps_blacklist (@raise A e).
Proof. intros st. reflexivity. Qed.

Lemma keeps_lift {A} (r : result A) : keeps_blacklist (lift r).
Proof. intros st. reflexivity. Qed.

Lemma keeps_now : keeps_blacklist (now clock).
Proof. intros st. reflexivity. Qed.

Lemma keeps_get {A} (r : request) (a : A) : keeps_blacklist (_get r a).
Proof. intros st. reflexivity. Qed.

Lemma keeps_get_blacklist : keeps_blacklist get_blacklist.
Proof. intros st. reflexivity. Qed.

Lemma keeps_get_id_map : keeps_blacklist get_id_map.
Proof. intros st. reflexivity. Qed.

Lemma keeps_add_id_to_map (si : SeriesInfo) :
  keeps_blacklist (add_id_to_map si).
Proof. intros st. reflexivity. Qed.

Lemma keeps_bind {A B} (c : M A) (k : A -> M B) :
  keeps_blacklist c -> (forall a, keeps_blacklist (k a)) ->
  keeps_blacklist (bind c k).
Proof.
  intros Hc Hk st. unfold bind. specialize (Hc st).
  destruct (c st) as [[a|e] st']; simpl in *.
  - now rewrite Hk.
  - exact Hc.
Qed.

(** One step of a frame proof: the outermost construct of the method. *)
Ltac keeps_step :=
  match goal with
  | |- keeps_blacklist (bind _ _) => apply keeps_bind; [|intros ?]
  | |- keeps_blacklist (ret _) => apply keeps_ret
  | |- keeps_blacklist (raise _) => apply keeps_raise
  | |- keeps_blacklist (lift _) => apply keeps_lift
  | |- keeps_blacklist (now _) => apply keeps_now
  | |- keeps_blacklist (_get _ _) => apply keeps_get
  | |- keeps_blacklist get_blacklist => apply keeps_get_blacklist
  | |- keeps_blacklist get_id_map => apply keeps_get_id_map
  | |- keeps_blacklist (add_id_to_map _) => apply keeps_add_id_to_map
  | |- keeps_blacklist (if ?b then _ else _) => destruct b
  | |- keeps_blacklist (match ?x with _ => _ end) => destruct x
  | |- keeps_blacklist (let _ := _ in _) => cbv zeta
  end.

Ltac keeps := repeat keeps_step.

Lemma keeps_is_blacklisted si ei query_type :
  keeps_blacklist (is_blacklisted clock tmdb_retry_count si ei query_type).
Proof. unfold is_blacklisted. keeps. Qed.

Lemma keeps_search_by_title si : keeps_blacklist (search_by_title P
                                   SeriesInfo_set_tmdb_id si).
Proof. unfold search_by_title. keeps. Qed.

Lemma keeps_match_by_tvdb_id si :
  keeps_blacklist (match_by_tvdb_id P SeriesInfo_set_tmdb_id si).
Proof.
  unfold match_by_tvdb_id.
  destruct (series_tvdb_id si); [|apply keeps_search_by_title].
  apply keeps_bind; [apply keeps_get|]. intros res.
  destruct res as [|id [|]]; try apply keeps_search_by_title. keeps.
Qed.

Lemma keeps_set_tmdb_id si :
  keeps_blacklist (set_tmdb_id P SeriesInfo_set_tmdb_id si).
Proof.
  unfold set_tmdb_id. apply keeps_bind; [apply keeps_get_id_map|].
  intros id_map.
  destruct (match series_tvdb_id si with
            | Some tv => map_get Z.eqb tv (snd id_map)
            | None => None
            end); [apply keeps_ret|].
  destruct (truthy_id _); [apply keeps_ret | apply keeps_match_by_tvdb_id].
Qed.

Lemma keeps_absolute_scan id abs seasons info :
  keeps_blacklist (absolute_scan P id abs seasons info).
Proof.
  revert info. induction seasons as [|s seasons IH]; intros info; simpl.
  - apply keeps_ret.
  - apply keeps_bind; [apply keeps_get|]. intros info'.
    destruct (ep_season_number info'); [apply keeps_ret | apply IH].
Qed.

Lemma keeps_season_scan id t seasons :
  keeps_blacklist (season_scan P matches id t seasons).
Proof.
  induction seasons as [|s seasons IH]; simpl.
  - apply keeps_ret.
  - apply keeps_bind; [apply keeps_get|]. intros tmdb_season.
    destruct (reports_not_found _); [apply keeps_ret|].
    destruct (sn_episodes tmdb_season); [|apply keeps_raise].
    destruct (first_match _ _ _); [apply keeps_ret | apply IH].
Qed.

Lemma keeps_query_index id ei : keeps_blacklist (query_index P id ei).
Proof.
  unfold query_index. apply keeps_bind; [apply keeps_get|]. intros info.
  destruct (abs_number ei); [|apply keeps_ret].
  destruct (reports_not_found _);
    [apply keeps_absolute_scan | apply keeps_ret].
Qed.

Lemma keeps_find_by_index si ei title_match :
  keeps_blacklist (find_by_index P matches si ei title_match).
Proof.
  unfold find_by_index. destruct (tmdb_id si); [|apply keeps_ret].
  apply keeps_bind; [apply keeps_query_index|]. intros info.
  destruct (ep_name info); [|apply keeps_season_scan].
  destruct (negb title_match); [keeps|].
  destruct (matches _ _); [keeps | apply keeps_season_scan].
Qed.

Lemma keeps_find_episode si ei title_match :
  keeps_blacklist
    (find_episode P SeriesInfo_set_tmdb_id matches si ei title_match).
Proof.
  unfold find_episode.
  destruct (tvdb_id ei).
  - apply keeps_bind; [apply keeps_get|]. intros res.
    destruct res; [|apply keeps_ret].
    apply keeps_bind; [apply keeps_find_by_index | intros; apply keeps_ret].
  - apply keeps_bind; [apply keeps_find_by_index | intros; apply keeps_ret].
Qed.

(** The blacklist after the first three steps of a query. *)
Lemma keeps_resolution si ei query_type title_match st blacklisted st1 si1
    st2 found st3 :
  is_blacklisted clock tmdb_retry_count si (Some ei) query_type st
  = (Ok blacklisted, st1) ->
  set_tmdb_id P SeriesInfo_set_tmdb_id si st1 = (Ok si1, st2) ->
  find_episode P SeriesInfo_set_tmdb_id matches si1 ei title_match st2
  = (Ok found, st3) ->
  blacklist st3 = blacklist st.
Proof.
  intros H1 H2 H3.
  pose proof (keeps_is_blacklisted si (Some ei) query_type st) as K1.
  pose proof (keeps_set_tmdb_id si st1) as K2.
  pose proof (keeps_find_episode si1 ei title_match st2) as K3.
  rewrite H1 in K1. rewrite H2 in K2. rewrite H3 in K3. simpl in *.
  congruence.
Qed.

End Frame.

(* ================================================================== *)
(** ** The image query *)
(* ================================================================== *)

(** C5, as stated, fails: the series is mapped, the episode is found and not
    blacklisted, the image answer has no [stills] field; the query returns
    [None] and no failure is recorded. *)
Lemma get_source_image_missing_stills_not_recorded :
  let st := Scenario.mapped EMPTY_BLACKLIST in
  let run := get_source_image (Scenario.knows_pilot "Pilot") Scenario.clock
               Scenario.overwrite Scenario.same_title BLACKLIST_THRESHOLD
               0 0 Scenario.show Scenario.pilot true st in
  fst (is_blacklisted Scenario.clock BLACKLIST_THRESHOLD Scenario.show
         (Some Scenario.pilot) "image" st) = Ok false /\
  stills (provider_episode_images (Scenario.knows_pilot "Pilot") (Some 77)
            1 1) = None /\
  trace (snd run) = [ReqEpisode 77 1 1; ReqEpisodeImages (Some 77) 1 1] /\
  fst run = Ok (Scenario.resolved_show, None) /\
  blacklist (snd run) = EMPTY_BLACKLIST /\
  blacklist_entry (blacklist (snd run)) "image" Scenario.pilot_key = None.
Proof.
  repeat split.
Qed.

(** C5, amended. When the entry is not blacklisted, the series and the
    episode are resolved, and the image answer has no [stills] field,
    [get_source_image] returns [None] after the image request and leaves
    the blacklist as it was before the call. *)
Theorem get_source_image_missing_stills :
  forall P clock SeriesInfo_set_tmdb_id matches tmdb_retry_count
         min_width min_height si ei title_match st st1 si1 st2 si2 i st3,
    is_blacklisted clock tmdb_retry_count si (Some ei) "image" st
    = (Ok false, st1) ->
    set_tmdb_id P SeriesInfo_set_tmdb_id si st1 = (Ok si1, st2) ->
    find_episode P SeriesInfo_set_tmdb_id matches si1 ei title_match st2
    = (Ok (si2, Some i), st3) ->
    stills (provider_episode_images P (tmdb_id si2) (idx_season i)
              (idx_episode i)) = None ->
    let st' := log [ReqEpisodeImages (tmdb_id si2) (idx_season i)
                      (idx_episode i)] st3 in
    get_source_image P clock SeriesInfo_set_tmdb_id matches tmdb_retry_count
      min_width min_height si ei title_match st
    = (Ok (si2, None), st') /\
    blacklist st' = blacklist st.
Proof.
  intros P clock set matches retry minw minh si ei tm st st1 si1 st2 si2 i
         st3 H1 H2 H3 Hstills st'.
  split.
  - unfold get_source_image, bind at 1. rewrite H1.
    unfold bind at 1. rewrite H2.
    unfold bind at 1. rewrite H3. simpl.
    unfold bind, _get. rewrite Hstills. reflexivity.
  - subst st'. simpl.
    eapply keeps_resolution; eassumption.
Qed.

Lemma get_source_image_missing_stills_witness :
  get_source_image (Scenario.knows_pilot "Pilot") Scenario.clock
    Scenario.overwrite Scenario.same_title BLACKLIST_THRESHOLD 0 0
    Scenario.show Scenario.pilot true (Scenario.mapped EMPTY_BLACKLIST)
  = (Ok (Scenario.resolved_show, None),
     {| blacklist := EMPTY_BLACKLIST;
        id_map_name := [("Show (2020)", Some 77)]; id_map_id := [];
        trace := [ReqEpisode 77 1 1; ReqEpisodeImages (Some 77) 1 1];
        ticks := 0 |}).
Proof.
  apply (get_source_image_missing_stills (Scenario.knows_pilot "Pilot")
           Scenario.clock Scenario.overwrite Scenario.same_title
           BLACKLIST_THRESHOLD 0 0 Scenario.show Scenario.pilot true
           (Scenario.mapped EMPTY_BLACKLIST) _ _ _ _
           {| idx_season := 1; idx_episode := 1 |} _
           eq_refl eq_refl eq_refl eq_refl).
Defined.

(* ================================================================== *)
(** ** The resolution of the series ID *)
(* ================================================================== *)

Lemma log_log (a b : list request) (st : state) :
  log b (log a st) = log (a ++ b)%list st.
Proof. unfold log. simpl. now rewrite app_assoc. Qed.

Lemma sent_nothing {A} (l r : list A) : l = (l ++ r)%list -> r = [].
Proof.
  intros H. symmetry. apply (app_inv_head l). now rewrite app_nil_r.
Qed.

Lemma sent_these {A} (l a r : list A) :
  (l ++ a)%list = (l ++ r)%list -> r = a.
Proof. intros H. symmetry. now apply (app_inv_head l). Qed.

(** The title and year search with no result: the series is returned as it
    was, and only the trace grows. *)
Lemma search_by_title_no_result P set si st :
  total_results (provider_search P (name si) (year si)) = 0 ->
  search_by_title P set si st = (Ok si, log [ReqSearch (name si) (year si)] st).
Proof.
  intros H0. unfold search_by_title, bind, _get. now rewrite H0.
Qed.

(** C8. The resolution of the series ID ([__set_tmdb_id]) leaves the
    blacklist as it was, whatever its outcome. When the call sent the title
    and year search and the search had no result, the series and the
    identifier map are unchanged as well, and a second call on the same
    series sends the same requests, the search among them, again. *)
Theorem set_tmdb_id_never_blacklists :
  forall P SeriesInfo_set_tmdb_id si st,
    let run := set_tmdb_id P SeriesInfo_set_tmdb_id si st in
    blacklist (snd run) = blacklist st /\
    (forall reqs,
       trace (snd run) = (trace st ++ reqs)%list ->
       In (ReqSearch (name si) (year si)) reqs ->
       total_results (provider_search P (name si) (year si)) = 0 ->
       run = (Ok si, log reqs st) /\
       set_tmdb_id P SeriesInfo_set_tmdb_id si (snd run)
       = (Ok si, log reqs (snd run)) /\
       blacklist (log reqs (snd run)) = blacklist st).
Proof.
  intros P set si st run. split; [apply keeps_set_tmdb_id|].
  intros reqs Htrace Hin H0. subst run. revert Htrace.
  unfold set_tmdb_id, bind, get_id_map. simpl.
  destruct (match series_tvdb_id si with
            | Some tv => map_get Z.eqb tv (id_map_id st)
            | None => None
            end) eqn:Hid; simpl.
  { intros Htrace. apply sent_nothing in Htrace. subst reqs. destruct Hin. }
  destruct (truthy_id (map_get String.eqb (full_name si) (id_map_name st)))
    eqn:Hname; simpl.
  { intros Htrace. apply sent_nothing in Htrace. subst reqs. destruct Hin. }
  unfold match_by_tvdb_id.
  destruct (series_tvdb_id si) as [tv|] eqn:Htv.
  - unfold bind, _get.
    destruct (tv_results (provider_find P tv)) as [|id [|id' rest]] eqn:Hres.
    + rewrite !search_by_title_no_result by exact H0. simpl.
      rewrite <- app_assoc. intros Htrace. apply sent_these in Htrace.
      subst reqs. rewrite Hid, Hname.
      rewrite !search_by_title_no_result by exact H0.
      rewrite !log_log. repeat split.
    + simpl. intros Htrace. apply sent_these in Htrace. subst reqs.
      destruct Hin as [Hin|[]]. discriminate Hin.
    + rewrite !search_by_title_no_result by exact H0. simpl.
      rewrite <- app_assoc. intros Htrace. apply sent_these in Htrace.
      subst reqs. rewrite Hid, Hname.
      rewrite !search_by_title_no_result by exact H0.
      rewrite !log_log. repeat split.
  - rewrite !search_by_title_no_result by exact H0. simpl.
    intros Htrace. apply sent_these in Htrace. subst reqs.
    rewrite Hname. rewrite !search_by_title_no_result by exact H0.
    rewrite !log_log. repeat split.
Qed.

Lemma set_tmdb_id_never_blacklists_witness :
  let st := Scenario.start (Scenario.one_entry 2 1001) in
  let run := set_tmdb_id Scenario.nothing Scenario.overwrite Scenario.show
               st in
  run = (Ok Scenario.show, log [ReqSearch "Show" 2020] st) /\
  set_tmdb_id Scenario.nothing Scenario.overwrite Scenario.show (snd run)
  = (Ok Scenario.show, log [ReqSearch "Show" 2020] (snd run)) /\
  blacklist (log [ReqSearch "Show" 2020] (snd run))
  = Scenario.one_entry 2 1001.
Proof.
  apply (set_tmdb_id_never_blacklists Scenario.nothing Scenario.overwrite
           Scenario.show (Scenario.start (Scenario.one_entry 2 1001))).
  - reflexivity.
  - left. reflexivity.
  - reflexivity.
Defined.

(* ================================================================== *)
(** ** The episode matcher *)
(* ================================================================== *)

Lemma log_nil (st : state) : log [] st = st.
Proof. destruct st. unfold log. simpl. now rewrite app_nil_r. Qed.

Lemma length_seasons_upto (n : Z) :
  List.length (seasons_upto n) = Z.to_nat (n + 1).
Proof. unfold seasons_upto. now rewrite length_map, length_seq. Qed.

(** [range(0, n+1)] is 0, 1, ..., n. *)
Lemma seasons_upto_nth (n i : Z) :
  0 <= i <= n -> nth_error (seasons_upto n) (Z.to_nat i) = Some i.
Proof.
  intros Hi. unfold seasons_upto.
  rewrite nth_error_map, nth_error_seq.
  destruct (Nat.ltb_spec (Z.to_nat i) (Z.to_nat (n + 1))); [|lia].
  simpl. f_equal. lia.
Qed.

(** [range(0, n+1)[::-1]] is n, n-1, ..., 0. *)
Lemma seasons_downfrom_nth (n i : Z) :
  0 <= i <= n -> nth_error (rev (seasons_upto n)) (Z.to_nat i) = Some (n - i).
Proof.
  intros Hi. rewrite nth_error_rev, length_seasons_upto.
  destruct (Nat.ltb_spec (Z.to_nat i) (Z.to_nat (n + 1))); [|lia].
  replace (Z.to_nat (n + 1) - S (Z.to_nat i))%nat with (Z.to_nat (n - i))
    by lia.
  apply seasons_upto_nth. lia.
Qed.

Section Matcher.

Variable P : provider.
Variable matches : string -> string -> bool.

(** The first match in a list of episodes. *)
Lemma first_match_found t l1 e l2 :
  forallb (fun x => negb (matches t (se_name x))) l1 = true ->
  matches t (se_name e) = true ->
  first_match matches t (l1 ++ e :: l2)%list
  = Some {| idx_season := se_season_number e;
            idx_episode := se_episode_number e |}.
Proof.
  intros Hl1 He. induction l1 as [|x l1 IH]; simpl in *.
  - now rewrite He.
  - apply andb_prop in Hl1 as [Hx Hl1].
    apply negb_true_iff in Hx. rewrite Hx. now apply IH.
Qed.

(** Seasons after which the scan goes on are fetched and passed. *)
Lemma season_scan_app id t before rest st :
  forallb (scan_goes_on P matches id t) before = true ->
  season_scan P matches id t (before ++ rest)%list st
  = season_scan P matches id t rest (log (map (ReqSeason id) before) st).
Proof.
  revert st. induction before as [|s before IH]; intros st Hb; simpl in *.
  - now rewrite log_nil.
  - apply andb_prop in Hb as [Hs Hb]. unfold scan_goes_on in Hs.
    apply andb_prop in Hs as [Hfound Heps].
    apply negb_true_iff in Hfound.
    unfold bind, _get. rewrite Hfound.
    destruct (sn_episodes (provider_season P id s)); [|discriminate].
    destruct (first_match matches t l); [discriminate|].
    rewrite IH by exact Hb. now rewrite log_log.
Qed.

(** The requests of the scan are the seasons of a prefix, in order. *)
Lemma season_scan_prefix id t seasons st :
  exists k,
    trace (snd (season_scan P matches id t seasons st))
    = (trace st ++ map (ReqSeason id) (firstn k seasons))%list.
Proof.
  revert st. induction seasons as [|s seasons IH]; intros st; simpl.
  - exists 0%nat. simpl. now rewrite app_nil_r.
  - unfold bind, _get.
    destruct (reports_not_found _).
    { exists 1%nat. reflexivity. }
    destruct (sn_episodes _) as [episodes|].
    2:{ exists 1%nat. reflexivity. }
    destruct (first_match _ _ _).
    { exists 1%nat. reflexivity. }
    destruct (IH (log [ReqSeason id s] st)) as [k Hk].
    exists (S k). rewrite Hk. simpl. now rewrite <- app_assoc.
Qed.

(** The season scan: the seasons are 0, 1, ... up to [n] and are requested
    in that order; at a season whose answer reports not found the result is
    [None] and no later season is requested; at a season that is found,
    the first episode of it whose name matches the title is returned. *)
Lemma season_scan_spec :
  forall id t n st,
    let scan := season_scan P matches id t (seasons_upto n) st in
    (forall i, 0 <= i <= n ->
       nth_error (seasons_upto n) (Z.to_nat i) = Some i) /\
    List.length (seasons_upto n) = Z.to_nat (n + 1) /\
    (exists k,
       trace (snd scan)
       = (trace st ++ map (ReqSeason id) (firstn k (seasons_upto n)))%list) /\
    (forall before s after,
       seasons_upto n = (before ++ s :: after)%list ->
       forallb (scan_goes_on P matches id t) before = true ->
       (reports_not_found (sn_success (provider_season P id s)) = true ->
        scan = (Ok None, log (map (ReqSeason id) (before ++ [s])) st)) /\
       (forall l1 e l2,
          reports_not_found (sn_success (provider_season P id s)) = false ->
          sn_episodes (provider_season P id s) = Some (l1 ++ e :: l2)%list ->
          forallb (fun x => negb (matches t (se_name x))) l1 = true ->
          matches t (se_name e) = true ->
          scan = (Ok (Some {| idx_season := se_season_number e;
                              idx_episode := se_episode_number e |}),
                  log (map (ReqSeason id) (before ++ [s])) st))).
Proof.
  intros id t n st scan.
  split; [intros i Hi; now apply seasons_upto_nth|].
  split; [apply length_seasons_upto|].
  split; [apply season_scan_prefix|].
  intros before s after Hsplit Hbefore. subst scan. rewrite Hsplit.
  rewrite season_scan_app by exact Hbefore.
  rewrite map_app, <- log_log. simpl. unfold bind, _get.
  split.
  - intros Hnf. now rewrite Hnf.
  - intros l1 e l2 Hf Heps Hl1 He. rewrite Hf, Heps.
    now rewrite first_match_found.
Qed.

Lemma last_cons {A} (l : list A) (a d : A) : last (a :: l) d = last l a.
Proof.
  revert a d. induction l as [|b l IH]; intros a d; [reflexivity|].
  change (last (a :: b :: l) d) with (last (b :: l) d).
  now rewrite (IH b d), (IH b a).
Qed.

(** Seasons on which the absolute-number query yields nothing are queried
    and passed; the last answer is kept. *)
Lemma absolute_scan_app id abs before rest info st :
  forallb (yields_nothing P id abs) before = true ->
  absolute_scan P id abs (before ++ rest)%list info st
  = absolute_scan P id abs rest
      (last (map (fun s => provider_episode P id s abs) before) info)
      (log (map (fun s => ReqEpisode id s abs) before) st).
Proof.
  revert info st.
  induction before as [|s before IH]; intros info st Hb.
  - simpl. now rewrite log_nil.
  - apply andb_prop in Hb as [Hs Hb]. unfold yields_nothing in Hs.
    change ((s :: before) ++ rest)%list with (s :: (before ++ rest))%list.
    cbn [absolute_scan]. unfold bind, _get.
    destruct (ep_season_number (provider_episode P id s abs)) eqn:E;
      [discriminate|].
    rewrite IH by exact Hb. rewrite log_log.
    f_equal. cbn [map]. symmetry. apply last_cons.
Qed.

(** The direct query and its absolute-number fallback: the fallback runs
    only when the direct answer reports not found and the episode has an
    absolute number; it queries the seasons from the season number of the
    episode down to 0 with the absolute number as episode, and stops at the
    first season whose answer has a season number; when no season yields
    one, the last answer is kept. *)
Lemma query_index_spec :
  forall id ei st,
    let direct := provider_episode P id (season ei) (episode ei) in
    let first := ReqEpisode id (season ei) (episode ei) in
    let seasons := rev (seasons_upto (season_number ei)) in
    let run := query_index P id ei st in
    (forall i, 0 <= i <= season_number ei ->
       nth_error seasons (Z.to_nat i) = Some (season_number ei - i)) /\
    (reports_not_found (ep_success direct) = false \/ abs_number ei = None ->
     run = (Ok direct, log [first] st)) /\
    (forall abs,
       reports_not_found (ep_success direct) = true ->
       abs_number ei = Some abs ->
       (forall before s after,
          seasons = (before ++ s :: after)%list ->
          forallb (yields_nothing P id abs) before = true ->
          yields_nothing P id abs s = false ->
          run = (Ok (provider_episode P id s abs),
                 log (first :: map (fun s => ReqEpisode id s abs)
                                 (before ++ [s])) st)) /\
       (forallb (yields_nothing P id abs) seasons = true ->
        run = (Ok (last (map (fun s => provider_episode P id s abs) seasons)
                     direct),
               log (first :: map (fun s => ReqEpisode id s abs) seasons)
                 st))).
Proof.
  intros id ei st direct first seasons run.
  split; [intros i Hi; now apply seasons_downfrom_nth|].
  subst run. unfold query_index, bind, _get. fold direct first seasons.
  split.
  - intros [Hfound|Habs].
    + rewrite Hfound. now destruct (abs_number ei).
    + now rewrite Habs.
  - intros abs Hnf Habs. rewrite Habs, Hnf. split.
    + intros before s after Hsplit Hbefore Hs. rewrite Hsplit.
      rewrite absolute_scan_app by exact Hbefore.
      rewrite log_log. cbn [absolute_scan]. unfold bind, _get.
      unfold yields_nothing in Hs.
      destruct (ep_season_number (provider_episode P id s abs));
        [|discriminate].
      rewrite log_log. unfold ret. f_equal. f_equal.
      change (first :: map (fun s0 => ReqEpisode id s0 abs) (before ++ [s]))
        with ([first] ++ map (fun s0 => ReqEpisode id s0 abs)
                            (before ++ [s]))%list.
      now rewrite map_app, app_assoc.
    + intros Hall.
      rewrite <- (app_nil_r seasons) at 1.
      rewrite absolute_scan_app by exact Hall.
      rewrite log_log. reflexivity.
Qed.

End Matcher.

(** After a lookup by the TVDb ID of the episode that gives nothing, the
    matcher goes on by the index. *)
Lemma find_episode_by_index P set matches si ei title_match st :
  lookup_fails P ei ->
  find_episode P set matches si ei title_match st
  = bind (find_by_index P matches si ei title_match)
      (fun i => ret (si, i)) (after_lookup ei st).
Proof.
  unfold lookup_fails, after_lookup, find_episode.
  destruct (tvdb_id ei) as [tv|]; [|reflexivity].
  intros H. unfold bind at 1, _get. now rewrite H.
Qed.

(** After the direct query and its fallback: the index of a confirming
    answer, the season scan otherwise. *)
Lemma find_by_index_after_query P matches si ei title_match id st info st1 :
  tmdb_id si = Some id ->
  query_index P id ei st = (Ok info, st1) ->
  find_by_index P matches si ei title_match st
  = if confirms matches ei title_match info
    then bind (lift (index_of info)) (fun i => ret (Some i)) st1
    else season_scan P matches id (title ei)
           (seasons_upto (season_number ei)) st1.
Proof.
  intros Hid Hq. unfold find_by_index, confirms. rewrite Hid.
  unfold bind at 1. rewrite Hq.
  destruct (ep_name info); [|reflexivity].
  destruct (negb title_match); simpl; [reflexivity|].
  destruct (matches _ _); reflexivity.
Qed.

(** When the answer does not confirm the episode, the matcher returns what
    the season scan returns. *)
Lemma find_episode_scans P set matches si ei title_match id st info st1 :
  lookup_fails P ei ->
  tmdb_id si = Some id ->
  query_index P id ei (after_lookup ei st) = (Ok info, st1) ->
  confirms matches ei title_match info = false ->
  (forall i st',
     season_scan P matches id (title ei) (seasons_upto (season_number ei))
       st1 = (Ok i, st') ->
     find_episode P set matches si ei title_match st = (Ok (si, i), st')) /\
  snd (find_episode P set matches si ei title_match st)
  = snd (season_scan P matches id (title ei)
           (seasons_upto (season_number ei)) st1).
Proof.
  intros Hlookup Hid Hq Hconf.
  rewrite (find_episode_by_index _ _ _ _ _ _ _ Hlookup). unfold bind at 1 2.
  rewrite (find_by_index_after_query _ _ _ _ _ _ _ _ _ Hid Hq), Hconf.
  split.
  - intros i st' Hscan. now rewrite Hscan.
  - now destruct (season_scan P matches id (title ei) _ st1) as [[i|e] st'].
Qed.

Lemma find_episode_goes_on P set matches si ei title_match id st info reqs :
  lookup_fails P ei ->
  tmdb_id si = Some id ->
  query_index P id ei (after_lookup ei st)
  = (Ok info, log reqs (after_lookup ei st)) ->
  goes_on_with P set matches si ei title_match id st info reqs.
Proof.
  intros Hlookup Hid Hq. unfold goes_on_with. cbv zeta.
  destruct (confirms matches ei title_match info) eqn:Hconf.
  - assert (Hrun : forall r,
               index_of info = r ->
               find_episode P set matches si ei title_match st
               = (match r with
                  | Ok i => Ok (si, Some i)
                  | Raise e => Raise e
                  end, log reqs (after_lookup ei st))).
    { intros r Hr.
      rewrite (find_episode_by_index _ _ _ _ _ _ _ Hlookup).
      unfold bind at 1.
      rewrite (find_by_index_after_query _ _ _ _ _ _ _ _ _ Hid Hq), Hconf.
      unfold bind, lift, ret. rewrite Hr. now destruct r. }
    split.
    + exists 0%nat. rewrite (Hrun _ eq_refl). simpl.
      now rewrite app_nil_r.
    + intros i _ Hi. now rewrite (Hrun _ Hi).
  - destruct (find_episode_scans P set matches si ei title_match id st info
                _ Hlookup Hid Hq Hconf) as [_ Hsnd].
    split; [|discriminate].
    rewrite Hsnd.
    destruct (season_scan_prefix P matches id (title ei)
                (seasons_upto (season_number ei))
                (log reqs (after_lookup ei st))) as [k Hk].
    exists k. rewrite Hk. simpl. now rewrite <- app_assoc.
Qed.

(** C6. The season scan of [__find_episode], for an episode whose lookup by
    TVDb ID gives nothing, of a series with a TMDb ID, when the answer to
    the episode query does not confirm the episode: the seasons scanned
    are 0, 1, ... up to the season number of the episode, and they are
    requested in that order after the episode query; when the scan reaches
    a season whose answer reports not found, [__find_episode] returns
    [None] and no later season is requested; when it reaches a season that
    is found, the first episode of it whose name matches the title is the
    result; when every season is found and none has a match, the result is
    [None]. *)
Theorem find_episode_season_scan :
  forall P SeriesInfo_set_tmdb_id matches si ei title_match id st info st1,
    lookup_fails P ei ->
    tmdb_id si = Some id ->
    query_index P id ei (after_lookup ei st) = (Ok info, st1) ->
    confirms matches ei title_match info = false ->
    let n := season_number ei in
    let t := title ei in
    let run := find_episode P SeriesInfo_set_tmdb_id matches si ei
                 title_match st in
    (forall i, 0 <= i <= n ->
       nth_error (seasons_upto n) (Z.to_nat i) = Some i) /\
    List.length (seasons_upto n) = Z.to_nat (n + 1) /\
    (exists k,
       trace (snd run)
       = (trace st1 ++ map (ReqSeason id) (firstn k (seasons_upto n)))%list) /\
    (forall before s after,
       seasons_upto n = (before ++ s :: after)%list ->
       forallb (scan_goes_on P matches id t) before = true ->
       (reports_not_found (sn_success (provider_season P id s)) = true ->
        run = (Ok (si, None), log (map (ReqSeason id) (before ++ [s])) st1)) /\
       (forall l1 e l2,
          reports_not_found (sn_success (provider_season P id s)) = false ->
          sn_episodes (provider_season P id s) = Some (l1 ++ e :: l2)%list ->
          forallb (fun x => negb (matches t (se_name x))) l1 = true ->
          matches t (se_name e) = true ->
          run = (Ok (si, Some {| idx_season := se_season_number e;
                                 idx_episode := se_episode_number e |}),
                 log (map (ReqSeason id) (before ++ [s])) st1))) /\
    (forallb (scan_goes_on P matches id t) (seasons_upto n) = true ->
     run = (Ok (si, None), log (map (ReqSeason id) (seasons_upto n)) st1)).
Proof.
  intros P set matches si ei title_match id st info st1 Hlookup Hid Hq Hconf
         n t run.
  destruct (find_episode_scans P set matches si ei title_match id st info
              st1 Hlookup Hid Hq Hconf) as [Hresult Hsnd].
  fold n t in Hresult, Hsnd. fold run in Hsnd.
  destruct (season_scan_spec P matches id t n st1)
    as (Hnth & Hlen & Hprefix & Hcases).
  split; [exact Hnth|]. split; [exact Hlen|]. split.
  { rewrite Hsnd. exact Hprefix. }
  split.
  - intros before s after Hsplit Hbefore.
    destruct (Hcases before s after Hsplit Hbefore) as [Hmissing Hmatch].
    split.
    + intros Hnf. apply Hresult. now apply Hmissing.
    + intros l1 e l2 Hfound Heps Hl1 He. apply Hresult.
      now apply (Hmatch l1 e l2).
  - intros Hall. apply Hresult.
    rewrite <- (app_nil_r (seasons_upto n)) at 1.
    now rewrite season_scan_app.
Qed.

Lemma find_episode_season_scan_witness :
  let asked := log [ReqEpisode 77 2 5] (Scenario.start []) in
  find_episode (Scenario.with_seasons Scenario.gap_at_one)
    Scenario.overwrite Scenario.same_title Scenario.resolved_show
    Tiers.closing true (Scenario.start [])
  = (Ok (Scenario.resolved_show, None),
     log [ReqSeason 77 0; ReqSeason 77 1] asked) /\
  find_episode (Scenario.with_seasons Scenario.no_gap)
    Scenario.overwrite Scenario.same_title Scenario.resolved_show
    Tiers.closing true (Scenario.start [])
  = (Ok (Scenario.resolved_show,
         Some {| idx_season := 1; idx_episode := 2 |}),
     log [ReqSeason 77 0; ReqSeason 77 1] asked).
Proof.
  split.
  - destruct (find_episode_season_scan
                (Scenario.with_seasons Scenario.gap_at_one)
                Scenario.overwrite Scenario.same_title
                Scenario.resolved_show Tiers.closing true 77
                (Scenario.start []) Scenario.not_found _
                I eq_refl eq_refl eq_refl)
      as (_ & _ & _ & H & _).
    destruct (H [0] 1 [2] eq_refl eq_refl) as [Hnf _].
    exact (Hnf eq_refl).
  - destruct (find_episode_season_scan
                (Scenario.with_seasons Scenario.no_gap)
                Scenario.overwrite Scenario.same_title
                Scenario.resolved_show Tiers.closing true 77
                (Scenario.start []) Scenario.not_found _
                I eq_refl eq_refl eq_refl)
      as (_ & _ & _ & H & _).
    destruct (H [0] 1 [2] eq_refl eq_refl) as [_ Hm].
    exact (Hm [Scenario.season_episode_of "Opening" 1 1]
              (Scenario.season_episode_of "Finale" 1 2)
              [Scenario.season_episode_of "Finale" 1 3]
              eq_refl eq_refl eq_refl eq_refl).
Defined.

(** C7. The episode query of [__find_episode] and its absolute-number
    fallback, for an episode whose lookup by TVDb ID gives nothing, of a
    series with a TMDb ID. When the answer to the query by season and
    episode does not report not found, or the episode has no absolute
    number, [__find_episode] goes on with that answer and has sent that
    query only. Otherwise it queries the seasons from the season number of
    the episode down to 0, with the absolute number as episode, and goes on
    with the answer of the first season that has a season number, having
    queried no season after it; when no season has one, it goes on with
    the last answer. To go on with an answer is to return its index when
    it confirms the episode, and to send after it only requests of the
    season scan. *)
Theorem find_episode_absolute_fallback :
  forall P SeriesInfo_set_tmdb_id matches si ei title_match id st,
    lookup_fails P ei ->
    tmdb_id si = Some id ->
    let direct := provider_episode P id (season ei) (episode ei) in
    let first := ReqEpisode id (season ei) (episode ei) in
    let seasons := rev (seasons_upto (season_number ei)) in
    let goes_on := goes_on_with P SeriesInfo_set_tmdb_id matches si ei
                     title_match id st in
    (forall i, 0 <= i <= season_number ei ->
       nth_error seasons (Z.to_nat i) = Some (season_number ei - i)) /\
    (reports_not_found (ep_success direct) = false \/ abs_number ei = None ->
     goes_on direct [first]) /\
    (forall abs,
       reports_not_found (ep_success direct) = true ->
       abs_number ei = Some abs ->
       (forall before s after,
          seasons = (before ++ s :: after)%list ->
          forallb (yields_nothing P id abs) before = true ->
          yields_nothing P id abs s = false ->
          goes_on (provider_episode P id s abs)
            (first :: map (fun s => ReqEpisode id s abs) (before ++ [s]))) /\
       (forallb (yields_nothing P id abs) seasons = true ->
        goes_on
          (last (map (fun s => provider_episode P id s abs) seasons) direct)
          (first :: map (fun s => ReqEpisode id s abs) seasons))).
Proof.
  intros P set matches si ei title_match id st Hlookup Hid direct first
         seasons goes_on.
  destruct (query_index_spec P id ei (after_lookup ei st))
    as (Hnth & Hdirect & Hfallback).
  fold direct first seasons in Hnth, Hdirect, Hfallback.
  split; [exact Hnth|]. split.
  - intros Hcase. apply find_episode_goes_on; [assumption..|].
    now apply Hdirect.
  - intros abs Hnf Habs. destruct (Hfallback abs Hnf Habs) as [Hstop Hall].
    split.
    + intros before s after Hsplit Hbefore Hs.
      apply find_episode_goes_on; [assumption..|].
      now apply (Hstop before s after).
    + intros Hnone. apply find_episode_goes_on; [assumption..|].
      now apply Hall.
Qed.

Lemma find_episode_absolute_fallback_witness :
  find_episode (Scenario.with_episodes Scenario.absolute_only)
    Scenario.overwrite Scenario.same_title Scenario.resolved_show
    Scenario.finale true (Scenario.start [])
  = (Ok (Scenario.resolved_show,
         Some {| idx_season := 1; idx_episode := 17 |}),
     log [ReqEpisode 77 2 5; ReqEpisode 77 2 17; ReqEpisode 77 1 17]
       (Scenario.start [])) /\
  find_episode (Scenario.knows_pilot "Pilot") Scenario.overwrite
    Scenario.same_title Scenario.resolved_show Scenario.pilot true
    (Scenario.start [])
  = (Ok (Scenario.resolved_show,
         Some {| idx_season := 1; idx_episode := 1 |}),
     log [ReqEpisode 77 1 1] (Scenario.start [])).
Proof.
  split.
  - destruct (find_episode_absolute_fallback
                (Scenario.with_episodes Scenario.absolute_only)
                Scenario.overwrite Scenario.same_title
                Scenario.resolved_show Scenario.finale true 77
                (Scenario.start []) I eq_refl) as (_ & _ & H).
    destruct (H 17 eq_refl eq_refl) as [Hstop _].
    destruct (Hstop [2] 1 [0] eq_refl eq_refl eq_refl) as [_ Hindex].
    exact (Hindex {| idx_season := 1; idx_episode := 17 |}
             eq_refl eq_refl).
  - destruct (find_episode_absolute_fallback
                (Scenario.knows_pilot "Pilot")
                Scenario.overwrite Scenario.same_title
                Scenario.resolved_show Scenario.pilot true 77
                (Scenario.start []) I eq_refl) as (_ & Honly & _).
    destruct (Honly (or_intror eq_refl)) as [_ Hindex].
    exact (Hindex {| idx_season := 1; idx_episode := 1 |}
             eq_refl eq_refl).
Defined.

(* ================================================================== *)
(** ** The image selection *)
(* ================================================================== *)

Section Selection.

Variable min_width min_height : Z.

(** A position of [pre ++ [img]] is a position of [pre] or the last one. *)
Lemma nth_error_snoc {A} (pre : list A) (x c : A) (j : nat) :
  nth_error (pre ++ [x]) j = Some c ->
  (nth_error pre j = Some c /\ (j < List.length pre)%nat) \/
  (j = List.length pre /\ c = x).
Proof.
  intros H. destruct (Nat.lt_ge_cases j (List.length pre)) as [Hlt|Hge].
  - left. rewrite nth_error_app1 in H by exact Hlt. now split.
  - right. rewrite nth_error_app2 in H by exact Hge.
    destruct (j - List.length pre)%nat as [|k] eqn:E; simpl in H.
    + split; [lia | congruence].
    + now destruct k.
Qed.

Lemma nth_error_snoc_last {A} (pre : list A) (x : A) :
  nth_error (pre ++ [x]) (List.length pre) = Some x.
Proof.
  rewrite nth_error_app2 by lia. now rewrite Nat.sub_diag.
Qed.

(** One turn of the loop keeps the invariant. *)
Lemma loop_invariant_step pre img best valid_image :
  (meets min_width min_height img = true -> 0 < pixels img) ->
  loop_invariant min_width min_height pre best valid_image ->
  let next := best_image_loop min_width min_height (List.length pre) [img]
                best valid_image in
  loop_invariant min_width min_height (pre ++ [img]) (fst next) (snd next).
Proof.
  intros Hpos Hinv. simpl. fold (meets min_width min_height img).
  destruct (meets min_width min_height img) eqn:Hpass; simpl.
  - (* the candidate meets min_width min_height *)
    specialize (Hpos eq_refl). fold (pixels img) (score img).
    destruct valid_image; simpl in Hinv.
    + destruct Hinv as (r & Hr & Hmeets & Hpix & Hscore & Hall).
      assert (Hlt : (best_index best < List.length pre)%nat).
      { apply nth_error_Some. congruence. }
      destruct (Z.ltb_spec (best_pixels best) (pixels img)) as [Hbig|Hsmall].
      * exists img. repeat split; simpl; try apply nth_error_snoc_last;
          try assumption.
        -- apply nth_error_snoc in H as [[Hc _]|[_ ->]].
           ++ destruct (Hall j c Hc H0) as [[Hl|[He _]] _]; left; lia.
           ++ right. lia.
        -- intros Hj. apply nth_error_snoc in H as [[Hc _]|[-> _]]; [|lia].
           destruct (Hall j c Hc H0) as [[Hl|[He _]] _]; left; lia.
      * destruct (Z.eqb_spec (pixels img) (best_pixels best)) as [Heq|Hne].
        -- destruct (Z.ltb_spec (best_score best) (score img)) as [Hs|Hs].
           ++ exists img. repeat split; simpl;
                try apply nth_error_snoc_last; try assumption.
              ** apply nth_error_snoc in H as [[Hc _]|[_ ->]].
                 --- destruct (Hall j c Hc H0) as [[Hl|[He Hsc]] _];
                       [left|right]; lia.
                 --- right. lia.
              ** intros Hj.
                 apply nth_error_snoc in H as [[Hc _]|[-> _]]; [|lia].
                 destruct (Hall j c Hc H0) as [[Hl|[He Hsc]] _];
                   [left|right]; lia.
           ++ exists r. repeat split; try assumption.
              ** now rewrite nth_error_app1.
              ** apply nth_error_snoc in H as [[Hc _]|[_ ->]].
                 --- now apply (Hall j c).
                 --- right. lia.
              ** intros Hj.
                 apply nth_error_snoc in H as [[Hc _]|[-> _]]; [|lia].
                 now apply (Hall j c).
        -- exists r. repeat split; try assumption.
           ++ now rewrite nth_error_app1.
           ++ apply nth_error_snoc in H as [[Hc _]|[_ ->]].
              ** now apply (Hall j c).
              ** left. lia.
           ++ intros Hj.
              apply nth_error_snoc in H as [[Hc _]|[-> _]]; [|lia].
              now apply (Hall j c).
    + destruct Hinv as [Hzero Hnone]. rewrite Hzero.
      destruct (Z.ltb_spec 0 (pixels img)) as [_|]; [|lia].
      assert (Hlast : forall j c,
                 nth_error (pre ++ [img]) j = Some c -> meets min_width min_height c = true ->
                 j = List.length pre /\ c = img).
      { intros j c Hc Hm. apply nth_error_snoc in Hc as [[Hc _]|Hc].
        - apply nth_error_In in Hc. rewrite (Hnone c Hc) in Hm.
          discriminate.
        - exact Hc. }
      exists img. repeat split; simpl; try apply nth_error_snoc_last;
        try assumption.
      * destruct (Hlast j c H H0) as [_ ->]. right. lia.
      * intros Hj. destruct (Hlast j c H H0) as [-> _]. lia.
  - (* the candidate is skipped *)
    destruct valid_image; simpl in *.
    + destruct Hinv as (r & Hr & Hmeets & Hpix & Hscore & Hall).
      assert (Hlt : (best_index best < List.length pre)%nat).
      { apply nth_error_Some. congruence. }
      exists r. repeat split; try assumption.
      * now rewrite nth_error_app1.
      * apply nth_error_snoc in H as [[Hc _]|[_ ->]]; [|congruence].
        now apply (Hall j c).
      * intros Hj. apply nth_error_snoc in H as [[Hc _]|[_ ->]];
          [|congruence].
        now apply (Hall j c).
    + destruct Hinv as [Hzero Hnone]. split; [exact Hzero|].
      intros c Hc. apply in_app_or in Hc as [Hc|[<-|[]]];
        [now apply Hnone | exact Hpass].
Qed.

(** The loop on a list is one turn, then the loop on the rest. *)
Lemma best_image_loop_cons i img rest best valid_image :
  best_image_loop min_width min_height i (img :: rest) best valid_image
  = best_image_loop min_width min_height (S i) rest
      (fst (best_image_loop min_width min_height i [img] best valid_image))
      (snd (best_image_loop min_width min_height i [img] best valid_image)).
Proof.
  simpl.
  destruct (negb (meets_minimum_resolution min_width min_height (width img)
                    (height img))); reflexivity.
Qed.

(** The loop keeps the invariant. *)
Lemma loop_invariant_loop rest :
  forall pre best valid_image,
    (forall c, In c rest -> meets min_width min_height c = true ->
               0 < pixels c) ->
    loop_invariant min_width min_height pre best valid_image ->
    let final := best_image_loop min_width min_height (List.length pre) rest
                   best valid_image in
    loop_invariant min_width min_height (pre ++ rest) (fst final)
      (snd final).
Proof.
  induction rest as [|img rest IH]; intros pre best valid_image Hpos Hinv.
  - simpl. now rewrite app_nil_r.
  - cbv zeta. rewrite best_image_loop_cons.
    replace (pre ++ img :: rest)%list with ((pre ++ [img]) ++ rest)%list
      by now rewrite <- app_assoc.
    replace (S (List.length pre)) with (List.length (pre ++ [img]))
      by (rewrite length_app; simpl; lia).
    apply IH.
    + intros c Hc. apply Hpos. now right.
    + apply loop_invariant_step; [|exact Hinv].
      apply Hpos. now left.
Qed.

(** The invariant at the end of the loop of [__determine_best_image]. *)
Lemma determine_best_image_invariant images :
  (forall c, In c images -> meets min_width min_height c = true ->
             0 < pixels c) ->
  let final := best_image_loop min_width min_height 0 images
                 {| best_index := 0; best_pixels := 0; best_score := 0 |}
                 false in
  loop_invariant min_width min_height images (fst final) (snd final).
Proof.
  intros Hpos.
  apply (loop_invariant_loop images [] _ false Hpos).
  split; [reflexivity | intros c []].
Qed.

End Selection.

(** C9, as stated, fails: of two candidates that pass, of equal area, with
    vote averages 5.2 and 5.9, the first is returned although the second
    has the strictly greater score. *)
Lemma determine_best_image_drops_fraction :
  determine_best_image 0 0
    [Scenario.low_vote_still; Scenario.high_vote_still]
  = Some Scenario.low_vote_still /\
  meets 0 0 Scenario.high_vote_still = true /\
  pixels Scenario.high_vote_still = pixels Scenario.low_vote_still /\
  (vote_average Scenario.low_vote_still
   < vote_average Scenario.high_vote_still)%Q.
Proof.
  repeat split.
Qed.

(** C9, amended. When every candidate that passes the minimum resolution
    has a positive number of pixels, [__determine_best_image] returns
    [None] exactly when no candidate passes; a returned candidate passes
    (neither dimension is below the minimum), no candidate that passes has
    more pixels, none with as many pixels has a greater integer part of
    the vote average, and every candidate that passes and stands before
    it is strictly smaller in that order; of the candidates 100x100 with
    score 5 and 200x50 with score 9 the second is returned. *)
Theorem determine_best_image_spec :
  forall min_width min_height images,
    (forall c, In c images -> meets min_width min_height c = true ->
               0 < pixels c) ->
    (determine_best_image min_width min_height images = None <->
     forall c, In c images -> meets min_width min_height c = false) /\
    (forall r,
       determine_best_image min_width min_height images = Some r ->
       (min_width <= width r /\ min_height <= height r) /\
       exists i,
         nth_error images i = Some r /\
         forall j c,
           nth_error images j = Some c ->
           meets min_width min_height c = true ->
           lex_le c r /\ ((j < i)%nat -> lex_lt c r)) /\
    (min_width <= 100 -> min_height <= 50 ->
     determine_best_image min_width min_height
       [Scenario.square_still; Scenario.wide_still]
     = Some Scenario.wide_still).
Proof.
  intros minw minh images Hpos.
  pose proof (determine_best_image_invariant minw minh images Hpos) as Hinv.
  unfold determine_best_image. cbv zeta in Hinv.
  destruct (best_image_loop minw minh 0 images _ false) as [best valid].
  simpl in Hinv. split; [|split].
  - destruct valid; simpl in Hinv.
    + destruct Hinv as (r & Hr & Hmeets & _). rewrite Hr.
      split; [discriminate|]. intros Hnone.
      apply nth_error_In in Hr. rewrite (Hnone r Hr) in Hmeets.
      discriminate.
    + split; [intros _; apply Hinv | reflexivity].
  - intros r Hret. destruct valid; [|discriminate]. simpl in Hinv.
    destruct Hinv as (r' & Hr & Hmeets & _ & _ & Hall).
    assert (r' = r) by congruence. subst r'. split.
    + unfold meets, meets_minimum_resolution in Hmeets.
      apply andb_prop in Hmeets as [Hw Hh]. split; lia.
    + exists (best_index best). split; [exact Hr | exact Hall].
  - intros Hw Hh. unfold determine_best_image. simpl.
    unfold meets_minimum_resolution. simpl.
    destruct (Z.leb_spec minw 100); [|lia].
    destruct (Z.leb_spec minh 100); [|lia].
    destruct (Z.leb_spec minw 200); [|lia].
    destruct (Z.leb_spec minh 50); [|lia].
    reflexivity.
Qed.

Lemma determine_best_image_spec_witness :
  determine_best_image 0 0 [Scenario.square_still; Scenario.wide_still]
  = Some Scenario.wide_still /\
  (0 <= width Scenario.wide_still /\ 0 <= height Scenario.wide_still).
Proof.
  assert (Hpos : forall c,
             In c [Scenario.square_still; Scenario.wide_still] ->
             meets 0 0 c = true -> 0 < pixels c).
  { intros c [<-|[<-|[]]] _; reflexivity. }
  destruct (determine_best_image_spec 0 0
              [Scenario.square_still; Scenario.wide_still] Hpos)
    as (_ & Hsome & Hexample).
  assert (Hret : determine_best_image 0 0
                   [Scenario.square_still; Scenario.wide_still]
                 = Some Scenario.wide_still).
  { apply Hexample; discriminate. }
  split; [exact Hret | apply (Hsome _ Hret)].
Defined.

(** Without the hypothesis on the pixels the first candidate can be
    returned for a later one: the only candidate that passes has no pixel
    and score 0, and never replaces the initial [best_image]. *)
Remark determine_best_image_zero_pixels :
  determine_best_image 0 100 [Scenario.small_still; Scenario.flat_still]
  = Some Scenario.small_still /\
  meets 0 100 Scenario.small_still = false /\
  meets 0 100 Scenario.flat_still = true.
Proof.
  repeat split.
Qed.

(* ================================================================== *)
(** ** The generic titles *)
(* ================================================================== *)

Lemma map_get_In {K V} (eqb : K -> K -> bool) (k : K) (m : list (K * V))
    (v : V) :
  map_get eqb k m = Some v -> exists k', In (k', v) m /\ eqb k k' = true.
Proof.
  induction m as [|[k0 v0] m IH]; simpl; [discriminate|].
  destruct (eqb k k0) eqn:E.
  - intros [= <-]. exists k0. split; [now left | exact E].
  - intros H. destruct (IH H) as (k' & Hin & Hk).
    exists k'. split; [now right | exact Hk].
Qed.

(** Every language code of the table has two characters. *)
Lemma GENERIC_TITLE_FORMATS_codes :
  Forall (fun entry => String.length (fst entry) = 2%nat)
    GENERIC_TITLE_FORMATS.
Proof.
  unfold GENERIC_TITLE_FORMATS. repeat constructor.
Qed.

Lemma unrecognized_language_code (language_code : string) :
  language_code = default_language_code \/
  String.length language_code <> 2%nat ->
  map_get String.eqb language_code GENERIC_TITLE_FORMATS = None.
Proof.
  intros [->|Hlen]; [reflexivity|].
  destruct (map_get String.eqb language_code GENERIC_TITLE_FORMATS)
    as [generic|] eqn:E; [|reflexivity].
  apply map_get_In in E as (code & Hin & Heq).
  apply String.eqb_eq in Heq. subst code.
  pose proof GENERIC_TITLE_FORMATS_codes as Hcodes.
  rewrite Forall_forall in Hcodes.
  now apply Hcodes in Hin.
Qed.

(** C10. With the default language code [en-US], or any code that has not
    exactly two characters (as every region-qualified code), the generic
    title test ([__is_generic_title]) is false for every title and every
    episode; so when the entry is not blacklisted, the series and the
    episode are resolved and the title request succeeds,
    [get_episode_title] returns the name of the answer, whatever it is,
    and leaves the blacklist as it was. *)
Theorem default_language_never_generic :
  forall language_code,
    language_code = default_language_code \/
    String.length language_code <> 2%nat ->
    (forall t ei, is_generic_title t language_code ei = false) /\
    (forall P clock SeriesInfo_set_tmdb_id matches tmdb_retry_count
            si ei st st1 si1 st2 si2 i st3 t,
       is_blacklisted clock tmdb_retry_count si (Some ei) "title" st
       = (Ok false, st1) ->
       set_tmdb_id P SeriesInfo_set_tmdb_id si st1 = (Ok si1, st2) ->
       find_episode P SeriesInfo_set_tmdb_id matches si1 ei true st2
       = (Ok (si2, Some i), st3) ->
       let res := provider_episode_title P (tmdb_id si2) (idx_season i)
                    (idx_episode i) language_code in
       let st' := log [ReqEpisodeTitle (tmdb_id si2) (idx_season i)
                         (idx_episode i) language_code] st3 in
       reports_not_found (ep_success res) = false ->
       ep_name res = Some t ->
       get_episode_title P clock SeriesInfo_set_tmdb_id matches
         tmdb_retry_count si ei language_code st
       = (Ok (si2, Some t), st') /\
       blacklist st' = blacklist st).
Proof.
  intros language_code Hcode.
  assert (Hgeneric : forall t ei, is_generic_title t language_code ei = false).
  { intros t ei. unfold is_generic_title.
    now rewrite unrecognized_language_code. }
  split; [exact Hgeneric|].
  intros P clock set matches retry si ei st st1 si1 st2 si2 i st3 t
         H1 H2 H3 res st' Hfound Hname.
  split.
  - unfold get_episode_title, bind at 1. rewrite H1.
    unfold bind at 1. rewrite H2.
    unfold bind at 1. rewrite H3. simpl.
    unfold bind, _get. fold res. rewrite Hfound, Hname, Hgeneric.
    reflexivity.
  - subst st'. simpl. eapply keeps_resolution; eassumption.
Qed.

(** Under the default language code the generic English title of the fifth
    episode is returned; under the code [en] it is blacklisted. *)
Lemma default_language_never_generic_witness :
  is_generic_title "Episode 5" "en-US" Scenario.fifth = false /\
  is_generic_title "Episode 5" "xx-YY" Scenario.fifth = false /\
  is_generic_title "Episode 5" "en" Scenario.fifth = true /\
  get_episode_title (Scenario.knows_pilot "Episode 5") Scenario.clock
    Scenario.overwrite Scenario.same_title BLACKLIST_THRESHOLD
    Scenario.show Scenario.fifth "en-US" (Scenario.mapped EMPTY_BLACKLIST)
  = (Ok (Scenario.resolved_show, Some "Episode 5"),
     log [ReqEpisode 77 1 5; ReqEpisodeTitle (Some 77) 1 1 "en-US"]
       (Scenario.mapped EMPTY_BLACKLIST)).
Proof.
  split; [|split; [|split]].
  - apply (default_language_never_generic "en-US"). left. reflexivity.
  - apply (default_language_never_generic "xx-YY"). right. discriminate.
  - reflexivity.
  - destruct (default_language_never_generic "en-US" (or_introl eq_refl))
      as [_ H].
    destruct (H (Scenario.knows_pilot "Episode 5") Scenario.clock
                Scenario.overwrite Scenario.same_title BLACKLIST_THRESHOLD
                Scenario.show Scenario.fifth
                (Scenario.mapped EMPTY_BLACKLIST) _ _ _ _
                {| idx_season := 1; idx_episode := 1 |} _ "Episode 5"
                eq_refl eq_refl eq_refl eq_refl eq_refl) as [Hrun _].
    exact Hrun.
Defined.

(* ================================================================== *)
(** ** The repair pass, entry by entry *)
(* ================================================================== *)

Lemma dict_get_In_keys (k : string) (d : dict) (e : value) :
  dict_get k d = Some e -> In k (map fst d).
Proof.
  induction d as [|[k' v] d IH]; simpl; [discriminate|].
  destruct (String.eqb_spec k k') as [->|Hne]; [now left|].
  intros H. right. now apply IH.
Qed.

Lemma dict_get_In (k : string) (d : dict) (e : value) :
  dict_get k d = Some e -> In (k, e) d.
Proof.
  induction d as [|[k' v] d IH]; simpl; [discriminate|].
  destruct (String.eqb_spec k k') as [->|Hne].
  - intros [= ->]. now left.
  - intros H. right. now apply IH.
Qed.

(** Writing back what was read changes nothing. *)
Lemma dict_set_get_id (k : string) (d : dict) (e : value) :
  dict_get k d = Some e -> dict_set k e d = d.
Proof.
  induction d as [|[k' v] d IH]; simpl; [discriminate|].
  destruct (String.eqb_spec k k') as [->|Hne].
  - now intros [= ->].
  - intros H. now rewrite IH.
Qed.

Lemma blacklist_entry_inv (bl : dict) (query_type k : string) (e : value) :
  blacklist_entry bl query_type k = Some e ->
  exists d, dict_get query_type bl = Some (VDict d) /\ dict_get k d = Some e.
Proof.
  unfold blacklist_entry.
  destruct (dict_get query_type bl) as [[| | | | | | |d]|]; try discriminate.
  intros H. now exists d.
Qed.

Lemma EMPTY_BLACKLIST_no_entry (query_type k : string) :
  blacklist_entry EMPTY_BLACKLIST query_type k = None.
Proof.
  unfold blacklist_entry, EMPTY_BLACKLIST. simpl.
  destruct (String.eqb query_type "image"); [reflexivity|].
  destruct (String.eqb query_type "title"); [reflexivity|].
  destruct (String.eqb query_type "logo"); reflexivity.
Qed.

Section ForKeys.

Variable f : value -> M value.
Variables Q Post : value -> Prop.
Hypothesis Post_Q : forall e, Post e -> Q e.
Hypothesis f_post :
  forall e st e' st', Q e -> f e st = (Ok e', st') -> Post e'.

(** When [f] takes what satisfies [Q] to what satisfies [Post], the loop
    leaves a dict whose objects all satisfy [Post], provided those it does
    not visit did so before. *)
Lemma for_keys_post (keys : list string) :
  forall d st d' st',
    for_keys f keys d st = (Ok d', st') ->
    (forall k e, dict_get k d = Some e -> Q e /\ (~ In k keys -> Post e)) ->
    forall k e, dict_get k d' = Some e -> Post e.
Proof.
  induction keys as [|k0 keys IH]; intros d st d' st' Hrun Hd k e Hk.
  - injection Hrun as <- _. apply (Hd k e Hk). intros [].
  - simpl in Hrun. destruct (dict_get k0 d) as [e0|] eqn:H0; [|discriminate].
    unfold bind in Hrun.
    destruct (f e0 st) as [[e0'|x] st1] eqn:Hf; [|discriminate].
    assert (Hpost : Post e0').
    { eapply f_post; [|exact Hf]. now apply (Hd k0 e0). }
    eapply IH; [exact Hrun| |exact Hk].
    intros k1 e1 Hk1. destruct (String.eqb_spec k0 k1) as [<-|Hne].
    + rewrite dict_get_set_same in Hk1. injection Hk1 as <-.
      split; [now apply Post_Q | intros _; exact Hpost].
    + rewrite dict_get_set_other in Hk1 by exact Hne.
      destruct (Hd k1 e1 Hk1) as [HQ HP]. split; [exact HQ|].
      intros Hnot. apply HP. intros [Heq|Hin]; [now apply Hne | now apply Hnot].
Qed.

End ForKeys.

(** When [f] gives back what it is given, so does the loop. *)
Lemma for_keys_id (f : value -> M value) (keys : list string) (d : dict)
    (st : state) :
  (forall k, In k keys ->
     exists e, dict_get k d = Some e /\ f e st = (Ok e, st)) ->
  for_keys f keys d st = (Ok d, st).
Proof.
  induction keys as [|k keys IH]; intros Hkeys; [reflexivity|].
  simpl. destruct (Hkeys k (or_introl eq_refl)) as (e & He & Hf).
  rewrite He. unfold bind. rewrite Hf.
  rewrite (dict_set_get_id _ _ _ He). apply IH.
  intros k' Hin. apply Hkeys. now right.
Qed.

Section Repair.

Variable clock : nat -> Z.

Lemma fix_dict_for_keys (keys : list string) :
  forall d st,
    fix_dict clock keys d st = for_keys (fix_entry clock) keys d st.
Proof.
  induction keys as [|k keys IH]; intros d st; [reflexivity|].
  simpl. destruct (dict_get k d) as [e|]; [|reflexivity].
  unfold bind. destruct (fix_entry clock e st) as [[e'|x] st1];
    [apply IH | reflexivity].
Qed.

Lemma fix_sections_for_keys (qts : list string) :
  forall bl st,
    fix_sections clock qts bl st = for_keys (fix_section clock) qts bl st.
Proof.
  induction qts as [|qt qts IH]; intros bl st; [reflexivity|].
  simpl. destruct (dict_get qt bl) as [sec|]; [|reflexivity].
  unfold bind. destruct (fix_section clock sec st) as [[sec'|x] st1];
    [apply IH | reflexivity].
Qed.

(** What the chain of tests makes of an entry has an integer failure
    count. *)
Lemma fix_entry_has_failures (e : value) (st : state) (e' : value)
    (st' : state) :
  fix_entry clock e st = (Ok e', st') -> has_failures e' = true.
Proof.
  unfold fix_entry, has_failures, failures_of.
  destruct e as [| | | | | | |d];
    try (intros [= <- _]; reflexivity).
  destruct (dict_get "failures" d) as [f|] eqn:Hf.
  - destruct (is_int f) eqn:Hint; simpl.
    + destruct (dict_get "next" d) as [n|] eqn:Hn.
      * destruct (is_datetime n); simpl; intros [= <- _].
        -- now rewrite Hf.
        -- rewrite dict_get_set_other by discriminate. now rewrite Hf.
      * intros [= <- _].
        rewrite dict_get_set_other by discriminate. now rewrite Hf.
    + intros [= <- _]. now rewrite dict_get_set_same.
  - intros [= <- _]. now rewrite dict_get_set_same.
Qed.

(** An entry that has an integer failure count leaves the chain with both
    fields. *)
Lemma fix_entry_well_formed (e : value) (st : state) (e' : value)
    (st' : state) :
  has_failures e = true ->
  fix_entry clock e st = (Ok e', st') -> well_formed_entry e' = true.
Proof.
  unfold fix_entry, well_formed_entry, has_failures, has_next, failures_of,
    next_of.
  destruct e as [| | | | | | |d]; try discriminate.
  destruct (dict_get "failures" d) as [f|] eqn:Hf; [|discriminate].
  intros Hint. rewrite Hint. simpl.
  destruct (dict_get "next" d) as [n|] eqn:Hn.
  - destruct (is_datetime n) eqn:Hdt; simpl; intros [= <- _].
    + now rewrite Hf, Hint, Hn, Hdt.
    + rewrite dict_get_set_other by discriminate.
      now rewrite Hf, Hint, dict_get_set_same.
  - intros [= <- _]. rewrite dict_get_set_other by discriminate.
    now rewrite Hf, Hint, dict_get_set_same.
Qed.

Lemma well_formed_entry_has_failures (e : value) :
  well_formed_entry e = true -> has_failures e = true.
Proof. unfold well_formed_entry. intros H. now apply andb_prop in H. Qed.

(** An entry with both fields passes the chain as it is, and the clock is
    not read. *)
Lemma fix_entry_id (e : value) (st : state) :
  well_formed_entry e = true -> fix_entry clock e st = (Ok e, st).
Proof.
  unfold fix_entry, well_formed_entry, has_failures, has_next, failures_of,
    next_of.
  destruct e as [| | | | | | |d]; try discriminate.
  destruct (dict_get "failures" d) as [f|]; [|discriminate].
  destruct (dict_get "next" d) as [n|]; [|now rewrite andb_false_r].
  intros H. apply andb_prop in H as [-> ->]. reflexivity.
Qed.

Lemma fix_section_post (Q Post : value -> Prop) :
  (forall e, Post e -> Q e) ->
  (forall e st e' st', Q e -> fix_entry clock e st = (Ok e', st') ->
                       Post e') ->
  forall sec st sec' st',
    entries_all Q sec ->
    fix_section clock sec st = (Ok sec', st') ->
    entries_all Post sec'.
Proof.
  intros HPQ Hf sec st sec' st' Hsec Hrun d' -> k e Hk.
  destruct sec as [| | | | s | |l|d]; try discriminate.
  - destruct s; discriminate.
  - simpl in Hrun. unfold bind in Hrun.
    destruct (fix_list clock _ _ l st) as [[l'|x] st1]; discriminate.
  - simpl in Hrun. unfold bind in Hrun.
    destruct (fix_dict clock (map fst d) d st) as [[d1|x] st1] eqn:Hd;
      [|discriminate].
    injection Hrun as -> _. rewrite fix_dict_for_keys in Hd.
    eapply (for_keys_post (fix_entry clock) Q Post HPQ Hf);
      [exact Hd| |exact Hk].
    intros k1 e1 Hk1. split; [now apply (Hsec d eq_refl k1)|].
    intros Hnot. exfalso. apply Hnot. eapply dict_get_In_keys. exact Hk1.
Qed.

Lemma fix_sections_post (Q Post : value -> Prop) :
  (forall e, Post e -> Q e) ->
  (forall e st e' st', Q e -> fix_entry clock e st = (Ok e', st') ->
                       Post e') ->
  forall bl st bl' st',
    (forall query_type k e,
       blacklist_entry bl query_type k = Some e -> Q e) ->
    fix_sections clock (map fst bl) bl st = (Ok bl', st') ->
    forall query_type k e,
      blacklist_entry bl' query_type k = Some e -> Post e.
Proof.
  intros HPQ Hf bl st bl' st' Hbl Hrun query_type k e Hk.
  apply blacklist_entry_inv in Hk as (d & Hsec & Hd).
  rewrite fix_sections_for_keys in Hrun.
  assert (Hall : entries_all Post (VDict d)).
  { eapply (for_keys_post (fix_section clock) (entries_all Q)
              (entries_all Post)); [| |exact Hrun| |exact Hsec].
    - intros sec Hsec' d0 -> k0 e0 H0. apply HPQ.
      now apply (Hsec' d0 eq_refl k0).
    - intros sec st0 sec' st0' HQ Hfix.
      eapply fix_section_post; eassumption.
    - intros qt sec Hqt. split.
      + intros d0 -> k0 e0 H0. apply (Hbl qt k0).
        unfold blacklist_entry. now rewrite Hqt.
      + intros Hnot. exfalso. apply Hnot. eapply dict_get_In_keys. exact Hqt. }
  now apply (Hall d eq_refl k).
Qed.

(** The first loop of the repair pass adds no entry. *)
Lemma ensure_section_entry (bl : dict) (q query_type k : string) (e : value) :
  blacklist_entry (ensure_section bl q) query_type k = Some e ->
  blacklist_entry bl query_type k = Some e.
Proof.
  unfold ensure_section.
  destruct (dict_get q bl) as [[| | | | | | |d]|] eqn:Hq;
    try (intros H; exact H);
    unfold blacklist_entry;
    (destruct (String.eqb_spec q query_type) as [<-|Hne];
     [rewrite dict_get_set_same; discriminate
     |now rewrite dict_get_set_other by exact Hne]).
Qed.

Lemma ensure_sections_entry (bl : dict) (query_type k : string) (e : value) :
  blacklist_entry (fold_left ensure_section query_types bl) query_type k
  = Some e ->
  blacklist_entry bl query_type k = Some e.
Proof.
  simpl. intros H. now do 3 apply ensure_section_entry in H.
Qed.

End Repair.

Section RepairPass.

Variable clock : nat -> Z.

Lemma In_keys_dict_get (k : string) (d : dict) :
  In k (map fst d) -> exists e, dict_get k d = Some e.
Proof.
  induction d as [|[k' v] d IH]; simpl; [intros []|].
  intros Hin. destruct (String.eqb_spec k k') as [->|Hne]; [now exists v|].
  destruct Hin as [Heq|Hin]; [now subst|now apply IH].
Qed.

Lemma well_formed_section_dict (bl : dict) (query_type : string)
    (sec : value) :
  forallb (fun p => well_formed_section (snd p)) bl = true ->
  dict_get query_type bl = Some sec ->
  exists d, sec = VDict d /\
            forallb (fun p => well_formed_entry (snd p)) d = true.
Proof.
  intros Hall Hget. apply dict_get_In in Hget.
  rewrite forallb_forall in Hall. specialize (Hall _ Hget). simpl in Hall.
  destruct sec; try discriminate. now eexists.
Qed.

(** A section of entries with both fields passes the inner loop as it
    is. *)
Lemma fix_section_id (d : dict) (st : state) :
  forallb (fun p => well_formed_entry (snd p)) d = true ->
  fix_section clock (VDict d) st = (Ok (VDict d), st).
Proof.
  intros Hall. simpl. unfold bind.
  rewrite fix_dict_for_keys, for_keys_id; [reflexivity|].
  intros k Hin. destruct (In_keys_dict_get k d Hin) as [e He].
  exists e. split; [exact He|]. apply fix_entry_id.
  rewrite forallb_forall in Hall.
  apply (Hall (k, e)). now apply dict_get_In.
Qed.

Lemma ensure_section_id (bl : dict) (query_type : string) :
  forallb (fun p => well_formed_section (snd p)) bl = true ->
  dict_mem query_type bl = true ->
  ensure_section bl query_type = bl.
Proof.
  intros Hall Hmem. rewrite dict_mem_get in Hmem. unfold ensure_section.
  destruct (dict_get query_type bl) as [sec|] eqn:Hget; [|discriminate].
  destruct (well_formed_section_dict bl query_type sec Hall Hget)
    as (d & -> & _).
  reflexivity.
Qed.

Lemma ensure_section_other (bl : dict) (q query_type : string) :
  q <> query_type ->
  dict_get query_type (ensure_section bl q) = dict_get query_type bl.
Proof.
  intros Hne. unfold ensure_section.
  destruct (dict_get q bl) as [[| | | | | | |d]|];
    try reflexivity; now apply dict_get_set_other.
Qed.

Lemma fix_section_breaks (v : value) (st : state) :
  breaks_repair v = true -> fix_section clock v st = (Raise TypeError, st).
Proof.
  destruct v as [| | | | s | | |]; try discriminate; try reflexivity.
  destruct s; [discriminate | reflexivity].
Qed.

(** The second loop stops at a section it cannot go through, if not
    before. *)
Lemma fix_sections_breaks (qts : list string) :
  forall bl st query_type v,
    In query_type qts ->
    dict_get query_type bl = Some v ->
    breaks_repair v = true ->
    exists x st', fix_sections clock qts bl st = (Raise x, st').
Proof.
  induction qts as [|q0 qts IH]; intros bl st query_type v Hin Hget Hv;
    [destruct Hin|].
  simpl. destruct (dict_get q0 bl) as [sec|] eqn:H0.
  2:{ now exists KeyError, st. }
  unfold bind.
  destruct (fix_section clock sec st) as [[sec'|x] st1] eqn:Hfix.
  2:{ now exists x, st1. }
  destruct (String.eqb_spec q0 query_type) as [->|Hne].
  - assert (sec = v) by congruence. subst sec.
    rewrite fix_section_breaks in Hfix by exact Hv. discriminate.
  - apply (IH _ _ query_type v).
    + destruct Hin as [Heq|Hin]; [now elim Hne | exact Hin].
    + now rewrite dict_get_set_other.
    + exact Hv.
Qed.

End RepairPass.

(** X1. The blacklist of a constructed interface object ([__init__], with
    or without a blacklist file): each of the three query types has a
    section that is a dict, and every entry of every section that is a dict
    is itself a dict with an integer failure count. *)
Theorem init_blacklist_shape :
  forall clock id_map_file blacklist_file started st,
    __init__ clock id_map_file blacklist_file started = Ok st ->
    has_sections (blacklist st) /\
    (forall query_type k e,
       blacklist_entry (blacklist st) query_type k = Some e ->
       has_failures e = true).
Proof.
  intros clock id_map_file blacklist_file started st. unfold __init__.
  destruct blacklist_file as [loaded|].
  2:{ intros [= <-]. simpl. split; [apply EMPTY_BLACKLIST_has_sections|].
      intros query_type k e. now rewrite EMPTY_BLACKLIST_no_entry. }
  destruct (fix_blacklist clock loaded _) as [[bl|x] st'] eqn:Hfix;
    [|discriminate].
  intros [= <-]. simpl. split.
  - eapply fix_blacklist_has_sections. exact Hfix.
  - unfold fix_blacklist in Hfix.
    destruct loaded as [| | | | | | |bl0].
    1-7: injection Hfix as <- _; intros query_type k e;
         now rewrite EMPTY_BLACKLIST_no_entry.
    eapply (fix_sections_post clock (fun _ => True)
              (fun e => has_failures e = true)); [| | |exact Hfix].
    + trivial.
    + intros e st0 e' st0' _. apply fix_entry_has_failures.
    + trivial.
Qed.

Lemma init_blacklist_shape_witness :
  __init__ Scenario.clock None (Some Scenario.empty_record_file) 0
  = Ok (Scenario.start Scenario.empty_record_repaired) /\
  has_sections Scenario.empty_record_repaired /\
  (forall query_type k e,
     blacklist_entry Scenario.empty_record_repaired query_type k = Some e ->
     has_failures e = true).
Proof.
  split; [reflexivity|].
  apply (init_blacklist_shape Scenario.clock None
           (Some Scenario.empty_record_file) 0%nat
           (Scenario.start Scenario.empty_record_repaired)).
  reflexivity.
Defined.

(** X2. The repair pass ([__fix_blacklist]) on a file in which every entry
    of every section already is a dict with an integer failure count:
    when it returns, the three sections are there and every entry has an
    integer failure count and a next time that is a datetime. *)
Theorem fix_blacklist_completes_entries :
  forall clock bl st bl' st',
    (forall query_type k e,
       blacklist_entry bl query_type k = Some e -> has_failures e = true) ->
    fix_blacklist clock (VDict bl) st = (Ok bl', st') ->
    has_sections bl' /\
    (forall query_type k e,
       blacklist_entry bl' query_type k = Some e ->
       well_formed_entry e = true).
Proof.
  intros clock bl st bl' st' Hbl Hfix. split.
  - eapply fix_blacklist_has_sections. exact Hfix.
  - unfold fix_blacklist in Hfix.
    eapply (fix_sections_post clock (fun e => has_failures e = true)
              (fun e => well_formed_entry e = true)); [| | |exact Hfix].
    + apply well_formed_entry_has_failures.
    + intros e st0 e' st0'. apply fix_entry_well_formed.
    + intros query_type k e He. apply ensure_sections_entry in He.
      now apply (Hbl query_type k).
Qed.

Lemma fix_blacklist_completes_entries_witness :
  fix_blacklist Scenario.clock (VDict Repaired.counted_file)
    (Scenario.start [])
  = (Ok Repaired.counted_repaired,
     {| blacklist := []; id_map_name := []; id_map_id := []; trace := [];
        ticks := 1 |}) /\
  has_sections Repaired.counted_repaired /\
  (forall query_type k e,
     blacklist_entry Repaired.counted_repaired query_type k = Some e ->
     well_formed_entry e = true).
Proof.
  split; [reflexivity|].
  apply (fix_blacklist_completes_entries Scenario.clock
           Repaired.counted_file
           (Scenario.start []) Repaired.counted_repaired
           {| blacklist := []; id_map_name := []; id_map_id := [];
              trace := []; ticks := 1 |}).
  - intros query_type k e He.
    apply blacklist_entry_inv in He as (d & Hsec & Hk).
    unfold Repaired.counted_file in Hsec. simpl in Hsec.
    destruct (String.eqb query_type "image"); [|discriminate].
    injection Hsec as <-. simpl in Hk.
    destruct (String.eqb k Scenario.pilot_key); [|discriminate].
    now injection Hk as <-.
  - reflexivity.
Defined.

(** X3. The repair pass on a blacklist that has the three sections, whose
    sections are all dicts and whose entries all have both fields: the
    blacklist is returned as it is, and the clock is not read. *)
Theorem fix_blacklist_well_formed_unchanged :
  forall clock bl st,
    well_formed bl = true ->
    fix_blacklist clock (VDict bl) st = (Ok bl, st).
Proof.
  intros clock bl st Hwf. unfold well_formed in Hwf.
  apply andb_prop in Hwf as [Hmem Hall].
  unfold fix_blacklist.
  assert (Hensure : fold_left ensure_section ["image"; "title"; "logo"] bl
                    = bl).
  { simpl in Hmem. simpl.
    apply andb_prop in Hmem as [Himage Hmem].
    apply andb_prop in Hmem as [Htitle Hmem].
    apply andb_prop in Hmem as [Hlogo _].
    rewrite (ensure_section_id bl "image") by assumption.
    rewrite (ensure_section_id bl "title") by assumption.
    now apply ensure_section_id. }
  rewrite Hensure. rewrite fix_sections_for_keys. apply for_keys_id.
  intros qt Hin. destruct (In_keys_dict_get qt bl Hin) as [sec Hsec].
  exists sec. split; [exact Hsec|].
  destruct (well_formed_section_dict bl qt sec Hall Hsec) as (d & -> & Hd).
  now apply fix_section_id.
Qed.

Lemma fix_blacklist_well_formed_unchanged_witness :
  fix_blacklist Scenario.clock (VDict (Scenario.one_entry 2 1001))
    (Scenario.start [])
  = (Ok (Scenario.one_entry 2 1001), Scenario.start []).
Proof.
  apply (fix_blacklist_well_formed_unchanged Scenario.clock
           (Scenario.one_entry 2 1001)
           (Scenario.start [])).
  reflexivity.
Defined.

(** X4. The repair pass on a file with a top-level key that is not a query
    type and whose value is neither a dict nor a list nor the empty string
    (a number, a boolean, a date, a non-empty string, nothing): the pass
    raises, and so does the constructor. *)
Theorem fix_blacklist_stray_key_raises :
  forall clock bl query_type v,
    dict_get query_type bl = Some v ->
    breaks_repair v = true ->
    ~ In query_type query_types ->
    (forall st, exists x, fst (fix_blacklist clock (VDict bl) st) = Raise x) /\
    (forall id_map_file started,
       exists x,
         __init__ clock id_map_file (Some (VDict bl)) started = Raise x).
Proof.
  intros clock bl query_type v Hget Hv Hnot.
  assert (Hget' : dict_get query_type
                    (fold_left ensure_section ["image"; "title"; "logo"] bl)
                  = Some v).
  { simpl. rewrite !ensure_section_other; [exact Hget| | |];
      intros <-; apply Hnot; simpl; auto. }
  assert (Hraises : forall st,
             exists x st', fix_blacklist clock (VDict bl) st = (Raise x, st')).
  { intros st. unfold fix_blacklist.
    apply (fix_sections_breaks clock _ _ st query_type v);
      [eapply dict_get_In_keys|..]; eassumption. }
  split.
  - intros st. destruct (Hraises st) as (x & st' & ->). now exists x.
  - intros id_map_file started. unfold __init__.
    match goal with
    | |- context [fix_blacklist clock (VDict bl) ?s] =>
        destruct (Hraises s) as (x & st' & ->)
    end.
    now exists x.
Qed.

Lemma fix_blacklist_stray_key_raises_witness :
  fst (fix_blacklist Scenario.clock (VDict Repaired.versioned_file)
         (Scenario.start [])) = Raise TypeError /\
  (exists x,
     __init__ Scenario.clock None (Some (VDict Repaired.versioned_file)) 0
     = Raise x).
Proof.
  split; [reflexivity|].
  apply (fix_blacklist_stray_key_raises Scenario.clock
           Repaired.versioned_file "version" (VInt 2) eq_refl eq_refl).
  simpl. intros [H|[H|[H|[]]]]; discriminate H.
Defined.

(* ================================================================== *)
(** ** One recording, one entry *)
(* ================================================================== *)

Lemma blacklist_entry_set_other (bl : dict) (query_type k : string)
    (e : value) (sec : dict) (query_type' k' : string) :
  dict_get query_type bl = Some (VDict sec) ->
  (query_type', k') <> (query_type, k) ->
  blacklist_entry (dict_set query_type (VDict (dict_set k e sec)) bl)
    query_type' k'
  = blacklist_entry bl query_type' k'.
Proof.
  intros Hsec Hne. unfold blacklist_entry.
  destruct (String.eqb_spec query_type query_type') as [<-|Hqt].
  - rewrite dict_get_set_same, Hsec.
    apply dict_get_set_other. intros <-. now apply Hne.
  - now rewrite dict_get_set_other.
Qed.

(** What a recording leaves of the blacklist: the blacklist itself, or the
    blacklist with a new object under the key of the request. *)
Lemma update_blacklist_writes clock si ei query_type k st :
  blacklist_key si ei query_type = Ok k ->
  let st' := snd (update_blacklist clock si ei query_type st) in
  blacklist st' = blacklist st \/
  exists sec e,
    dict_get query_type (blacklist st) = Some (VDict sec) /\
    blacklist st'
    = dict_set query_type (VDict (dict_set k e sec)) (blacklist st).
Proof.
  intros Hkey. unfold update_blacklist. run_monad. rewrite Hkey. simpl.
  destruct (contains _ k) as [[|]|x]; simpl; [| |now left].
  - destruct (dict_get query_type (blacklist st)) as [sec|] eqn:Hsec; simpl;
      [|now left].
    destruct (getitem sec k) as [entry|x]; simpl; [|now left].
    destruct (getitem entry "next") as [next|x]; simpl; [|now left].
    destruct (datetime_ge _ next) as [[|]|x]; simpl; try now left.
    destruct (getitem entry "failures") as [failures|x]; simpl; [|now left].
    destruct (add_one failures) as [failures'|x]; simpl; [|now left].
    destruct (setitem entry "failures" failures') as [entry1|x]; simpl;
      [|now left].
    destruct (setitem entry1 "next" _) as [entry2|x]; simpl; [|now left].
    destruct sec as [| | | | | | |d]; simpl; try now left.
    right. now exists d, entry2.
  - destruct (dict_get query_type (blacklist st)) as [sec|] eqn:Hsec; simpl;
      [|now left].
    destruct sec as [| | | | | | |d]; simpl; try now left.
    right. now eexists d, _.
Qed.

(** X5. Recording a failure ([__update_blacklist]) changes at most the
    entry of its own key: every entry under another key or another query
    type, and every other section, is as before, whatever the outcome of
    the call. *)
Theorem update_blacklist_other_entries :
  forall clock si ei query_type k st,
    blacklist_key si ei query_type = Ok k ->
    let st' := snd (update_blacklist clock si ei query_type st) in
    (forall query_type' k',
       (query_type', k') <> (query_type, k) ->
       blacklist_entry (blacklist st') query_type' k'
       = blacklist_entry (blacklist st) query_type' k') /\
    (forall query_type',
       query_type' <> query_type ->
       dict_get query_type' (blacklist st')
       = dict_get query_type' (blacklist st)).
Proof.
  intros clock si ei query_type k st Hkey st'.
  destruct (update_blacklist_writes clock si ei query_type k st Hkey)
    as [Hsame|(sec & e & Hsec & Hset)]; fold st' in Hsame || fold st' in Hset.
  - rewrite Hsame. now split.
  - rewrite Hset. split.
    + intros query_type' k' Hne. now apply blacklist_entry_set_other.
    + intros query_type' Hne. apply dict_get_set_other. congruence.
Qed.

Lemma update_blacklist_other_entries_witness :
  let st := Scenario.start (Scenario.one_entry 2 1001) in
  let st' := snd (update_blacklist Scenario.clock Scenario.show
                    (Some Scenario.fifth) "image" st) in
  blacklist_entry (blacklist st') "image" Scenario.pilot_key
  = blacklist_entry (blacklist st) "image" Scenario.pilot_key /\
  dict_get "title" (blacklist st') = dict_get "title" (blacklist st) /\
  blacklist_entry (blacklist st') "image" "Show (2020)-s1e5"
  = Some (new_entry (1000 + one_day)).
Proof.
  destruct (update_blacklist_other_entries Scenario.clock Scenario.show
              (Some Scenario.fifth) "image" "Show (2020)-s1e5"
              (Scenario.start (Scenario.one_entry 2 1001)) eq_refl)
    as [Hentries Hsections].
  split; [|split].
  - apply Hentries. discriminate.
  - apply Hsections. discriminate.
  - reflexivity.
Defined.

(** The two recordings that write, and the test on an entry with both
    fields, with the states they end in. *)
Lemma update_blacklist_absent clock si ei query_type k sec st :
  blacklist_key si ei query_type = Ok k ->
  dict_get query_type (blacklist st) = Some (VDict sec) ->
  dict_get k sec = None ->
  update_blacklist clock si ei query_type st
  = (Ok tt,
     with_blacklist
       (dict_set query_type
          (VDict (dict_set k (new_entry (clock (ticks st) + one_day)) sec))
          (blacklist st))
       (snd (now clock st))).
Proof.
  intros Hkey Hsec Habs. unfold update_blacklist. run_monad.
  rewrite Hkey, Hsec. simpl. rewrite dict_mem_get, Habs. reflexivity.
Qed.

Lemma update_blacklist_counted clock si ei query_type k sec st entry
    failures next :
  blacklist_key si ei query_type = Ok k ->
  dict_get query_type (blacklist st) = Some (VDict sec) ->
  dict_get k sec = Some (VDict entry) ->
  dict_get "failures" entry = Some (VInt failures) ->
  dict_get "next" entry = Some (VDatetime next) ->
  next <= clock (S (ticks st)) ->
  update_blacklist clock si ei query_type st
  = (Ok tt,
     with_blacklist
       (dict_set query_type
          (VDict
             (dict_set k
                (VDict (dict_set "next"
                          (VDatetime (clock (ticks st) + one_day))
                          (dict_set "failures" (VInt (failures + 1)) entry)))
                sec))
          (blacklist st))
       (snd (now clock (snd (now clock st))))).
Proof.
  intros Hkey Hsec Hent Hf Hn Hpassed. unfold update_blacklist. run_monad.
  rewrite Hkey, Hsec. simpl. rewrite dict_mem_get, Hent. simpl.
  rewrite Hn. simpl.
  destruct (Z.leb_spec next (clock (S (ticks st)))); [|lia].
  rewrite Hf. reflexivity.
Qed.

Lemma is_blacklisted_present clock retry si ei query_type k sec st entry
    failures next :
  blacklist_key si ei query_type = Ok k ->
  dict_get query_type (blacklist st) = Some (VDict sec) ->
  dict_get k sec = Some (VDict entry) ->
  dict_get "failures" entry = Some (VInt failures) ->
  dict_get "next" entry = Some (VDatetime next) ->
  is_blacklisted clock retry si ei query_type st
  = if Z.ltb retry failures then (Ok true, st)
    else (Ok (Z.ltb (clock (ticks st)) next), snd (now clock st)).
Proof.
  intros Hkey Hsec Hent Hf Hn. unfold is_blacklisted. run_monad.
  rewrite dict_mem_get, Hsec, Hkey. simpl.
  rewrite dict_mem_get, Hent. simpl. rewrite Hf. simpl.
  destruct (Z.ltb retry failures); [reflexivity|]. simpl.
  now rewrite Hn.
Qed.

Lemma is_blacklisted_absent clock retry si ei query_type k sec st :
  blacklist_key si ei query_type = Ok k ->
  dict_get query_type (blacklist st) = Some (VDict sec) ->
  dict_get k sec = None ->
  is_blacklisted clock retry si ei query_type st = (Ok false, st).
Proof.
  intros Hkey Hsec Habs. unfold is_blacklisted. run_monad.
  rewrite dict_mem_get, Hsec, Hkey. simpl.
  now rewrite dict_mem_get, Habs.
Qed.

(** X6. The blacklist test right after a recording that wrote an entry:
    after the first failure of a request the test is true exactly when the
    retry count is below one or the clock it reads is less than a day
    after the reading of the recording; after a further failure that
    counted, the same with the new count. *)
Theorem update_then_is_blacklisted :
  forall clock tmdb_retry_count si ei query_type k sec st,
    blacklist_key si ei query_type = Ok k ->
    dict_get query_type (blacklist st) = Some (VDict sec) ->
    let recorded := snd (update_blacklist clock si ei query_type st) in
    let test := is_blacklisted clock tmdb_retry_count si ei query_type
                  recorded in
    (dict_get k sec = None ->
     fst test
     = Ok (Z.ltb tmdb_retry_count 1
           || Z.ltb (clock (S (ticks st))) (clock (ticks st) + one_day))) /\
    (forall entry failures next,
       dict_get k sec = Some (VDict entry) ->
       dict_get "failures" entry = Some (VInt failures) ->
       dict_get "next" entry = Some (VDatetime next) ->
       next <= clock (S (ticks st)) ->
       fst test
       = Ok (Z.ltb tmdb_retry_count (failures + 1)
             || Z.ltb (clock (S (S (ticks st))))
                  (clock (ticks st) + one_day))).
Proof.
  intros clock retry si ei query_type k sec st Hkey Hsec recorded test.
  subst test recorded. split.
  - intros Habs.
    rewrite (update_blacklist_absent _ _ _ _ _ _ _ Hkey Hsec Habs).
    cbn [snd].
    erewrite is_blacklisted_present; [|exact Hkey| | | |].
    2:{ simpl. apply dict_get_set_same. }
    2:{ apply dict_get_set_same. }
    2:{ reflexivity. }
    2:{ reflexivity. }
    now destruct (Z.ltb retry 1).
  - intros entry failures next Hent Hf Hn Hpassed.
    rewrite (update_blacklist_counted _ _ _ _ _ _ _ _ _ _
               Hkey Hsec Hent Hf Hn Hpassed).
    cbn [snd].
    erewrite is_blacklisted_present; [|exact Hkey| | | |].
    2:{ simpl. apply dict_get_set_same. }
    2:{ apply dict_get_set_same. }
    2:{ rewrite dict_get_set_other by discriminate. apply dict_get_set_same. }
    2:{ apply dict_get_set_same. }
    now destruct (Z.ltb retry (failures + 1)).
Qed.

Lemma update_then_is_blacklisted_witness :
  let recorded := snd (update_blacklist Scenario.clock Scenario.show
                         (Some Scenario.pilot) "image"
                         (Scenario.start EMPTY_BLACKLIST)) in
  fst (is_blacklisted Scenario.clock BLACKLIST_THRESHOLD Scenario.show
         (Some Scenario.pilot) "image" recorded) = Ok true.
Proof.
  destruct (update_then_is_blacklisted Scenario.clock BLACKLIST_THRESHOLD
              Scenario.show (Some Scenario.pilot) "image" Scenario.pilot_key
              [] (Scenario.start EMPTY_BLACKLIST) eq_refl eq_refl)
    as [Habsent _].
  exact (Habsent eq_refl).
Defined.

(* ================================================================== *)
(** ** The identifier map *)
(* ================================================================== *)

Section Maps.

Context {K V : Type}.
Variable eqb : K -> K -> bool.
Hypothesis eqb_eq : forall a b, eqb a b = true <-> a = b.

Lemma map_get_set_same (k : K) (v : V) (m : list (K * V)) :
  map_get eqb k (map_set eqb k v m) = Some v.
Proof.
  assert (Hrefl : eqb k k = true) by now apply eqb_eq.
  induction m as [|[k' v'] m IH]; simpl.
  - now rewrite Hrefl.
  - destruct (eqb k k') eqn:E; simpl; rewrite E; [reflexivity | exact IH].
Qed.

Lemma map_get_set_other (k k' : K) (v : V) (m : list (K * V)) :
  k <> k' -> map_get eqb k' (map_set eqb k v m) = map_get eqb k' m.
Proof.
  intros Hne. induction m as [|[k0 v0] m IH]; simpl.
  - destruct (eqb k' k) eqn:E; [|reflexivity].
    apply eqb_eq in E. congruence.
  - destruct (eqb k k0) eqn:E; simpl.
    + apply eqb_eq in E. subst k0.
      destruct (eqb k' k) eqn:E'; [|reflexivity].
      apply eqb_eq in E'. congruence.
    + destruct (eqb k' k0); [reflexivity | exact IH].
Qed.

End Maps.

Section Resolution.

Variable P : provider.
Variable SeriesInfo_set_tmdb_id : option Z -> option Z -> option Z.

(** A known series is resolved from the map: nothing is sent, nothing
    changes. *)
Lemma set_tmdb_id_known (si : SeriesInfo) (st : state) :
  known si st ->
  exists si', set_tmdb_id P SeriesInfo_set_tmdb_id si st = (Ok si', st).
Proof.
  unfold set_tmdb_id, bind, get_id_map. simpl.
  intros [(tv & mapped & Htv & Hmap)|(id & Hname)].
  - rewrite Htv, Hmap. now eexists.
  - destruct (match series_tvdb_id si with
              | Some tv => map_get Z.eqb tv (id_map_id st)
              | None => None
              end); [now eexists|].
    rewrite Hname. now eexists.
Qed.

(** After the series was added to the map with an ID that counts as true,
    it is known. *)
Lemma add_id_to_map_known (si : SeriesInfo) (st : state) (id : Z) :
  tmdb_id si = Some id -> id <> 0 ->
  known si (snd (add_id_to_map si st)).
Proof.
  intros Hid Hnz. right. exists id. unfold add_id_to_map. simpl.
  rewrite (map_get_set_same String.eqb String.eqb_eq), Hid. simpl.
  destruct (Z.eqb_spec id 0); [contradiction | reflexivity].
Qed.

Lemma add_id_to_map_known_tvdb (si : SeriesInfo) (st : state) (tv : Z) :
  series_tvdb_id si = Some tv ->
  known si (snd (add_id_to_map si st)).
Proof.
  intros Htv. left. exists tv, (tmdb_id si). split; [exact Htv|].
  unfold add_id_to_map. simpl. rewrite Htv.
  apply (map_get_set_same Z.eqb Z.eqb_eq).
Qed.

End Resolution.

(** X7. Lookup after insertion in the identifier map ([__add_id_to_map],
    then [__set_tmdb_id]): once a series holding a non-zero ID was added to
    the map, the resolution of a series of the same full name and the same
    TVDb ID sets that ID and sends no request; the entries of the map under
    other names are as before. *)
Theorem add_id_to_map_round_trip :
  forall P SeriesInfo_set_tmdb_id si st id si',
    tmdb_id si = Some id -> id <> 0 ->
    full_name si' = full_name si ->
    series_tvdb_id si' = series_tvdb_id si ->
    let mapped := snd (add_id_to_map si st) in
    set_tmdb_id P SeriesInfo_set_tmdb_id si' mapped
    = (Ok (with_tmdb_id SeriesInfo_set_tmdb_id si' (Some id)), mapped) /\
    (forall other,
       other <> full_name si ->
       map_get String.eqb other (id_map_name mapped)
       = map_get String.eqb other (id_map_name st)).
Proof.
  intros P set si st id si' Hid Hnz Hname Htv mapped. subst mapped. split.
  - unfold set_tmdb_id, bind, get_id_map, add_id_to_map. simpl.
    rewrite Htv, Hname, Hid.
    destruct (series_tvdb_id si) as [tv|].
    + now rewrite (map_get_set_same Z.eqb Z.eqb_eq).
    + rewrite (map_get_set_same String.eqb String.eqb_eq). simpl.
      destruct (Z.eqb_spec id 0); [contradiction | reflexivity].
  - intros other Hne. unfold add_id_to_map. simpl.
    apply (map_get_set_other String.eqb String.eqb_eq). congruence.
Qed.

Lemma add_id_to_map_round_trip_witness :
  let mapped := snd (add_id_to_map Scenario.resolved_show
                       (Scenario.start [])) in
  set_tmdb_id Scenario.nothing Scenario.overwrite Scenario.show mapped
  = (Ok Scenario.resolved_show, mapped).
Proof.
  apply (add_id_to_map_round_trip Scenario.nothing Scenario.overwrite
           Scenario.resolved_show (Scenario.start []) 77 Scenario.show
           eq_refl).
  - discriminate.
  - reflexivity.
  - reflexivity.
Defined.

(** X8. The resolution of the series ID is cached: when [__set_tmdb_id]
    returns with the series holding a non-zero ID, and the title search of
    the provider is not without result, a second call on the series sends
    no request and changes nothing. *)
Theorem set_tmdb_id_cached :
  forall P SeriesInfo_set_tmdb_id si st si1 st1 id,
    set_tmdb_id P SeriesInfo_set_tmdb_id si st = (Ok si1, st1) ->
    total_results (provider_search P (name si) (year si)) <> 0 ->
    tmdb_id si1 = Some id -> id <> 0 ->
    exists si2,
      set_tmdb_id P SeriesInfo_set_tmdb_id si1 st1 = (Ok si2, st1).
Proof.
  intros P set si st si1 st1 id Hrun Hsearch Hid Hnz.
  apply set_tmdb_id_known.
  revert Hrun. unfold set_tmdb_id, bind, get_id_map. simpl.
  destruct (match series_tvdb_id si with
            | Some tv => map_get Z.eqb tv (id_map_id st)
            | None => None
            end) as [mapped|] eqn:Hmapped.
  { intros [= <- <-]. left. simpl.
    destruct (series_tvdb_id si) as [tv|]; [|discriminate].
    now exists tv, mapped. }
  destruct (truthy_id (map_get String.eqb (full_name si) (id_map_name st)))
    as [id'|] eqn:Hname.
  { intros [= <- <-]. right. simpl. now exists id'. }
  assert (Hsearched :
            forall st0,
              search_by_title P set si st0 = (Ok si1, st1) -> known si1 st1).
  { intros st0. unfold search_by_title, bind, _get.
    destruct (Z.eqb_spec (total_results
                            (provider_search P (name si) (year si))) 0);
      [contradiction|].
    destruct (results (provider_search P (name si) (year si)))
      as [|id0 rest]; [discriminate|].
    unfold ret. intros [= <- <-].
    exact (add_id_to_map_known (with_tmdb_id set si (Some id0))
             (log [ReqSearch (name si) (year si)] st0) id Hid Hnz). }
  unfold match_by_tvdb_id.
  destruct (series_tvdb_id si) as [tv|] eqn:Htv; [|apply Hsearched].
  unfold bind, _get.
  destruct (tv_results (provider_find P tv)) as [|id0 [|id1 rest]];
    try apply Hsearched.
  unfold ret. intros [= <- <-].
  exact (add_id_to_map_known_tvdb (with_tmdb_id set si (Some id0))
           (log [ReqFind tv] st) tv Htv).
Qed.

Lemma set_tmdb_id_cached_witness :
  let first := set_tmdb_id Resolved.finds_show Scenario.overwrite
                 Resolved.show_with_tvdb (Scenario.start []) in
  trace (snd first) = [ReqFind 5; ReqSearch "Show" 2020] /\
  exists si2,
    set_tmdb_id Resolved.finds_show Scenario.overwrite
      (with_tmdb_id Scenario.overwrite Resolved.show_with_tvdb (Some 77))
      (snd first)
    = (Ok si2, snd first).
Proof.
  split; [reflexivity|].
  apply (set_tmdb_id_cached Resolved.finds_show Scenario.overwrite
           Resolved.show_with_tvdb (Scenario.start []) _ _ 77 eq_refl).
  - discriminate.
  - reflexivity.
  - discriminate.
Defined.

(** X9. The requests of the resolution of the series ID: at most the
    lookup by TVDb ID, which needs a TVDb ID, followed by at most the title
    and year search; the clock is not read, and when nothing is sent the
    identifier map is as before. *)
Theorem set_tmdb_id_requests :
  forall P SeriesInfo_set_tmdb_id si st,
    let run := set_tmdb_id P SeriesInfo_set_tmdb_id si st in
    let search := ReqSearch (name si) (year si) in
    ticks (snd run) = ticks st /\
    exists reqs,
      trace (snd run) = (trace st ++ reqs)%list /\
      (reqs = [] \/ reqs = [search] \/
       exists tv,
         series_tvdb_id si = Some tv /\
         (reqs = [ReqFind tv] \/ reqs = [ReqFind tv; search])) /\
      (reqs = [] -> snd run = st).
Proof.
  intros P set si st run search. subst run.
  assert (Hsearch :
            forall st0,
              ticks (snd (search_by_title P set si st0)) = ticks st0 /\
              trace (snd (search_by_title P set si st0))
              = (trace st0 ++ [search])%list).
  { intros st0. unfold search_by_title, bind, _get.
    destruct (Z.eqb _ 0); [now split|].
    destruct (results _); now split. }
  unfold set_tmdb_id, bind, get_id_map. simpl.
  destruct (match series_tvdb_id si with
            | Some tv => map_get Z.eqb tv (id_map_id st)
            | None => None
            end) as [mapped|] eqn:Hmapped.
  { split; [reflexivity|]. exists []. simpl. rewrite app_nil_r. auto. }
  destruct (truthy_id _) as [id|].
  { split; [reflexivity|]. exists []. simpl. rewrite app_nil_r. auto. }
  unfold match_by_tvdb_id.
  destruct (series_tvdb_id si) as [tv|] eqn:Htv.
  2:{ destruct (Hsearch st) as [Hticks Htrace]. split; [exact Hticks|].
      exists [search]. split; [exact Htrace|]. split; [auto|discriminate]. }
  unfold bind, _get.
  assert (Hboth :
            ticks (snd (search_by_title P set si (log [ReqFind tv] st)))
            = ticks st /\
            exists reqs,
              trace (snd (search_by_title P set si (log [ReqFind tv] st)))
              = (trace st ++ reqs)%list /\
              (reqs = [] \/ reqs = [search] \/
               exists tv0,
                 Some tv = Some tv0 /\
                 (reqs = [ReqFind tv0] \/ reqs = [ReqFind tv0; search])) /\
              (reqs = [] ->
               snd (search_by_title P set si (log [ReqFind tv] st)) = st)).
  { destruct (Hsearch (log [ReqFind tv] st)) as [Hticks Htrace].
    split; [exact Hticks|]. exists [ReqFind tv; search].
    split; [|split; [|discriminate]].
    - rewrite Htrace. simpl. now rewrite <- app_assoc.
    - right. right. exists tv. auto. }
  destruct (tv_results (provider_find P tv)) as [|id0 [|id1 rest]];
    try exact Hboth.
  split; [reflexivity|]. exists [ReqFind tv].
  split; [reflexivity|]. split; [|discriminate].
  right. right. exists tv. auto.
Qed.

(* ================================================================== *)
(** ** The requests of the episode matcher *)
(* ================================================================== *)

Section Requests.

Variable P : provider.
Variable SeriesInfo_set_tmdb_id : option Z -> option Z -> option Z.
Variable matches : string -> string -> bool.

Lemma sends_ret {A} (a : A) : sends_at_most 0 (ret a).
Proof. intros st. exists []. now rewrite log_nil. Qed.

Lemma sends_raise {A} (e : exn) : sends_at_most 0 (@raise A e).
Proof. intros st. exists []. now rewrite log_nil. Qed.

Lemma sends_lift {A} (r : result A) : sends_at_most 0 (lift r).
Proof. intros st. exists []. now rewrite log_nil. Qed.

Lemma sends_get {A} (r : request) (a : A) : sends_at_most 1 (_get r a).
Proof. intros st. exists [r]. split; [reflexivity | simpl; lia]. Qed.

Lemma sends_more {A} (n m : nat) (c : M A) :
  (n <= m)%nat -> sends_at_most n c -> sends_at_most m c.
Proof.
  intros Hle Hc st. destruct (Hc st) as (reqs & Hst & Hlen).
  exists reqs. split; [exact Hst | lia].
Qed.

Lemma sends_bind {A B} (n m : nat) (c : M A) (k : A -> M B) :
  sends_at_most n c -> (forall a, sends_at_most m (k a)) ->
  sends_at_most (n + m) (bind c k).
Proof.
  intros Hc Hk st. unfold bind. destruct (Hc st) as (reqs & Hst & Hlen).
  destruct (c st) as [[a|e] st1]; simpl in Hst; subst st1.
  - destruct (Hk a (log reqs st)) as (reqs' & Hst' & Hlen').
    exists (reqs ++ reqs')%list. rewrite Hst', log_log, length_app.
    split; [reflexivity | lia].
  - exists reqs. split; [reflexivity | lia].
Qed.

Lemma sends_absolute_scan id abs seasons info :
  sends_at_most (List.length seasons) (absolute_scan P id abs seasons info).
Proof.
  revert info. induction seasons as [|s seasons IH]; intros info; simpl.
  - apply sends_ret.
  - apply (sends_bind 1 (List.length seasons)); [apply sends_get|].
    intros info'. destruct (ep_season_number info'); [|apply IH].
    eapply sends_more; [|apply sends_ret]. lia.
Qed.

Lemma sends_season_scan id t seasons :
  sends_at_most (List.length seasons) (season_scan P matches id t seasons).
Proof.
  induction seasons as [|s seasons IH]; simpl.
  - apply sends_ret.
  - apply (sends_bind 1 (List.length seasons)); [apply sends_get|].
    intros tmdb_season.
    destruct (reports_not_found _).
    { eapply sends_more; [|apply sends_ret]. lia. }
    destruct (sn_episodes tmdb_season).
    2:{ eapply sends_more; [|apply sends_raise]. lia. }
    destruct (first_match _ _ _); [|apply IH].
    eapply sends_more; [|apply sends_ret]. lia.
Qed.

Lemma sends_query_index id ei :
  sends_at_most (1 + Z.to_nat (season_number ei + 1)) (query_index P id ei).
Proof.
  unfold query_index. apply sends_bind; [apply sends_get|]. intros info.
  destruct (abs_number ei) as [abs|].
  2:{ eapply sends_more; [|apply sends_ret]. lia. }
  destruct (reports_not_found _).
  - rewrite <- length_seasons_upto, <- length_rev.
    apply sends_absolute_scan.
  - eapply sends_more; [|apply sends_ret]. lia.
Qed.

Lemma sends_find_by_index si ei title_match :
  sends_at_most (1 + 2 * Z.to_nat (season_number ei + 1))
    (find_by_index P matches si ei title_match).
Proof.
  unfold find_by_index. destruct (tmdb_id si) as [id|].
  2:{ eapply sends_more; [|apply sends_ret]. lia. }
  replace (1 + 2 * Z.to_nat (season_number ei + 1))%nat
    with ((1 + Z.to_nat (season_number ei + 1))
          + Z.to_nat (season_number ei + 1))%nat by lia.
  apply sends_bind; [apply sends_query_index|]. intros info.
  assert (Hscan : sends_at_most (Z.to_nat (season_number ei + 1))
                    (season_scan P matches id (title ei)
                       (seasons_upto (season_number ei)))).
  { rewrite <- length_seasons_upto. apply sends_season_scan. }
  assert (Hindex : sends_at_most (Z.to_nat (season_number ei + 1))
                     (bind (lift (index_of info))
                        (fun i => ret (Some i)))).
  { eapply sends_more; [|apply (sends_bind 0 0);
                          [apply sends_lift | intros; apply sends_ret]].
    lia. }
  destruct (ep_name info); [|exact Hscan].
  destruct (negb title_match); [exact Hindex|].
  destruct (matches _ _); [exact Hindex | exact Hscan].
Qed.

Lemma sends_find_episode si ei title_match :
  sends_at_most (2 + 2 * Z.to_nat (season_number ei + 1))
    (find_episode P SeriesInfo_set_tmdb_id matches si ei title_match).
Proof.
  assert (Hindex : sends_at_most (1 + 2 * Z.to_nat (season_number ei + 1))
                     (bind (find_by_index P matches si ei title_match)
                        (fun i => ret (si, i)))).
  { eapply sends_more;
      [|apply (sends_bind (1 + 2 * Z.to_nat (season_number ei + 1)) 0);
        [apply sends_find_by_index | intros; apply sends_ret]].
    lia. }
  unfold find_episode. destruct (tvdb_id ei).
  - apply (sends_bind 1); [apply sends_get|]. intros res.
    destruct res; [exact Hindex|].
    eapply sends_more; [|apply sends_ret]. lia.
  - eapply sends_more; [|exact Hindex]. lia.
Qed.

End Requests.

(** X10. The requests of the episode matcher ([__find_episode]) for an
    episode of season number [n]: whatever the provider answers, the call
    sends at most two requests more than twice the length of
    [range(0, n+1)], and changes nothing but the trace of the requests;
    for an episode without TVDb ID of a series without TMDb ID it sends
    nothing and finds nothing. *)
Theorem find_episode_requests :
  forall P SeriesInfo_set_tmdb_id matches si ei title_match st,
    let run := find_episode P SeriesInfo_set_tmdb_id matches si ei
                 title_match st in
    (exists reqs,
       snd run = log reqs st /\
       (List.length reqs <= 2 + 2 * Z.to_nat (season_number ei + 1))%nat) /\
    (tvdb_id ei = None -> tmdb_id si = None -> run = (Ok (si, None), st)).
Proof.
  intros P set matches si ei title_match st run. split.
  - apply sends_find_episode.
  - intros Htv Hid. subst run. unfold find_episode, find_by_index, bind.
    now rewrite Htv, Hid.
Qed.

Lemma find_episode_requests_witness :
  find_episode Scenario.nothing Scenario.overwrite Scenario.same_title
    Scenario.show Scenario.pilot true (Scenario.start [])
  = (Ok (Scenario.show, None), Scenario.start []) /\
  exists reqs,
    snd (find_episode Scenario.nothing Scenario.overwrite Scenario.same_title
           Scenario.resolved_show Scenario.finale true (Scenario.start []))
    = log reqs (Scenario.start []) /\
    (List.length reqs <= 8)%nat.
Proof.
  split.
  - apply (find_episode_requests Scenario.nothing Scenario.overwrite
             Scenario.same_title Scenario.show Scenario.pilot true
             (Scenario.start [])); reflexivity.
  - apply (find_episode_requests Scenario.nothing Scenario.overwrite
             Scenario.same_title Scenario.resolved_show Scenario.finale true
             (Scenario.start [])).
Defined.

(* ================================================================== *)
(** ** The logo selection, where it selects *)
(* ================================================================== *)

(** The loop at a logo that does not pass the filter, at an English SVG,
    and at an English PNG. *)
Lemma logo_loop_skip img images best valid_image :
  passes_filter img = false ->
  logo_loop (img :: images) best valid_image
  = logo_loop images best valid_image.
Proof.
  unfold passes_filter, is_transparent. intros H. simpl.
  destruct (endswith (logo_file_path img) ".png"
            || endswith (logo_file_path img) ".svg"); simpl in *;
    [|reflexivity].
  now rewrite H.
Qed.

Lemma logo_loop_svg img images best valid_image :
  passes_filter img = true -> is_svg img = true ->
  logo_loop (img :: images) best valid_image = (img, true).
Proof.
  unfold passes_filter, is_transparent, is_svg. intros H Hsvg. simpl.
  apply andb_prop in H as [Ht Hen]. now rewrite Ht, Hen, Hsvg.
Qed.

Lemma logo_loop_png img images best valid_image :
  passes_filter img = true -> is_svg img = false ->
  logo_loop (img :: images) best valid_image
  = logo_loop images
      (if Z.ltb (logo_area best) (logo_area img) then img else best) true.
Proof.
  unfold passes_filter, is_transparent, is_svg, logo_area.
  intros H Hsvg. simpl.
  apply andb_prop in H as [Ht Hen]. rewrite Ht, Hen, Hsvg. simpl.
  now destruct (Z.ltb _ _).
Qed.

Lemma logo_loop_valid images :
  forall best valid_image,
    snd (logo_loop images best valid_image)
    = valid_image || existsb passes_filter images.
Proof.
  induction images as [|img images IH]; intros best valid_image.
  - simpl. now rewrite orb_false_r.
  - cbn [existsb]. destruct (passes_filter img) eqn:Hpass.
    + destruct (is_svg img) eqn:Hsvg.
      * rewrite logo_loop_svg by assumption. simpl. now rewrite orb_true_r.
      * rewrite logo_loop_png by assumption. rewrite IH. simpl.
        now rewrite orb_true_r.
    + rewrite logo_loop_skip by assumption. now rewrite IH.
Qed.

(** The loop before the first English SVG. *)
Lemma logo_loop_first_svg before svg rest :
  forall best valid_image,
    forallb (fun l => negb (passes_filter l && is_svg l)) before = true ->
    passes_filter svg = true -> is_svg svg = true ->
    logo_loop (before ++ svg :: rest) best valid_image = (svg, true).
Proof.
  induction before as [|img before IH]; intros best valid_image Hb Hpass Hsvg.
  - now apply logo_loop_svg.
  - simpl in Hb. apply andb_prop in Hb as [Himg Hb].
    change ((img :: before) ++ svg :: rest)%list
      with (img :: (before ++ svg :: rest))%list.
    destruct (passes_filter img) eqn:Hp.
    + destruct (is_svg img) eqn:Hs; [discriminate|].
      rewrite logo_loop_png by assumption. now apply IH.
    + rewrite logo_loop_skip by assumption. now apply IH.
Qed.

(** The loop without English SVG, from a logo that passes the filter:
    [best] stays the first of the greatest. *)
Lemma logo_loop_greatest rest :
  forall p1 best p2 valid_image,
    forallb (fun l => negb (passes_filter l && is_svg l)) rest = true ->
    passes_filter best = true ->
    (forall c, In c p1 -> passes_filter c = true ->
               logo_area c < logo_area best) ->
    (forall c, In c p2 -> passes_filter c = true ->
               logo_area c <= logo_area best) ->
    exists q1 r q2,
      fst (logo_loop rest best valid_image) = r /\
      (p1 ++ best :: p2 ++ rest = q1 ++ r :: q2)%list /\
      passes_filter r = true /\
      (forall c, In c q1 -> passes_filter c = true ->
                 logo_area c < logo_area r) /\
      (forall c, In c q2 -> passes_filter c = true ->
                 logo_area c <= logo_area r).
Proof.
  induction rest as [|img rest IH];
    intros p1 best p2 valid_image Hrest Hbest H1 H2.
  - exists p1, best, p2. rewrite app_nil_r. repeat split; assumption.
  - simpl in Hrest. apply andb_prop in Hrest as [Himg Hrest].
    destruct (passes_filter img) eqn:Hp.
    + destruct (is_svg img) eqn:Hs; [discriminate|].
      rewrite logo_loop_png by assumption.
      destruct (Z.ltb_spec (logo_area best) (logo_area img)) as [Hlt|Hge].
      * destruct (IH (p1 ++ best :: p2)%list img [] true Hrest Hp)
          as (q1 & r & q2 & Hr & Hsplit & Hrest').
        { intros c Hc Hpc. apply in_app_or in Hc as [Hc|[<-|Hc]].
          - specialize (H1 c Hc Hpc). lia.
          - exact Hlt.
          - specialize (H2 c Hc Hpc). lia. }
        { intros c []. }
        exists q1, r, q2. split; [exact Hr|]. split; [|exact Hrest'].
        rewrite <- Hsplit. simpl. now rewrite <- !app_assoc.
      * destruct (IH p1 best (p2 ++ [img])%list true Hrest Hbest H1)
          as (q1 & r & q2 & Hr & Hsplit & Hrest').
        { intros c Hc Hpc. apply in_app_or in Hc as [Hc|[<-|[]]].
          - now apply H2.
          - exact Hge. }
        exists q1, r, q2. split; [exact Hr|]. split; [|exact Hrest'].
        rewrite <- Hsplit. now rewrite <- !app_assoc.
    + rewrite logo_loop_skip by assumption.
      destruct (IH p1 best (p2 ++ [img])%list valid_image Hrest Hbest H1)
        as (q1 & r & q2 & Hr & Hsplit & Hrest').
      { intros c Hc Hpc. apply in_app_or in Hc as [Hc|[<-|[]]].
        - now apply H2.
        - congruence. }
      exists q1, r, q2. split; [exact Hr|]. split; [|exact Hrest'].
      rewrite <- Hsplit. now rewrite <- !app_assoc.
Qed.

(** X11. An SVG ends the logo selection of [get_series_logo]: the first
    logo of the answer that is an English SVG is the one selected, whatever
    stands before it and after it. *)
Theorem best_logo_first_svg :
  forall before svg rest,
    forallb (fun l => negb (passes_filter l && is_svg l)) before = true ->
    passes_filter svg = true -> is_svg svg = true ->
    best_logo (before ++ svg :: rest) = Some svg.
Proof.
  intros before svg rest Hb Hpass Hsvg. unfold best_logo.
  destruct (before ++ svg :: rest)%list as [|first images] eqn:E.
  { now destruct before. }
  rewrite <- E. now rewrite logo_loop_first_svg.
Qed.

Lemma best_logo_first_svg_witness :
  best_logo [Scenario.jpg_logo; Logos.big_png; Logos.svg_logo;
             Scenario.png_logo]
  = Some Logos.svg_logo.
Proof.
  apply (best_logo_first_svg [Scenario.jpg_logo; Logos.big_png]
           Logos.svg_logo [Scenario.png_logo]); reflexivity.
Defined.

(** X12. The logo selection selects nothing exactly when no logo of the
    answer passes the filter (a PNG or SVG file, in English). *)
Theorem best_logo_none_iff :
  forall images,
    best_logo images = None <-> existsb passes_filter images = false.
Proof.
  intros images. unfold best_logo. destruct images as [|first images].
  { split; reflexivity. }
  pose proof (logo_loop_valid (first :: images) first false) as Hvalid.
  destruct (logo_loop (first :: images) first false) as [best valid].
  cbn [snd orb] in Hvalid. rewrite <- Hvalid.
  destruct valid; split; intros H; try reflexivity; discriminate.
Qed.

(** X13. The logo selection when the first logo of the answer passes the
    filter and no logo is an English SVG: the logo selected passes the
    filter, no logo that passes has a greater area, and every logo that
    passes and stands before it has a smaller area. *)
Theorem best_logo_greatest_png :
  forall first rest,
    passes_filter first = true ->
    forallb (fun l => negb (passes_filter l && is_svg l)) (first :: rest)
    = true ->
    exists q1 r q2,
      best_logo (first :: rest) = Some r /\
      (first :: rest = q1 ++ r :: q2)%list /\
      passes_filter r = true /\
      (forall c, In c q1 -> passes_filter c = true ->
                 logo_area c < logo_area r) /\
      (forall c, In c q2 -> passes_filter c = true ->
                 logo_area c <= logo_area r).
Proof.
  intros first rest Hfirst Hsvg. unfold best_logo.
  simpl in Hsvg. apply andb_prop in Hsvg as [Hf Hrest].
  rewrite Hfirst in Hf. simpl in Hf. apply negb_true_iff in Hf.
  rewrite logo_loop_png by assumption. rewrite Z.ltb_irrefl.
  pose proof (logo_loop_valid rest first true) as Hvalid.
  destruct (logo_loop_greatest rest [] first [] true Hrest Hfirst)
    as (q1 & r & q2 & Hr & Hsplit & Hrest').
  { intros c []. }
  { intros c []. }
  destruct (logo_loop rest first true) as [best valid].
  cbn [fst snd orb] in Hvalid, Hr. subst best valid.
  exists q1, r, q2. split; [reflexivity|]. split; [|exact Hrest'].
  exact Hsplit.
Qed.

Lemma best_logo_greatest_png_witness :
  let images := [Scenario.png_logo; Logos.french_png; Logos.big_png;
                 Scenario.jpg_logo] in
  best_logo images = Some Logos.big_png /\
  exists q1 r q2,
    best_logo images = Some r /\
    (images = q1 ++ r :: q2)%list /\
    passes_filter r = true /\
    (forall c, In c q1 -> passes_filter c = true ->
               logo_area c < logo_area r) /\
    (forall c, In c q2 -> passes_filter c = true ->
               logo_area c <= logo_area r).
Proof.
  split; [reflexivity|].
  apply (best_logo_greatest_png Scenario.png_logo
           [Logos.french_png; Logos.big_png; Scenario.jpg_logo]);
    reflexivity.
Defined.

(* ================================================================== *)
(** ** The image selection, on every list *)
(* ================================================================== *)

Section EverySelection.

Variable min_width min_height : Z.

Lemma best_image_loop_valid images :
  forall i best valid_image,
    snd (best_image_loop min_width min_height i images best valid_image)
    = valid_image || existsb (meets min_width min_height) images.
Proof.
  induction images as [|img images IH]; intros i best valid_image.
  - simpl. now rewrite orb_false_r.
  - rewrite best_image_loop_cons, IH. simpl.
    fold (meets min_width min_height img).
    destruct (meets min_width min_height img); simpl.
    + now rewrite orb_true_r.
    + reflexivity.
Qed.

(** The position the loop ends with is the one it started with or a
    position it went through. *)
Lemma best_image_loop_index images :
  forall i best valid_image,
    let final := fst (best_image_loop min_width min_height i images best
                        valid_image) in
    best_index final = best_index best \/
    (i <= best_index final < i + List.length images)%nat.
Proof.
  induction images as [|img images IH]; intros i best valid_image.
  - now left.
  - cbv zeta. rewrite best_image_loop_cons.
    match goal with
    | |- context [best_image_loop _ _ (S i) images ?b ?v] =>
        destruct (IH (S i) b v) as [Hsame|Hin]
    end.
    + rewrite Hsame. simpl.
      destruct (negb _); [now left|]. simpl.
      destruct (Z.ltb _ _); [right; simpl; lia|].
      destruct (Z.eqb _ _); [|now left].
      destruct (Z.ltb _ _); [right; simpl; lia | now left].
    + right. simpl List.length. lia.
Qed.

End EverySelection.

(** X14. The image selection ([__determine_best_image]) on every list of
    candidates, whatever their dimensions: it returns [None] exactly when
    no candidate meets the minimum resolution, and what it returns
    otherwise is one of the candidates. *)
Theorem determine_best_image_none_iff :
  forall min_width min_height images,
    (determine_best_image min_width min_height images = None <->
     existsb (meets min_width min_height) images = false) /\
    (forall r,
       determine_best_image min_width min_height images = Some r ->
       In r images).
Proof.
  intros minw minh images. unfold determine_best_image.
  pose proof (best_image_loop_valid minw minh images 0
                {| best_index := 0; best_pixels := 0; best_score := 0 |}
                false) as Hvalid.
  pose proof (best_image_loop_index minw minh images 0
                {| best_index := 0; best_pixels := 0; best_score := 0 |}
                false) as Hindex.
  cbv zeta in Hindex.
  destruct (best_image_loop minw minh 0 images _ false) as [best valid].
  cbn [fst snd orb best_index] in Hvalid, Hindex. subst valid.
  destruct (existsb (meets minw minh) images) eqn:Hex.
  - assert (Hlt : (best_index best < List.length images)%nat).
    { destruct images as [|img images]; [discriminate|].
      cbn [List.length] in *. destruct Hindex as [->|Hin]; lia. }
    apply nth_error_Some in Hlt.
    destruct (nth_error images (best_index best)) as [r|] eqn:Hr;
      [|contradiction].
    split.
    + split; discriminate.
    + intros r' [= <-]. eapply nth_error_In. exact Hr.
  - split; [split; reflexivity | discriminate].
Qed.

Lemma determine_best_image_none_iff_witness :
  determine_best_image 100 100 [Scenario.small_still] = None /\
  In Scenario.small_still [Scenario.small_still; Scenario.flat_still].
Proof.
  split.
  - apply (determine_best_image_none_iff 100 100 [Scenario.small_still]).
    reflexivity.
  - apply (determine_best_image_none_iff 0 100
             [Scenario.small_still; Scenario.flat_still]).
    reflexivity.
Defined.

(* ================================================================== *)
(** ** The generic titles of a language *)
(* ================================================================== *)

Lemma append_inj_l (s a b : string) : s ++ a = s ++ b -> a = b.
Proof.
  induction s as [|c s IH]; simpl; [trivial|].
  intros [= H]. now apply IH.
Qed.

Lemma length_append (a b : string) :
  String.length (a ++ b) = (String.length a + String.length b)%nat.
Proof. induction a as [|c a IH]; simpl; [reflexivity | now rewrite IH]. Qed.

Lemma append_inj_r (s a b : string) : a ++ s = b ++ s -> a = b.
Proof.
  intros H.
  assert (Hlen : String.length a = String.length b).
  { apply (f_equal String.length) in H. rewrite !length_append in H. lia. }
  revert b H Hlen. induction a as [|c a IH]; intros [|c' b] H Hlen;
    try discriminate; [reflexivity|].
  simpl in H, Hlen. injection H as -> H. f_equal. apply IH; [exact H | lia].
Qed.

(** [str] of an integer determines the integer. *)
Lemma str_of_int_inj (n m : Z) : str_of_int n = str_of_int m -> n = m.
Proof.
  unfold str_of_int. intros H.
  assert (Hnil : forall z, Z.to_int z <> Decimal.Pos Decimal.Nil /\
                           Z.to_int z <> Decimal.Neg Decimal.Nil).
  { intros [|p|p]; simpl; split; try discriminate;
      intros [= Hp]; now apply DecimalPos.Unsigned.to_uint_nonnil in Hp. }
  apply (f_equal NilZero.int_of_string) in H.
  rewrite !NilZero.isi in H by apply Hnil.
  injection H as H. now apply DecimalZ.to_int_inj.
Qed.

Lemma format_inj (generic : string * string) (n m : Z) :
  format generic n = format generic m -> n = m.
Proof.
  unfold format. intros H. apply append_inj_l in H.
  apply append_inj_r in H. now apply str_of_int_inj.
Qed.

(** X15. The generic title test ([__is_generic_title]) for a language code
    of the table: the title made from the format of the language with the
    number [n] is generic exactly when [n] is the episode number of the
    episode or its absolute number. *)
Theorem is_generic_title_format_iff :
  forall language_code generic ei n,
    map_get String.eqb language_code GENERIC_TITLE_FORMATS = Some generic ->
    (is_generic_title (format generic n) language_code ei = true <->
     n = episode_number ei \/ abs_number ei = Some n).
Proof.
  intros language_code generic ei n Hcode. unfold is_generic_title.
  rewrite Hcode. destruct (abs_number ei) as [abs|].
  - rewrite orb_true_iff, !String.eqb_eq. split.
    + intros [H|H]; apply format_inj in H; [now left | right; congruence].
    + intros [->|[= ->]]; [now left | now right].
  - rewrite String.eqb_eq. split.
    + intros H. apply format_inj in H. now left.
    + intros [->|H]; [reflexivity | discriminate].
Qed.

Lemma is_generic_title_format_iff_witness :
  is_generic_title "17. epizoda" "cs" Scenario.finale = true /\
  is_generic_title "5. epizoda" "cs" Scenario.finale = true /\
  (is_generic_title "50. epizoda" "cs" Scenario.finale = true <->
   50 = 5 \/ Some 17 = Some 50).
Proof.
  split; [|split].
  - apply (is_generic_title_format_iff "cs" ("", ". epizoda")
             Scenario.finale 17 eq_refl).
    now right.
  - apply (is_generic_title_format_iff "cs" ("", ". epizoda")
             Scenario.finale 5 eq_refl).
    now left.
  - apply (is_generic_title_format_iff "cs" ("", ". epizoda")
             Scenario.finale 50 eq_refl).
Defined.

(* ================================================================== *)
(** ** The three queries and the blacklist *)
(* ================================================================== *)

Lemma is_blacklisted_blocked clock retry si ei query_type k st :
  blacklist_key si ei query_type = Ok k ->
  blocked clock retry st query_type k ->
  exists st',
    is_blacklisted clock retry si ei query_type st = (Ok true, st') /\
    same_but_clock st st'.
Proof.
  intros Hkey (sec & entry & failures & next & Hsec & Hent & Hf & Hn & Hb).
  rewrite (is_blacklisted_present _ _ _ _ _ _ _ _ _ _ _
             Hkey Hsec Hent Hf Hn).
  destruct (Z.ltb_spec retry failures) as [Hover|Hle].
  - exists st. repeat split.
  - destruct Hb as [Hb|Hb]; [lia|].
    exists (snd (now clock st)).
    destruct (Z.ltb_spec (clock (ticks st)) next); [|lia].
    repeat split.
Qed.

(** X16. A blacklisted request is not sent: when the entry of the request
    has a failure count above the retry count, or a next time that is
    still ahead, each of the three queries returns [None] at once; no
    request is sent, the series is not resolved, and the blacklist and the
    identifier map are as before. *)
Theorem blacklisted_sends_nothing :
  forall P clock SeriesInfo_set_tmdb_id matches tmdb_retry_count
         min_width min_height si ei title_match language_code st,
    let image := get_source_image P clock SeriesInfo_set_tmdb_id matches
                   tmdb_retry_count min_width min_height si ei title_match
                   st in
    let title := get_episode_title P clock SeriesInfo_set_tmdb_id matches
                   tmdb_retry_count si ei language_code st in
    let logo := get_series_logo P clock SeriesInfo_set_tmdb_id
                  tmdb_retry_count si st in
    (blocked clock tmdb_retry_count st "image" (episode_key si ei) ->
     fst image = Ok (si, None) /\ same_but_clock st (snd image)) /\
    (blocked clock tmdb_retry_count st "title" (episode_key si ei) ->
     fst title = Ok (si, None) /\ same_but_clock st (snd title)) /\
    (blocked clock tmdb_retry_count st "logo" (full_name si) ->
     fst logo = Ok (si, None) /\ same_but_clock st (snd logo)).
Proof.
  intros P clock set matches retry minw minh si ei tm lc st image title logo.
  subst image title logo. split; [|split]; intros Hb.
  - destruct (is_blacklisted_blocked clock retry si (Some ei) "image"
                (episode_key si ei) st eq_refl Hb) as (st' & Hrun & Hsame).
    unfold get_source_image, bind. rewrite Hrun. now split.
  - destruct (is_blacklisted_blocked clock retry si (Some ei) "title"
                (episode_key si ei) st eq_refl Hb) as (st' & Hrun & Hsame).
    unfold get_episode_title, bind. rewrite Hrun. now split.
  - destruct (is_blacklisted_blocked clock retry si None "logo"
                (full_name si) st eq_refl Hb) as (st' & Hrun & Hsame).
    unfold get_series_logo, bind. rewrite Hrun. now split.
Qed.

Lemma blacklisted_sends_nothing_witness :
  let st := Scenario.start (Scenario.one_entry 4 0) in
  let run := get_source_image Scenario.nothing Scenario.clock
               Scenario.overwrite Scenario.same_title BLACKLIST_THRESHOLD
               0 0 Scenario.show Scenario.pilot true st in
  fst run = Ok (Scenario.show, None) /\ same_but_clock st (snd run).
Proof.
  destruct (blacklisted_sends_nothing Scenario.nothing Scenario.clock
              Scenario.overwrite Scenario.same_title BLACKLIST_THRESHOLD
              0 0 Scenario.show Scenario.pilot true "en-US"
              (Scenario.start (Scenario.one_entry 4 0))) as [Himage _].
  apply Himage.
  exists [(Scenario.pilot_key, VDict [("failures", VInt 4);
                                     ("next", VDatetime 0)])],
    [("failures", VInt 4); ("next", VDatetime 0)], 4, 0.
  repeat split. left. reflexivity.
Defined.

(** A run of a bound method that returns went through both parts. *)
Lemma bind_Ok {A B} (c : M A) (k : A -> M B) (st : state) (b : B)
    (st' : state) :
  bind c k st = (Ok b, st') ->
  exists a st1, c st = (Ok a, st1) /\ k a st1 = (Ok b, st').
Proof.
  unfold bind. destruct (c st) as [[a|e] st1]; [|discriminate].
  intros H. now exists a, st1.
Qed.

(** No recording returns a URL or a title. *)
Lemma recorded_returns_none clock si0 ei query_type (si : SeriesInfo)
    (st : state) (r : SeriesInfo * option string) (st' : state) :
  bind (update_blacklist clock si0 ei query_type)
    (fun _ => ret (si, None)) st = (Ok r, st') ->
  snd r = None.
Proof.
  intros H. apply bind_Ok in H as (u & st1 & _ & H).
  now injection H as <- _.
Qed.

(** The steps of an image query that returns a URL. *)
Lemma get_source_image_returns P clock set matches retry minw minh si ei tm
    st si' url st' :
  get_source_image P clock set matches retry minw minh si ei tm st
  = (Ok (si', Some url), st') ->
  exists st1 si1 st2 i st3 images best,
    is_blacklisted clock retry si (Some ei) "image" st = (Ok false, st1) /\
    set_tmdb_id P set si st1 = (Ok si1, st2) /\
    find_episode P set matches si1 ei tm st2 = (Ok (si', Some i), st3) /\
    stills (provider_episode_images P (tmdb_id si') (idx_season i)
              (idx_episode i)) = Some images /\
    determine_best_image minw minh images = Some best /\
    url = image_url (file_path best) /\
    st' = log [ReqEpisodeImages (tmdb_id si') (idx_season i)
                 (idx_episode i)] st3.
Proof.
  unfold get_source_image. intros H.
  apply bind_Ok in H as (blacklisted & st1 & H1 & H).
  destruct blacklisted; [discriminate|].
  apply bind_Ok in H as (si1 & st2 & H2 & H).
  apply bind_Ok in H as ([si2 found] & st3 & H3 & H).
  cbn [fst snd] in H.
  destruct found as [i|].
  2:{ apply recorded_returns_none in H. discriminate. }
  unfold bind at 1, _get in H.
  destruct (stills _) as [images|] eqn:Hstills; [|discriminate].
  destruct images as [|img images].
  { apply recorded_returns_none in H. discriminate. }
  destruct (determine_best_image minw minh (img :: images)) as [best|]
    eqn:Hbest.
  2:{ apply recorded_returns_none in H. discriminate. }
  injection H as <- <- <-.
  now exists st1, si1, st2, i, st3, (img :: images), best.
Qed.

(** X17. What the image query returns ([get_source_image]) when both
    minimum dimensions are positive: a URL it returns is the base URL
    followed by the file path of a still of the answer to its last request;
    that still meets the minimum resolution, and no still that meets it has
    more pixels, or as many pixels and a greater integer part of the vote
    average; the blacklist is as before the call. *)
Theorem get_source_image_sound :
  forall P clock SeriesInfo_set_tmdb_id matches tmdb_retry_count
         min_width min_height si ei title_match st si' url st',
    0 < min_width -> 0 < min_height ->
    get_source_image P clock SeriesInfo_set_tmdb_id matches
      tmdb_retry_count min_width min_height si ei title_match st
    = (Ok (si', Some url), st') ->
    blacklist st' = blacklist st /\
    exists before s e images r,
      trace st' = (before ++ [ReqEpisodeImages (tmdb_id si') s e])%list /\
      stills (provider_episode_images P (tmdb_id si') s e) = Some images /\
      In r images /\
      meets min_width min_height r = true /\
      (forall c, In c images -> meets min_width min_height c = true ->
                 lex_le c r) /\
      url = image_url (file_path r).
Proof.
  intros P clock set matches retry minw minh si ei tm st si' url st'
         Hw Hh Hrun.
  apply get_source_image_returns in Hrun
    as (st1 & si1 & st2 & i & st3 & images & best
        & H1 & H2 & H3 & Hstills & Hbest & -> & ->).
  split.
  { simpl. eapply keeps_resolution; eassumption. }
  exists (trace st3), (idx_season i), (idx_episode i), images, best.
  split; [reflexivity|]. split; [exact Hstills|].
  assert (Hpos : forall c, In c images -> meets minw minh c = true ->
                           0 < pixels c).
  { intros c _ Hc. unfold meets, meets_minimum_resolution in Hc.
    apply andb_prop in Hc as [Hcw Hch]. unfold pixels. nia. }
  pose proof (determine_best_image_invariant minw minh images Hpos) as Hinv.
  unfold determine_best_image in Hbest. cbv zeta in Hinv.
  destruct (best_image_loop minw minh 0 images _ false) as [b valid].
  destruct valid; [|discriminate]. simpl in Hinv.
  destruct Hinv as (r & Hr & Hmeets & _ & _ & Hall).
  cbn [fst] in Hr, Hall. assert (r = best) by congruence. subst r.
  split; [eapply nth_error_In; exact Hr|].
  split; [exact Hmeets|]. split; [|reflexivity].
  intros c Hc Hm. apply In_nth_error in Hc as [j Hj].
  now apply (Hall j c).
Qed.

Lemma get_source_image_sound_witness :
  let st := Scenario.mapped EMPTY_BLACKLIST in
  let run := get_source_image
               (Answers.with_stills
                  [Scenario.small_still; Scenario.square_still;
                   Scenario.wide_still] "Pilot")
               Scenario.clock Scenario.overwrite Scenario.same_title
               BLACKLIST_THRESHOLD 50 50 Scenario.show Scenario.pilot true
               st in
  fst run = Ok (Scenario.resolved_show,
                Some "https://image.tmdb.org/t/p/original/w.jpg") /\
  blacklist (snd run) = blacklist st /\
  exists before s e images r,
    trace (snd run) = (before ++ [ReqEpisodeImages (Some 77) s e])%list /\
    stills (provider_episode_images
              (Answers.with_stills
                 [Scenario.small_still; Scenario.square_still;
                  Scenario.wide_still] "Pilot") (Some 77) s e)
    = Some images /\
    In r images /\ meets 50 50 r = true /\
    (forall c, In c images -> meets 50 50 c = true -> lex_le c r) /\
    "https://image.tmdb.org/t/p/original/w.jpg" = image_url (file_path r).
Proof.
  split; [reflexivity|].
  apply (get_source_image_sound
           (Answers.with_stills
              [Scenario.small_still; Scenario.square_still;
               Scenario.wide_still] "Pilot")
           Scenario.clock Scenario.overwrite Scenario.same_title
           BLACKLIST_THRESHOLD 50 50 Scenario.show Scenario.pilot true
           (Scenario.mapped EMPTY_BLACKLIST) Scenario.resolved_show);
    reflexivity.
Defined.

(** The steps of a title query that returns a title. *)
Lemma get_episode_title_returns P clock set matches retry si ei
    language_code st si' t st' :
  get_episode_title P clock set matches retry si ei language_code st
  = (Ok (si', Some t), st') ->
  exists st1 si1 st2 i st3,
    is_blacklisted clock retry si (Some ei) "title" st = (Ok false, st1) /\
    set_tmdb_id P set si st1 = (Ok si1, st2) /\
    find_episode P set matches si1 ei true st2 = (Ok (si', Some i), st3) /\
    let res := provider_episode_title P (tmdb_id si') (idx_season i)
                 (idx_episode i) language_code in
    reports_not_found (ep_success res) = false /\
    ep_name res = Some t /\
    is_generic_title t language_code ei = false /\
    st' = log [ReqEpisodeTitle (tmdb_id si') (idx_season i) (idx_episode i)
                 language_code] st3.
Proof.
  unfold get_episode_title. intros H.
  apply bind_Ok in H as (blacklisted & st1 & H1 & H).
  destruct blacklisted; [discriminate|].
  apply bind_Ok in H as (si1 & st2 & H2 & H).
  apply bind_Ok in H as ([si2 found] & st3 & H3 & H).
  cbn [fst snd] in H.
  destruct found as [i|].
  2:{ apply recorded_returns_none in H. discriminate. }
  unfold bind at 1, _get in H.
  destruct (reports_not_found _) eqn:Hfound.
  { apply recorded_returns_none in H. discriminate. }
  destruct (ep_name _) as [t'|] eqn:Hname; [|discriminate].
  destruct (is_generic_title t' language_code ei) eqn:Hgeneric.
  { apply recorded_returns_none in H. discriminate. }
  injection H as <- <- <-.
  now exists st1, si1, st2, i, st3.
Qed.

(** X18. What the title query returns ([get_episode_title]): a title it
    returns is the name in the answer to its last request, the answer does
    not report a failure, the title is not generic for the language code
    of the call, and the blacklist is as before the call. *)
Theorem get_episode_title_sound :
  forall P clock SeriesInfo_set_tmdb_id matches tmdb_retry_count
         si ei language_code st si' t st',
    get_episode_title P clock SeriesInfo_set_tmdb_id matches
      tmdb_retry_count si ei language_code st
    = (Ok (si', Some t), st') ->
    is_generic_title t language_code ei = false /\
    blacklist st' = blacklist st /\
    exists before s e,
      trace st'
      = (before ++ [ReqEpisodeTitle (tmdb_id si') s e language_code])%list /\
      let res := provider_episode_title P (tmdb_id si') s e language_code in
      reports_not_found (ep_success res) = false /\ ep_name res = Some t.
Proof.
  intros P clock set matches retry si ei language_code st si' t st' Hrun.
  apply get_episode_title_returns in Hrun
    as (st1 & si1 & st2 & i & st3 & H1 & H2 & H3 & Hfound & Hname
        & Hgeneric & ->).
  split; [exact Hgeneric|]. split.
  { simpl. eapply keeps_resolution; eassumption. }
  exists (trace st3), (idx_season i), (idx_episode i).
  split; [reflexivity|]. now split.
Qed.

Lemma get_episode_title_sound_witness :
  let st := Scenario.mapped EMPTY_BLACKLIST in
  let run := get_episode_title (Answers.with_stills [] "The Beginning")
               Scenario.clock Scenario.overwrite Scenario.same_title
               BLACKLIST_THRESHOLD Scenario.show Scenario.pilot "en" st in
  fst run = Ok (Scenario.resolved_show, Some "The Beginning") /\
  is_generic_title "The Beginning" "en" Scenario.pilot = false /\
  blacklist (snd run) = blacklist st.
Proof.
  split; [reflexivity|].
  destruct (get_episode_title_sound (Answers.with_stills [] "The Beginning")
              Scenario.clock Scenario.overwrite Scenario.same_title
              BLACKLIST_THRESHOLD Scenario.show Scenario.pilot "en"
              (Scenario.mapped EMPTY_BLACKLIST) Scenario.resolved_show
              "The Beginning" _ eq_refl) as (Hgeneric & Hbl & _).
  split; [exact Hgeneric | exact Hbl].
Defined.

(* ================================================================== *)
(** ** The failures the queries record *)
(* ================================================================== *)

Section Recording.

Variable P : provider.
Variable clock : nat -> Z.
Variable SeriesInfo_set_tmdb_id : option Z -> option Z -> option Z.
Variable matches : string -> string -> bool.

(** The resolution changes the ID of the series only, and does not read
    the clock. *)
Lemma set_tmdb_id_series si st si1 st1 :
  set_tmdb_id P SeriesInfo_set_tmdb_id si st = (Ok si1, st1) ->
  full_name si1 = full_name si /\ ticks st1 = ticks st /\
  blacklist st1 = blacklist st.
Proof.
  intros Hrun.
  pose proof (keeps_set_tmdb_id P SeriesInfo_set_tmdb_id si st) as Hbl.
  rewrite Hrun in Hbl. simpl in Hbl.
  assert (Hsearch :
            forall st0,
              search_by_title P SeriesInfo_set_tmdb_id si st0
              = (Ok si1, st1) ->
              full_name si1 = full_name si /\ ticks st1 = ticks st0).
  { intros st0. unfold search_by_title, bind, _get.
    destruct (Z.eqb _ 0); [now intros [= <- <-]|].
    destruct (results _); [discriminate|]. now intros [= <- <-]. }
  revert Hrun. unfold set_tmdb_id, bind, get_id_map. simpl.
  destruct (match series_tvdb_id si with
            | Some tv => map_get Z.eqb tv (id_map_id st)
            | None => None
            end).
  { now intros [= <- <-]. }
  destruct (truthy_id _).
  { now intros [= <- <-]. }
  unfold match_by_tvdb_id.
  destruct (series_tvdb_id si) as [tv|].
  2:{ intros H. destruct (Hsearch st H) as [Hn Ht]. now split. }
  unfold bind, _get.
  destruct (tv_results (provider_find P tv)) as [|id0 [|id1 rest]];
    try (intros H; destruct (Hsearch _ H) as [Hn Ht]; now split).
  now intros [= <- <-].
Qed.

(** The matcher changes the ID of the series only, and the trace of the
    requests only; when it finds nothing the series is as it was. *)
Lemma find_episode_series si ei title_match st si2 found st2 :
  find_episode P SeriesInfo_set_tmdb_id matches si ei title_match st
  = (Ok (si2, found), st2) ->
  full_name si2 = full_name si /\ ticks st2 = ticks st /\
  blacklist st2 = blacklist st /\
  (found = None -> si2 = si).
Proof.
  intros Hrun.
  destruct (sends_find_episode P SeriesInfo_set_tmdb_id matches si ei
              title_match st) as (reqs & Hst & _).
  rewrite Hrun in Hst. simpl in Hst. subst st2.
  assert (Hindex :
            forall st0 st',
              bind (find_by_index P matches si ei title_match)
                (fun i => ret (si, i)) st0 = (Ok (si2, found), st') ->
              si2 = si).
  { intros st0 st' H. apply bind_Ok in H as (i & st1 & _ & H).
    now injection H as <- _ _. }
  revert Hrun. unfold find_episode. destruct (tvdb_id ei) as [tv|].
  - intros H. apply bind_Ok in H as (res & st1 & _ & H).
    destruct res as [|r res].
    + apply Hindex in H. subst si2. repeat split.
    + injection H as <- <- _. repeat split. discriminate.
  - intros H. apply Hindex in H. subst si2. repeat split.
Qed.

(** The first failure of a request, recorded after the resolution of the
    series and the search of the episode. *)
Lemma record_first_failure ei query_type k sec st si' st' :
  blacklist_key si' ei query_type = Ok k ->
  dict_get query_type (blacklist st) = Some (VDict sec) ->
  dict_get k sec = None ->
  blacklist st' = blacklist st -> ticks st' = ticks st ->
  let run := bind (update_blacklist clock si' ei query_type)
               (fun _ => ret (si', @None string)) st' in
  fst run = Ok (si', None) /\
  trace (snd run) = trace st' /\
  blacklist_entry (blacklist (snd run)) query_type k
  = Some (new_entry (clock (ticks st) + one_day)) /\
  ticks (snd run) = S (ticks st) /\
  forall retry, blocked clock retry (snd run) query_type k <->
                retry < 1 \/ clock (S (ticks st)) < clock (ticks st) + one_day.
Proof.
  intros Hkey Hsec Habs Hbl Hticks run. subst run. unfold bind.
  rewrite <- Hbl in Hsec.
  rewrite (update_blacklist_absent _ _ _ _ _ _ _ Hkey Hsec Habs).
  cbn [fst snd ret]. rewrite Hticks.
  split; [reflexivity|]. split; [reflexivity|].
  split; [apply blacklist_entry_set|]. split; [simpl; now rewrite Hticks|].
  intros retry. unfold blocked. simpl. rewrite dict_get_set_same, Hticks.
  split.
  - intros (sec' & entry & failures & next & [= <-] & Hent & Hf & Hn & Hb).
    rewrite dict_get_set_same in Hent. injection Hent as <-.
    simpl in Hf, Hn. injection Hf as <-. injection Hn as <-. exact Hb.
  - intros Hb. eexists _, _, 1, _. split; [reflexivity|].
    split; [apply dict_get_set_same|]. repeat split. exact Hb.
Qed.

End Recording.

(** X19. An episode that is not found is recorded: when the request is not
    in the image section, the series is resolved and the matcher finds no
    episode, [get_source_image] returns [None], sends nothing after the
    matcher, and leaves an entry with one failure and a next time one day
    after the reading of the clock; a further call while the clock is
    before that time returns [None] without another request. *)
Theorem get_source_image_not_found_recorded :
  forall P clock SeriesInfo_set_tmdb_id matches tmdb_retry_count
         min_width min_height si ei title_match st sec si1 st1 si2 st2,
    dict_get "image" (blacklist st) = Some (VDict sec) ->
    dict_get (episode_key si ei) sec = None ->
    set_tmdb_id P SeriesInfo_set_tmdb_id si st = (Ok si1, st1) ->
    find_episode P SeriesInfo_set_tmdb_id matches si1 ei title_match st1
    = (Ok (si2, None), st2) ->
    let query := get_source_image P clock SeriesInfo_set_tmdb_id matches
                   tmdb_retry_count min_width min_height in
    let run := query si ei title_match st in
    fst run = Ok (si2, None) /\
    trace (snd run) = trace st2 /\
    blacklist_entry (blacklist (snd run)) "image" (episode_key si ei)
    = Some (new_entry (clock (ticks st) + one_day)) /\
    (clock (S (ticks st)) < clock (ticks st) + one_day ->
     let again := query si2 ei title_match (snd run) in
     fst again = Ok (si2, None) /\ same_but_clock (snd run) (snd again)).
Proof.
  intros P clock set matches retry minw minh si ei tm st sec si1 st1 si2 st2
         Hsec Habs H1 H2 query run.
  destruct (set_tmdb_id_series _ _ _ _ _ _ H1) as (Hn1 & Ht1 & Hb1).
  destruct (find_episode_series _ _ _ _ _ _ _ _ _ _ H2)
    as (Hn2 & Ht2 & Hb2 & _).
  assert (Hkey : blacklist_key si2 (Some ei) "image"
                 = Ok (episode_key si ei)).
  { unfold blacklist_key, episode_key. simpl. now rewrite Hn2, Hn1. }
  destruct (record_first_failure clock (Some ei) "image" (episode_key si ei)
              sec st si2 st2 Hkey Hsec Habs)
    as (Hres & Htrace & Hentry & Hticks & Hblocked);
    [congruence | congruence |].
  assert (Hrun : run
                 = bind (update_blacklist clock si2 (Some ei) "image")
                     (fun _ => ret (si2, None)) st2).
  { subst run query. unfold get_source_image, bind at 1.
    rewrite (is_blacklisted_absent clock retry si (Some ei) "image"
               (episode_key si ei) sec st eq_refl Hsec Habs).
    unfold bind at 1. rewrite H1. unfold bind at 1. now rewrite H2. }
  rewrite Hrun. split; [exact Hres|]. split; [exact Htrace|].
  split; [exact Hentry|].
  intros Hearly again. subst again query.
  destruct (is_blacklisted_blocked clock retry si2 (Some ei) "image"
              (episode_key si ei) _ Hkey
              (proj2 (Hblocked retry) (or_intror Hearly)))
    as (st' & Hagain & Hsame).
  match goal with
  | |- fst ?again = _ /\ _ =>
      assert (Hq : again = (Ok (si2, None), st'))
        by (unfold get_source_image, bind at 1; now rewrite Hagain);
      rewrite Hq
  end.
  split; [reflexivity | exact Hsame].
Qed.

Lemma get_source_image_not_found_recorded_witness :
  let query := get_source_image Scenario.nothing Scenario.clock
                 Scenario.overwrite Scenario.same_title BLACKLIST_THRESHOLD
                 0 0 in
  let run := query Scenario.show Scenario.pilot true
               (Scenario.start EMPTY_BLACKLIST) in
  fst run = Ok (Scenario.show, None) /\
  trace (snd run) = [ReqSearch "Show" 2020] /\
  blacklist_entry (blacklist (snd run)) "image" Scenario.pilot_key
  = Some (new_entry (1000 + one_day)) /\
  fst (query Scenario.show Scenario.pilot true (snd run))
  = Ok (Scenario.show, None) /\
  trace (snd (query Scenario.show Scenario.pilot true (snd run)))
  = [ReqSearch "Show" 2020].
Proof.
  destruct (get_source_image_not_found_recorded Scenario.nothing
              Scenario.clock Scenario.overwrite Scenario.same_title
              BLACKLIST_THRESHOLD 0 0 Scenario.show Scenario.pilot true
              (Scenario.start EMPTY_BLACKLIST) [] Scenario.show _
              Scenario.show _ eq_refl eq_refl eq_refl eq_refl)
    as (Hres & Htrace & Hentry & Hagain).
  split; [exact Hres|]. split; [exact Htrace|]. split; [exact Hentry|].
  destruct Hagain as [Hnone Hsame]; [reflexivity|].
  split; [exact Hnone|]. destruct Hsame as [Hsent _].
  rewrite Hsent. exact Htrace.
Defined.





(** X22. A series without usable logo is recorded: when the series is not
    in the logo section, is resolved, and no logo of the answer passes the
    filter (or the answer has no logos), [get_series_logo] returns [None]
    after the logo request and leaves an entry with one failure and a next
    time one day after the reading of the clock; a further call while the
    clock is before that time returns [None] without another request. *)
Theorem get_series_logo_none_recorded :
  forall P clock SeriesInfo_set_tmdb_id tmdb_retry_count si st sec si1 st1,
    dict_get "logo" (blacklist st) = Some (VDict sec) ->
    dict_get (full_name si) sec = None ->
    set_tmdb_id P SeriesInfo_set_tmdb_id si st = (Ok si1, st1) ->
    existsb passes_filter
      (match logos (provider_series_images P (tmdb_id si1)) with
       | Some images => images
       | None => []
       end) = false ->
    let query := get_series_logo P clock SeriesInfo_set_tmdb_id
                   tmdb_retry_count in
    let run := query si st in
    fst run = Ok (si1, None) /\
    trace (snd run) = (trace st1 ++ [ReqSeriesImages (tmdb_id si1)])%list /\
    blacklist_entry (blacklist (snd run)) "logo" (full_name si)
    = Some (new_entry (clock (ticks st) + one_day)) /\
    (clock (S (ticks st)) < clock (ticks st) + one_day ->
     let again := query si1 (snd run) in
     fst again = Ok (si1, None) /\ same_but_clock (snd run) (snd again)).
Proof.
  intros P clock set retry si st sec si1 st1 Hsec Habs H1 Hnone query run.
  destruct (set_tmdb_id_series _ _ _ _ _ _ H1) as (Hn1 & Ht1 & Hb1).
  assert (Hkey : blacklist_key si1 None "logo" = Ok (full_name si)).
  { unfold blacklist_key. simpl. now rewrite Hn1. }
  set (st2 := log [ReqSeriesImages (tmdb_id si1)] st1).
  destruct (record_first_failure clock None "logo" (full_name si)
              sec st si1 st2 Hkey Hsec Habs)
    as (Hres & Htrace & Hentry & _ & Hblocked);
    [simpl; congruence | simpl; congruence |].
  assert (Hbest : best_logo
                    (match logos (provider_series_images P (tmdb_id si1)) with
                     | Some images => images
                     | None => []
                     end) = None).
  { unfold best_logo.
    destruct (match logos (provider_series_images P (tmdb_id si1)) with
              | Some images => images
              | None => []
              end) as [|first images]; [reflexivity|].
    pose proof (logo_loop_valid (first :: images) first false) as Hvalid.
    destruct (logo_loop (first :: images) first false) as [best valid].
    cbn [snd orb] in Hvalid. rewrite Hnone in Hvalid. now subst valid. }
  assert (Hrun : run
                 = bind (update_blacklist clock si1 None "logo")
                     (fun _ => ret (si1, None)) st2).
  { subst run query. unfold get_series_logo, bind at 1.
    rewrite (is_blacklisted_absent clock retry si None "logo"
               (full_name si) sec st eq_refl Hsec Habs).
    unfold bind at 1. rewrite H1. unfold bind at 1, _get. fold st2.
    now rewrite Hbest. }
  rewrite Hrun. split; [exact Hres|]. split; [exact Htrace|].
  split; [exact Hentry|].
  intros Hearly again. subst again query.
  destruct (is_blacklisted_blocked clock retry si1 None "logo"
              (full_name si) _ Hkey
              (proj2 (Hblocked retry) (or_intror Hearly)))
    as (st' & Hagain & Hsame).
  match goal with
  | |- fst ?again = _ /\ _ =>
      assert (Hq : again = (Ok (si1, None), st'))
        by (unfold get_series_logo, bind at 1; now rewrite Hagain);
      rewrite Hq
  end.
  split; [reflexivity | exact Hsame].
Qed.

Lemma get_series_logo_none_recorded_witness :
  let query := get_series_logo
                 (Scenario.with_logos [Scenario.jpg_logo; Logos.french_png])
                 Scenario.clock Scenario.overwrite BLACKLIST_THRESHOLD in
  let run := query Scenario.show (Scenario.mapped EMPTY_BLACKLIST) in
  fst run = Ok (Scenario.resolved_show, None) /\
  trace (snd run) = [ReqSeriesImages (Some 77)] /\
  blacklist_entry (blacklist (snd run)) "logo" "Show (2020)"
  = Some (new_entry (1000 + one_day)) /\
  fst (query Scenario.resolved_show (snd run))
  = Ok (Scenario.resolved_show, None) /\
  trace (snd (query Scenario.resolved_show (snd run)))
  = [ReqSeriesImages (Some 77)].
Proof.
  destruct (get_series_logo_none_recorded
              (Scenario.with_logos [Scenario.jpg_logo; Logos.french_png])
              Scenario.clock Scenario.overwrite BLACKLIST_THRESHOLD
              Scenario.show (Scenario.mapped EMPTY_BLACKLIST) []
              Scenario.resolved_show _ eq_refl eq_refl eq_refl eq_refl)
    as (Hres & Htrace & Hentry & Hagain).
  split; [exact Hres|]. split; [exact Htrace|]. split; [exact Hentry|].
  destruct Hagain as [Hnone Hsame]; [reflexivity|].
  split; [exact Hnone|]. destruct Hsame as [Hsent _].
  rewrite Hsent. exact Htrace.
Defined.

(* ================================================================== *)
(** ** The sections of the blacklist, through the queries *)
(* ================================================================== *)

Lemma keeps_sections_of_keeps_blacklist {A} (c : M A) :
  keeps_blacklist c -> keeps_sections c.
Proof. intros Hc st Hst. now rewrite Hc. Qed.

Lemma keeps_sections_bind {A B} (c : M A) (k : A -> M B) :
  keeps_sections c -> (forall a, keeps_sections (k a)) ->
  keeps_sections (bind c k).
Proof.
  intros Hc Hk st Hst. unfold bind. specialize (Hc st Hst).
  destruct (c st) as [[a|e] st']; simpl in *.
  - now apply Hk.
  - exact Hc.
Qed.

Lemma keeps_sections_ret {A} (a : A) : keeps_sections (ret a).
Proof. intros st Hst. exact Hst. Qed.

Lemma keeps_sections_record {A} clock si ei query_type (a : A) :
  keeps_sections (bind (update_blacklist clock si ei query_type)
                    (fun _ => ret a)).
Proof.
  apply keeps_sections_bind; [|intros; apply keeps_sections_ret].
  intros st Hst. now apply update_blacklist_has_sections.
Qed.

(** X23. The three queries keep the shape of the blacklist: from a state
    in which each of the three query types has a section that is a dict,
    each of [get_source_image], [get_episode_title] and [get_series_logo]
    ends in such a state, whatever the provider answers and whether the
    call returns or raises. *)
Theorem queries_keep_sections :
  forall P clock SeriesInfo_set_tmdb_id matches tmdb_retry_count
         min_width min_height si ei title_match language_code st,
    has_sections (blacklist st) ->
    has_sections
      (blacklist
         (snd (get_source_image P clock SeriesInfo_set_tmdb_id matches
                 tmdb_retry_count min_width min_height si ei title_match
                 st))) /\
    has_sections
      (blacklist
         (snd (get_episode_title P clock SeriesInfo_set_tmdb_id matches
                 tmdb_retry_count si ei language_code st))) /\
    has_sections
      (blacklist
         (snd (get_series_logo P clock SeriesInfo_set_tmdb_id
                 tmdb_retry_count si st))).
Proof.
  intros P clock set matches retry minw minh si ei tm lc st Hst.
  split; [|split]; revert st Hst.
  - change (keeps_sections
              (get_source_image P clock set matches retry minw minh si ei
                 tm)).
    unfold get_source_image.
    apply keeps_sections_bind;
      [apply keeps_sections_of_keeps_blacklist, keeps_is_blacklisted|].
    intros [|]; [apply keeps_sections_ret|].
    apply keeps_sections_bind;
      [apply keeps_sections_of_keeps_blacklist, keeps_set_tmdb_id|].
    intros si1.
    apply keeps_sections_bind;
      [apply keeps_sections_of_keeps_blacklist, keeps_find_episode|].
    intros [si2 [i|]]; cbn [fst snd]; [|apply keeps_sections_record].
    apply keeps_sections_bind;
      [apply keeps_sections_of_keeps_blacklist; intros st; reflexivity|].
    intros res. destruct (stills res) as [[|img images]|];
      [apply keeps_sections_record| |apply keeps_sections_ret].
    destruct (determine_best_image _ _ _);
      [apply keeps_sections_ret | apply keeps_sections_record].
  - change (keeps_sections
              (get_episode_title P clock set matches retry si ei lc)).
    unfold get_episode_title.
    apply keeps_sections_bind;
      [apply keeps_sections_of_keeps_blacklist, keeps_is_blacklisted|].
    intros [|]; [apply keeps_sections_ret|].
    apply keeps_sections_bind;
      [apply keeps_sections_of_keeps_blacklist, keeps_set_tmdb_id|].
    intros si1.
    apply keeps_sections_bind;
      [apply keeps_sections_of_keeps_blacklist, keeps_find_episode|].
    intros [si2 [i|]]; cbn [fst snd]; [|apply keeps_sections_record].
    apply keeps_sections_bind;
      [apply keeps_sections_of_keeps_blacklist; intros st; reflexivity|].
    intros res. destruct (reports_not_found _);
      [apply keeps_sections_record|].
    destruct (ep_name res) as [t|]; [|intros st Hst; exact Hst].
    destruct (is_generic_title _ _ _);
      [apply keeps_sections_record | apply keeps_sections_ret].
  - change (keeps_sections (get_series_logo P clock set retry si)).
    unfold get_series_logo.
    apply keeps_sections_bind;
      [apply keeps_sections_of_keeps_blacklist, keeps_is_blacklisted|].
    intros [|]; [apply keeps_sections_ret|].
    apply keeps_sections_bind;
      [apply keeps_sections_of_keeps_blacklist, keeps_set_tmdb_id|].
    intros si1.
    apply keeps_sections_bind;
      [apply keeps_sections_of_keeps_blacklist; intros st; reflexivity|].
    intros res. destruct (best_logo _);
      [apply keeps_sections_ret | apply keeps_sections_record].
Qed.

Lemma queries_keep_sections_witness :
  let st := Scenario.mapped EMPTY_BLACKLIST in
  has_sections
    (blacklist
       (snd (get_source_image Scenario.nothing Scenario.clock
               Scenario.overwrite Scenario.same_title BLACKLIST_THRESHOLD
               0 0 Scenario.show Scenario.pilot true st))) /\
  has_sections
    (blacklist
       (snd (get_episode_title Scenario.nothing Scenario.clock
               Scenario.overwrite Scenario.same_title BLACKLIST_THRESHOLD
               Scenario.show Scenario.pilot "en" st))) /\
  has_sections
    (blacklist
       (snd (get_series_logo Scenario.nothing Scenario.clock
               Scenario.overwrite BLACKLIST_THRESHOLD Scenario.show st))).
Proof.
  apply (queries_keep_sections Scenario.nothing Scenario.clock
           Scenario.overwrite Scenario.same_title BLACKLIST_THRESHOLD 0 0
           Scenario.show Scenario.pilot true "en"
           (Scenario.mapped EMPTY_BLACKLIST)).
  apply EMPTY_BLACKLIST_has_sections.
Defined.

(* ================================================================== *)
(** ** The download of a season *)
(* ================================================================== *)

Lemma subsequence_nil_l {A} (l : list A) : subsequence [] l.
Proof. induction l; constructor; assumption. Qed.

Lemma subsequence_length {A} (l1 l2 : list A) :
  subsequence l1 l2 -> (List.length l1 <= List.length l2)%nat.
Proof. induction 1; simpl; lia. Qed.

Section SeasonLoop.

Variable P : provider.
Variable clock : nat -> Z.
Variable SeriesInfo_set_tmdb_id : option Z -> option Z -> option Z.
Variable matches : string -> string -> bool.
Variable tmdb_retry_count : Z.
Variable min_width min_height : Z.
Variable EpisodeInfo_init : Z -> Z -> EpisodeInfo.

(** What the loop adds to the downloads: one file for each episode of a
    subsequence, each from a URL of the image base. *)
Lemma download_episodes_adds season episodes :
  forall si downloaded st,
    exists kept added,
      subsequence kept episodes /\
      snd (fst (download_episodes P clock SeriesInfo_set_tmdb_id matches
                  tmdb_retry_count min_width min_height EpisodeInfo_init
                  season episodes si downloaded st))
      = (downloaded ++ added)%list /\
      map snd added = map (filename season) kept /\
      Forall (fun d => exists path, fst d = image_url path) added.
Proof.
  induction episodes as [|episode episodes IH]; intros si downloaded st.
  - exists [], []. simpl. rewrite app_nil_r.
    repeat split; constructor.
  - simpl.
    destruct (get_source_image P clock SeriesInfo_set_tmdb_id matches
                tmdb_retry_count min_width min_height si
                (EpisodeInfo_init season episode) false st)
      as [[[si' answer]|e] st'] eqn:Hquery.
    2:{ exists [], []. simpl. rewrite app_nil_r.
        repeat split; [apply subsequence_nil_l | constructor]. }
    assert (Hskip :
              exists kept added,
                subsequence kept (episode :: episodes) /\
                snd (fst (download_episodes P clock SeriesInfo_set_tmdb_id
                            matches tmdb_retry_count min_width min_height
                            EpisodeInfo_init season episodes si' downloaded
                            st'))
                = (downloaded ++ added)%list /\
                map snd added = map (filename season) kept /\
                Forall (fun d => exists path, fst d = image_url path) added).
    { destruct (IH si' downloaded st') as (kept & added & Hsub & Hrest).
      exists kept, added. split; [now constructor | exact Hrest]. }
    destruct answer as [url|]; [|exact Hskip].
    destruct (negb (String.eqb url "")); [|exact Hskip].
    destruct (IH si' (downloaded ++ [(url, filename season episode)])%list
                st')
      as (kept & added & Hsub & Hrun & Hnames & Hurls).
    exists (episode :: kept), ((url, filename season episode) :: added).
    split; [now constructor|]. split; [|split].
    + rewrite Hrun. now rewrite <- app_assoc.
    + simpl. now rewrite Hnames.
    + constructor; [|exact Hurls].
      apply get_source_image_returns in Hquery
        as (_ & _ & _ & _ & _ & _ & best & _ & _ & _ & _ & _ & -> & _).
      now exists (file_path best).
Qed.

End SeasonLoop.

Lemma episodes_upto_nth (n i : Z) :
  1 <= i <= n -> nth_error (episodes_upto n) (Z.to_nat (i - 1)) = Some i.
Proof.
  intros Hi. unfold episodes_upto.
  rewrite nth_error_map, nth_error_seq.
  destruct (Nat.ltb_spec (Z.to_nat (i - 1)) (Z.to_nat n)); [|lia].
  simpl. f_equal. lia.
Qed.

Section SeasonTurns.

Variable P : provider.
Variable clock : nat -> Z.
Variable SeriesInfo_set_tmdb_id : option Z -> option Z -> option Z.
Variable matches : string -> string -> bool.
Variable tmdb_retry_count : Z.
Variable min_width min_height : Z.
Variable EpisodeInfo_init : Z -> Z -> EpisodeInfo.

(** The loop over two lists of episodes is the loop over the first, then,
    unless it raised, the loop over the second. *)
Lemma download_episodes_app season l1 l2 :
  forall si downloaded st,
    download_episodes P clock SeriesInfo_set_tmdb_id matches
      tmdb_retry_count min_width min_height EpisodeInfo_init season
      (l1 ++ l2) si downloaded st
    = match download_episodes P clock SeriesInfo_set_tmdb_id matches
              tmdb_retry_count min_width min_height EpisodeInfo_init season
              l1 si downloaded st with
      | (Ok si', downloaded', st') =>
          download_episodes P clock SeriesInfo_set_tmdb_id matches
            tmdb_retry_count min_width min_height EpisodeInfo_init season
            l2 si' downloaded' st'
      | (Raise x, downloaded', st') => (Raise x, downloaded', st')
      end.
Proof.
  induction l1 as [|e l1 IH]; intros si downloaded st; [reflexivity|].
  simpl.
  destruct (get_source_image P clock SeriesInfo_set_tmdb_id matches
              tmdb_retry_count min_width min_height si
              (EpisodeInfo_init season e) false st)
    as [[[si' answer]|x] st']; [apply IH | reflexivity].
Qed.

(** One turn of the loop: the file of the episode is downloaded exactly
    when the query returns a URL. *)
Lemma download_episodes_turn season e si downloaded st :
  download_episodes P clock SeriesInfo_set_tmdb_id matches tmdb_retry_count
    min_width min_height EpisodeInfo_init season [e] si downloaded st
  = match get_source_image P clock SeriesInfo_set_tmdb_id matches
            tmdb_retry_count min_width min_height si
            (EpisodeInfo_init season e) false st with
    | (Ok (si', Some url), st') =>
        (Ok si', (downloaded ++ [(url, filename season e)])%list, st')
    | (Ok (si', None), st') => (Ok si', downloaded, st')
    | (Raise x, st') => (Raise x, downloaded, st')
    end.
Proof.
  simpl.
  destruct (get_source_image P clock SeriesInfo_set_tmdb_id matches
              tmdb_retry_count min_width min_height si
              (EpisodeInfo_init season e) false st)
    as [[[si' [url|]]|x] st'] eqn:Hquery; try reflexivity.
  apply get_source_image_returns in Hquery
    as (_ & _ & _ & _ & _ & _ & best & _ & _ & _ & _ & _ & -> & _).
  reflexivity.
Qed.

End SeasonTurns.

Lemma episodes_upto_last (e : Z) :
  1 <= e -> episodes_upto e = (episodes_upto (e - 1) ++ [e])%list.
Proof.
  intros He. unfold episodes_upto.
  replace (Z.to_nat e) with (S (Z.to_nat (e - 1))) by lia.
  rewrite seq_S, map_app. simpl. do 3 f_equal. lia.
Qed.

(** X24. The turns of [manually_download_season]. When the constructor
    raises, nothing is downloaded. Otherwise the loop starts with the new
    series object and no download, and for every episode number [e] from 1
    to the episode count the loop over the episodes 1 to [e] is the loop
    over the episodes 1 to [e - 1] followed, unless that raised, by the
    image query for the episode [e] without title match, on the series
    object and in the state the earlier turns left: the file
    [s{season}e{e}.jpg] is added to the downloads, with the URL returned,
    exactly when the query returns a URL, and a query that raises ends the
    loop with the downloads made so far. The call returns what the loop
    over all the episodes leaves. So the files downloaded are those of a
    subsequence of the episodes 1 to the episode count, in that order, each
    from a URL of the image base, and never more than the episode count. *)
Theorem manually_download_season_files :
  forall P clock SeriesInfo_set_tmdb_id matches tmdb_retry_count
         min_width min_height SeriesInfo_init EpisodeInfo_init
         id_map_file blacklist_file started title year season
         episode_count,
    let query := get_source_image P clock SeriesInfo_set_tmdb_id matches
                   tmdb_retry_count min_width min_height in
    let run := manually_download_season P clock SeriesInfo_set_tmdb_id
                 matches tmdb_retry_count min_width min_height
                 SeriesInfo_init EpisodeInfo_init id_map_file
                 blacklist_file started title year season episode_count in
    match __init__ clock id_map_file blacklist_file started with
    | Raise x => run = (Raise x, [])
    | Ok st0 =>
        let loop k :=
          download_episodes P clock SeriesInfo_set_tmdb_id matches
            tmdb_retry_count min_width min_height EpisodeInfo_init season
            (episodes_upto k) (SeriesInfo_init title year) [] st0 in
        loop 0 = (Ok (SeriesInfo_init title year), [], st0) /\
        (forall e, 1 <= e <= episode_count ->
           loop e
           = match loop (e - 1) with
             | (Ok si, downloaded, st) =>
                 match query si (EpisodeInfo_init season e) false st with
                 | (Ok (si', Some url), st') =>
                     (Ok si',
                      (downloaded ++ [(url, filename season e)])%list, st')
                 | (Ok (si', None), st') => (Ok si', downloaded, st')
                 | (Raise x, st') => (Raise x, downloaded, st')
                 end
             | (Raise x, downloaded, st) => (Raise x, downloaded, st)
             end) /\
        run = (match fst (fst (loop episode_count)) with
               | Ok _ => Ok tt
               | Raise x => Raise x
               end, snd (fst (loop episode_count))) /\
        exists kept,
          subsequence kept (episodes_upto episode_count) /\
          map snd (snd run) = map (filename season) kept /\
          Forall (fun d => exists path, fst d = image_url path) (snd run) /\
          (List.length (snd run) <= Z.to_nat episode_count)%nat
    end.
Proof.
  intros P clock set matches retry minw minh sinit einit id_map_file
         blacklist_file started title year season episode_count query run.
  subst run. unfold manually_download_season.
  destruct (__init__ clock id_map_file blacklist_file started) as [st0|x];
    [|reflexivity].
  split; [reflexivity|]. split; [|split].
  - intros e He.
    rewrite (episodes_upto_last e) by lia.
    rewrite download_episodes_app.
    destruct (download_episodes P clock set matches retry minw minh einit
                season (episodes_upto (e - 1)) (sinit title year) [] st0)
      as [[[si|x] downloaded] st]; [|reflexivity].
    apply download_episodes_turn.
  - now destruct (download_episodes P clock set matches retry minw minh
                    einit season (episodes_upto episode_count)
                    (sinit title year) [] st0)
      as [[[si|x] downloaded] st].
  - destruct (download_episodes_adds P clock set matches retry minw minh
                einit season (episodes_upto episode_count)
                (sinit title year) [] st0)
      as (kept & added & Hsub & Hadded & Hnames & Hurls).
    assert (Hsnd :
              snd (let (p, _) :=
                     download_episodes P clock set matches retry minw minh
                       einit season (episodes_upto episode_count)
                       (sinit title year) [] st0 in
                   let (r, downloaded) := p in
                   match r with
                   | Ok _ => (Ok tt, downloaded)
                   | Raise e => (Raise e, downloaded)
                   end) = added).
    { destruct (download_episodes P clock set matches retry minw minh
                  einit season (episodes_upto episode_count)
                  (sinit title year) [] st0)
        as [[[si|x] downloaded] st]; exact Hadded. }
    rewrite Hsnd. exists kept.
    split; [exact Hsub|]. split; [exact Hnames|]. split; [exact Hurls|].
    apply subsequence_length in Hsub.
    unfold episodes_upto in Hsub. rewrite length_map, length_seq in Hsub.
    rewrite <- (length_map snd), Hnames, length_map. exact Hsub.
Qed.

Lemma manually_download_season_files_witness :
  let loop k :=
    download_episodes Downloads.odd_episodes Scenario.clock
      Scenario.overwrite Scenario.same_title BLACKLIST_THRESHOLD 0 0
      Downloads.new_episode 1 (episodes_upto k)
      (Downloads.new_series "Show" 2020) []
      (Scenario.start EMPTY_BLACKLIST) in
  snd (fst (loop 1))
  = [("https://image.tmdb.org/t/p/original/s.jpg", "s1e1.jpg")] /\
  loop 2 = (fst (fst (loop 1)), snd (fst (loop 1)), snd (loop 2)) /\
  trace (snd (loop 3))
  = (trace (snd (loop 2))
       ++ [ReqEpisode 77 1 3; ReqEpisodeImages (Some 77) 1 3])%list /\
  trace (snd (loop 2))
  = [ReqSearch "Show" 2020; ReqEpisode 77 1 1;
     ReqEpisodeImages (Some 77) 1 1; ReqEpisode 77 1 2; ReqSeason 77 0] /\
  manually_download_season Downloads.odd_episodes Scenario.clock
    Scenario.overwrite Scenario.same_title BLACKLIST_THRESHOLD 0 0
    Downloads.new_series Downloads.new_episode None None 0 "Show" 2020 1 3
  = (Ok tt, snd (fst (loop 3))).
Proof.
  pose proof (manually_download_season_files Downloads.odd_episodes
                Scenario.clock Scenario.overwrite Scenario.same_title
                BLACKLIST_THRESHOLD 0 0 Downloads.new_series
                Downloads.new_episode None None 0 "Show" 2020 1 3)
    as (_ & Hturn & Hrun & _).
  assert (H1 : 1 <= 1 <= 3) by lia.
  assert (H2 : 1 <= 2 <= 3) by lia.
  assert (H3 : 1 <= 3 <= 3) by lia.
  split; [|split; [|split; [|split]]].
  - exact (eq_trans (f_equal (fun r => snd (fst r)) (Hturn 1 H1)) eq_refl).
  - exact (eq_trans (Hturn 2 H2) eq_refl).
  - exact (eq_trans (f_equal (fun r => trace (snd r)) (Hturn 3 H3)) eq_refl).
  - exact (eq_trans (f_equal (fun r => trace (snd r)) (Hturn 2 H2)) eq_refl).
  - exact (eq_trans Hrun eq_refl).
Defined.

(** The first and the third of three episodes are downloaded when the
    second is not found. *)
Example manually_download_season_odd :
  manually_download_season Downloads.odd_episodes Scenario.clock
    Scenario.overwrite Scenario.same_title BLACKLIST_THRESHOLD 0 0
    Downloads.new_series Downloads.new_episode None None 0 "Show" 2020 1 3
  = (Ok tt,
     [("https://image.tmdb.org/t/p/original/s.jpg", "s1e1.jpg");
      ("https://image.tmdb.org/t/p/original/s.jpg", "s1e3.jpg")]).
Proof. reflexivity. Qed.

(* ================================================================== *)
(** ** The names of files *)
(* ================================================================== *)

Lemma list_ascii_of_string_app (a b : string) :
  list_ascii_of_string (a ++ b)
  = (list_ascii_of_string a ++ list_ascii_of_string b)%list.
Proof. induction a as [|c a IH]; simpl; [reflexivity | now rewrite IH]. Qed.

Lemma all_legal_app (table : list (ascii * string)) (a b : string) :
  all_legal table (a ++ b) = all_legal table a && all_legal table b.
Proof.
  unfold all_legal. now rewrite list_ascii_of_string_app, forallb_app.
Qed.

Section Translation.

Variable table : list (ascii * string).
Hypothesis replacements_legal :
  forallb (fun entry => all_legal table (snd entry)) table = true.

(** When the replacements hold no key of the table, neither does a
    translated string. *)
Lemma translate_all_legal (s : string) :
  all_legal table (translate table s) = true.
Proof.
  induction s as [|c s IH]; [reflexivity|].
  simpl. rewrite all_legal_app, IH, andb_true_r.
  destruct (map_get Ascii.eqb c table) as [replacement|] eqn:Hc.
  - apply map_get_In in Hc as (c' & Hin & _).
    rewrite forallb_forall in replacements_legal.
    exact (replacements_legal _ Hin).
  - unfold all_legal, legal. simpl. now rewrite Hc.
Qed.

(** A string that holds no key of the table is translated to itself. *)
Lemma translate_legal (s : string) :
  all_legal table s = true -> translate table s = s.
Proof.
  unfold all_legal. induction s as [|c s IH]; [reflexivity|].
  simpl. intros H. apply andb_prop in H as [Hc Hs].
  unfold legal in Hc. destruct (map_get Ascii.eqb c table); [discriminate|].
  simpl. now rewrite IH.
Qed.

End Translation.

(** X25. [CleanPath.sanitize_name] removes every illegal character: no
    character of the sanitized name is a key of the table of illegal
    characters, and sanitizing a sanitized name changes nothing. *)
Theorem sanitize_name_legal :
  forall filename,
    all_legal ILLEGAL_FILE_CHARACTERS (sanitize_name filename) = true /\
    sanitize_name (sanitize_name filename) = sanitize_name filename.
Proof.
  intros filename.
  assert (H : all_legal ILLEGAL_FILE_CHARACTERS (sanitize_name filename)
              = true).
  { apply translate_all_legal. reflexivity. }
  split; [exact H|]. now apply translate_legal.
Qed.

(** X26. [CleanPath.sanitize_name] keeps a name without illegal character
    as it is, and a name of [n] characters has at most [2n] characters
    afterwards. *)
Theorem sanitize_name_unchanged :
  forall filename,
    (all_legal ILLEGAL_FILE_CHARACTERS filename = true ->
     sanitize_name filename = filename) /\
    (String.length (sanitize_name filename)
     <= 2 * String.length filename)%nat.
Proof.
  intros filename. split; [apply translate_legal|].
  unfold sanitize_name. induction filename as [|c s IH]; [simpl; lia|].
  cbn [translate String.length]. rewrite length_append.
  assert (Hc : (String.length
                  match map_get Ascii.eqb c ILLEGAL_FILE_CHARACTERS with
                  | Some replacement => replacement
                  | None => String c EmptyString
                  end <= 2)%nat).
  { destruct (map_get Ascii.eqb c ILLEGAL_FILE_CHARACTERS) as [r|] eqn:Hr;
      [|simpl; lia].
    apply map_get_In in Hr as (c' & Hin & _).
    simpl in Hin.
    repeat (destruct Hin as [[= _ <-]|Hin]; [simpl; lia|]).
    destruct Hin. }
  lia.
Qed.

Lemma sanitize_name_unchanged_witness :
  sanitize_name "some_file - 123.jpg" = "some_file - 123.jpg" /\
  sanitize_name "some_file: 123.jpg" = "some_file - 123.jpg".
Proof.
  split; [|reflexivity].
  apply (sanitize_name_unchanged "some_file - 123.jpg"). reflexivity.
Defined.

(* ================================================================== *)
(** ** The earlier interface *)
(* ================================================================== *)

Lemma is_in_blacklist_added title year season episode st :
  Database.is_in_blacklist title year season episode
    (Database.add_to_blacklist title year season episode st) = true.
Proof.
  unfold Database.is_in_blacklist, Database.add_to_blacklist. simpl.
  rewrite existsb_app. simpl. now rewrite String.eqb_refl, orb_true_r.
Qed.

(** X27. A refusal of the earlier interface is final
    ([DatabaseInterface.get_title_card_source_image]): when the query
    returns [None], the key of the episode is in the blacklist afterwards,
    and the same query returns [None] again without a request and without
    a change, however much later. *)
Theorem database_none_is_final :
  forall P title year season episode st,
    let query := Database.get_title_card_source_image P title year season
                   episode in
    fst (query st) = Ok None ->
    Database.is_in_blacklist title year season episode (snd (query st))
    = true /\
    query (snd (query st)) = (Ok None, snd (query st)).
Proof.
  intros P title year season episode st query Hnone.
  assert (Hin : Database.is_in_blacklist title year season episode
                  (snd (query st)) = true).
  { subst query. revert Hnone.
    unfold Database.get_title_card_source_image.
    destruct (Database.is_in_blacklist title year season episode st)
      eqn:Hst; [intros _; exact Hst|].
    destruct (Database.get_tv_id P title year st) as [[tv_id|e] st1];
      [|discriminate].
    destruct (stills _) as [[|img images]|];
      try (intros _; apply is_in_blacklist_added).
    destruct (Database.determine_best_image (img :: images)); discriminate. }
  split; [exact Hin|].
  subst query. unfold Database.get_title_card_source_image at 1.
  now rewrite Hin.
Qed.

Lemma database_none_is_final_witness :
  let query := Database.get_title_card_source_image Scenario.nothing "Show"
                 2020 1 1 in
  Database.trace (snd (query Earlier.mapped))
  = [ReqEpisodeImages (Some 77) 1 1] /\
  Database.blacklist (snd (query Earlier.mapped)) = ["Show (2020)-1-1"] /\
  query (snd (query Earlier.mapped)) = (Ok None, snd (query Earlier.mapped)).
Proof.
  split; [reflexivity|]. split; [reflexivity|].
  apply (database_none_is_final Scenario.nothing "Show" 2020 1 1
           Earlier.mapped).
  reflexivity.
Defined.

(** X28. The identifier of a series is looked up once
    ([DatabaseInterface.__get_tv_id]): when the call returns an ID, from
    the map or from the search, a further call returns the same ID without
    a request and without a change. *)
Theorem database_tv_id_cached :
  forall P title year st id st1,
    Database.get_tv_id P title year st = (Ok (Some id), st1) ->
    Database.get_tv_id P title year st1 = (Ok (Some id), st1).
Proof.
  intros P title year st id st1. unfold Database.get_tv_id at 1.
  destruct (map_get String.eqb (Database.full_title title year)
              (Database.id_map st)) as [id0|] eqn:Hmap.
  - intros [= <- <-]. unfold Database.get_tv_id. now rewrite Hmap.
  - cbv zeta. destruct (Z.eqb _ 0); [discriminate|].
    destruct (results _) as [|new_id rest]; [discriminate|].
    intros [= <- <-]. unfold Database.get_tv_id, Database.add_id_to_map.
    simpl. now rewrite (map_get_set_same String.eqb String.eqb_eq).
Qed.

Lemma database_tv_id_cached_witness :
  let first := Database.get_tv_id Resolved.finds_show "Show" 2020
                 Earlier.fresh in
  Database.trace (snd first) = [ReqSearch "Show" 2020] /\
  Database.get_tv_id Resolved.finds_show "Show" 2020 (snd first)
  = (Ok (Some 77), snd first).
Proof.
  split; [reflexivity|].
  apply (database_tv_id_cached Resolved.finds_show "Show" 2020
           Earlier.fresh 77).
  reflexivity.
Defined.

(** The loop of the earlier selection keeps a candidate of the greatest
    number of pixels. *)
Lemma database_loop_greatest rest :
  forall pre best,
    (forall c, In c rest -> 0 <= pixels c) ->
    (exists r, nth_error pre (best_index best) = Some r /\
               best_pixels best = pixels r /\
               forall c, In c pre -> pixels c <= pixels r) ->
    let final := Database.best_image_loop (List.length pre) rest best in
    exists r, nth_error (pre ++ rest) (best_index final) = Some r /\
              best_pixels final = pixels r /\
              forall c, In c (pre ++ rest) -> pixels c <= pixels r.
Proof.
  induction rest as [|img rest IH]; intros pre best Hpos Hinv.
  - simpl. now rewrite app_nil_r.
  - cbn [Database.best_image_loop]. cbv zeta.
    replace (pre ++ img :: rest)%list with ((pre ++ [img]) ++ rest)%list
      by now rewrite <- app_assoc.
    replace (S (List.length pre)) with (List.length (pre ++ [img]))
      by (rewrite length_app; simpl; lia).
    apply IH; [intros c Hc; apply Hpos; now right|].
    destruct Hinv as (r & Hr & Hpix & Hall).
    fold (pixels img).
    assert (Hkeep : pixels img <= pixels r ->
                    exists r0, nth_error (pre ++ [img]) (best_index best)
                               = Some r0 /\
                               best_pixels best = pixels r0 /\
                               forall c, In c (pre ++ [img]) ->
                                         pixels c <= pixels r0).
    { intros Hle. exists r. split; [|split; [exact Hpix|]].
      - rewrite nth_error_app1; [exact Hr|].
        apply nth_error_Some. congruence.
      - intros c Hc. apply in_app_or in Hc as [Hc|[<-|[]]];
          [now apply Hall | exact Hle]. }
    assert (Hnew : pixels r <= pixels img ->
                   exists r0, nth_error (pre ++ [img]) (List.length pre)
                              = Some r0 /\
                              pixels img = pixels r0 /\
                              forall c, In c (pre ++ [img]) ->
                                        pixels c <= pixels r0).
    { intros Hle. exists img. split; [apply nth_error_snoc_last|].
      split; [reflexivity|].
      intros c Hc. apply in_app_or in Hc as [Hc|[<-|[]]]; [|lia].
      specialize (Hall c Hc). lia. }
    destruct (Z.ltb_spec (best_pixels best) (pixels img)) as [Hlt|Hge].
    { simpl. apply Hnew. lia. }
    destruct (Z.eqb_spec (pixels img) (best_pixels best)) as [Heq|Hne].
    + destruct (Z.ltb (best_score best) (py_int (vote_average img)));
        [simpl; apply Hnew; lia | apply Hkeep; lia].
    + apply Hkeep. lia.
Qed.

(** X29. The earlier selection ([DatabaseInterface.__determine_best_image])
    on a list that is not empty, of candidates without negative dimension
    product: it returns one of the candidates, and no candidate has more
    pixels. *)
Theorem database_best_image_greatest :
  forall images,
    images <> [] ->
    (forall c, In c images -> 0 <= pixels c) ->
    exists r,
      Database.determine_best_image images = Ok r /\
      In r images /\
      forall c, In c images -> pixels c <= pixels r.
Proof.
  intros images Hne Hpos. destruct images as [|img rest]; [contradiction|].
  assert (Hloop :
            let final := Database.best_image_loop 0 (img :: rest)
                           {| best_index := 0; best_pixels := 0;
                              best_score := 0 |} in
            exists r, nth_error (img :: rest) (best_index final) = Some r /\
                      best_pixels final = pixels r /\
                      forall c, In c (img :: rest) -> pixels c <= pixels r).
  { cbn [Database.best_image_loop]. cbv zeta.
    apply (database_loop_greatest rest [img]);
      [intros c Hc; apply Hpos; now right|].
    pose proof (Hpos img (or_introl eq_refl)) as Himg.
    fold (pixels img). cbn [best_pixels best_score].
    assert (Hfirst : forall b : best_image,
               best_index b = 0%nat -> best_pixels b = pixels img ->
               exists r, nth_error [img] (best_index b) = Some r /\
                         best_pixels b = pixels r /\
                         forall c, In c [img] -> pixels c <= pixels r).
    { intros b Hi Hp. exists img. rewrite Hi. split; [reflexivity|].
      split; [exact Hp|]. intros c [<-|[]]. lia. }
    destruct (Z.ltb_spec 0 (pixels img)) as [Hlt|Hge];
      [now apply Hfirst|].
    destruct (Z.eqb_spec (pixels img) 0) as [Heq|Hneq]; [|lia].
    destruct (Z.ltb 0 (py_int (vote_average img))); apply Hfirst;
      simpl; auto. }
  cbv zeta in Hloop. destruct Hloop as (r & Hr & _ & Hall).
  unfold Database.determine_best_image.
  destruct rest as [|img' rest].
  - exists img. split; [reflexivity|]. split; [now left|].
    intros c [<-|[]]. lia.
  - rewrite Hr. exists r. split; [reflexivity|].
    split; [eapply nth_error_In; exact Hr | exact Hall].
Qed.

Lemma database_best_image_greatest_witness :
  Database.determine_best_image
    [Scenario.small_still; Scenario.square_still; Scenario.wide_still]
  = Ok Scenario.wide_still /\
  exists r,
    Database.determine_best_image
      [Scenario.small_still; Scenario.square_still; Scenario.wide_still]
    = Ok r /\
    In r [Scenario.small_still; Scenario.square_still; Scenario.wide_still] /\
    forall c,
      In c [Scenario.small_still; Scenario.square_still;
            Scenario.wide_still] ->
      pixels c <= pixels r.
Proof.
  split; [reflexivity|].
  apply (database_best_image_greatest
           [Scenario.small_still; Scenario.square_still;
            Scenario.wide_still]).
  - discriminate.
  - intros c [<-|[<-|[<-|[]]]]; discriminate.
Defined.

(* ================================================================== *)
(** ** What the matcher finds under a title match *)
(* ================================================================== *)

Section Matched.

Variable P : provider.
Variable matches : string -> string -> bool.

Lemma first_match_sound t episodes i :
  first_match matches t episodes = Some i ->
  exists x,
    In x episodes /\ matches t (se_name x) = true /\
    i = {| idx_season := se_season_number x;
           idx_episode := se_episode_number x |}.
Proof.
  induction episodes as [|x episodes IH]; simpl; [discriminate|].
  destruct (matches t (se_name x)) eqn:Hx.
  - intros [= <-]. exists x. split; [now left | now split].
  - intros H. destruct (IH H) as (y & Hin & Hy). exists y.
    split; [now right | exact Hy].
Qed.

Lemma season_scan_sound id t seasons :
  forall st i st',
    season_scan P matches id t seasons st = (Ok (Some i), st') ->
    exists s episodes x,
      In s seasons /\
      sn_episodes (provider_season P id s) = Some episodes /\
      In x episodes /\ matches t (se_name x) = true /\
      i = {| idx_season := se_season_number x;
             idx_episode := se_episode_number x |}.
Proof.
  induction seasons as [|s seasons IH]; intros st i st'; simpl;
    [discriminate|].
  unfold bind, _get. destruct (reports_not_found _); [discriminate|].
  destruct (sn_episodes (provider_season P id s)) as [episodes|] eqn:Heps;
    [|discriminate].
  destruct (first_match matches t episodes) as [j|] eqn:Hfirst.
  - intros [= <- _]. apply first_match_sound in Hfirst as (x & Hin & Hx).
    exists s, episodes, x. split; [now left|]. split; [exact Heps|].
    split; [exact Hin | exact Hx].
  - intros H. destruct (IH _ _ _ H) as (s' & eps' & x & Hs & Hrest).
    exists s', eps', x. split; [now right | exact Hrest].
Qed.

Lemma absolute_scan_answer id abs seasons :
  forall info st info' st',
    absolute_scan P id abs seasons info st = (Ok info', st') ->
    info' = info \/ exists s, info' = provider_episode P id s abs.
Proof.
  induction seasons as [|s seasons IH]; intros info st info' st'; simpl.
  - intros [= <- _]. now left.
  - unfold bind, _get.
    destruct (ep_season_number (provider_episode P id s abs)).
    + intros [= <- _]. right. now exists s.
    + intros H. apply IH in H as [->|Hs]; [right; now exists s | now right].
Qed.

Lemma query_index_answer id ei st info st' :
  query_index P id ei st = (Ok info, st') ->
  exists s e, info = provider_episode P id s e.
Proof.
  unfold query_index, bind, _get.
  destruct (abs_number ei) as [abs|].
  2:{ intros [= <- _]. now exists (season ei), (episode ei). }
  destruct (reports_not_found _).
  - intros H. apply absolute_scan_answer in H as [->|[s ->]].
    + now exists (season ei), (episode ei).
    + now exists s, abs.
  - intros [= <- _]. now exists (season ei), (episode ei).
Qed.

Lemma In_seasons_upto (n s : Z) : In s (seasons_upto n) -> 0 <= s <= n.
Proof.
  unfold seasons_upto. rewrite in_map_iff.
  intros (k & <- & Hk). apply in_seq in Hk. lia.
Qed.

End Matched.

(** X30. What [__find_episode] finds under a title match when the lookup
    by the TVDb ID of the episode gives nothing: the series has a TMDb ID,
    and the index returned is that of an episode answer, or of an episode
    in the list of a season from 0 to the season number, whose name
    matches the title of the episode. *)
Theorem find_episode_title_checked :
  forall P SeriesInfo_set_tmdb_id matches si ei st si' i st',
    match tvdb_id ei with
    | Some tv => tv_episode_results (provider_find P tv) = []
    | None => True
    end ->
    find_episode P SeriesInfo_set_tmdb_id matches si ei true st
    = (Ok (si', Some i), st') ->
    exists id n,
      tmdb_id si = Some id /\ matches (title ei) n = true /\
      ((exists s e,
          ep_name (provider_episode P id s e) = Some n /\
          index_of (provider_episode P id s e) = Ok i) \/
       (exists s episodes x,
          0 <= s <= season_number ei /\
          sn_episodes (provider_season P id s) = Some episodes /\
          In x episodes /\ se_name x = n /\
          i = {| idx_season := se_season_number x;
                 idx_episode := se_episode_number x |})).
Proof.
  intros P set matches si ei st si' i st' Htv Hrun.
  assert (Hindex : exists st0 st1,
             find_by_index P matches si ei true st0 = (Ok (Some i), st1)).
  { revert Hrun. unfold find_episode.
    destruct (tvdb_id ei) as [tv|].
    - rewrite Htv. unfold bind at 1, _get. intros H.
      apply bind_Ok in H as (j & st1 & Hj & H). injection H as _ <- _.
      exists (log [ReqFind tv] st), st1. exact Hj.
    - intros H. apply bind_Ok in H as (j & st1 & Hj & H).
      injection H as _ <- _. now exists st, st1. }
  destruct Hindex as (st0 & st1 & Hindex). revert Hindex.
  unfold find_by_index. destruct (tmdb_id si) as [id|]; [|discriminate].
  intros H. apply bind_Ok in H as (info & st2 & Hinfo & H).
  apply query_index_answer in Hinfo as (s & e & ->).
  assert (Hscan :
            season_scan P matches id (title ei)
              (seasons_upto (season_number ei)) st2 = (Ok (Some i), st1) ->
            exists id0 n,
              Some id = Some id0 /\ matches (title ei) n = true /\
              ((exists s e,
                  ep_name (provider_episode P id0 s e) = Some n /\
                  index_of (provider_episode P id0 s e) = Ok i) \/
               (exists s episodes x,
                  0 <= s <= season_number ei /\
                  sn_episodes (provider_season P id0 s) = Some episodes /\
                  In x episodes /\ se_name x = n /\
                  i = {| idx_season := se_season_number x;
                         idx_episode := se_episode_number x |}))).
  { intros Hs. apply season_scan_sound in Hs
      as (s' & episodes & x & Hin & Heps & Hx & Hm & Hi).
    exists id, (se_name x). split; [reflexivity|]. split; [exact Hm|].
    right. exists s', episodes, x.
    split; [now apply In_seasons_upto|]. now repeat split. }
  destruct (ep_name (provider_episode P id s e)) as [n|] eqn:Hname;
    [|exact (Hscan H)].
  cbn [negb] in H.
  destruct (matches (title ei) n) eqn:Hm; [|exact (Hscan H)].
  apply bind_Ok in H as (j & st3 & Hj & H). injection H as <- _.
  unfold lift in Hj. injection Hj as Hj _.
  exists id, n. split; [reflexivity|]. split; [exact Hm|].
  left. exists s, e. now split.
Qed.

Lemma find_episode_title_checked_witness :
  find_episode (Scenario.knows_pilot "Pilot") Scenario.overwrite
    Scenario.same_title Scenario.resolved_show Scenario.pilot true
    (Scenario.start [])
  = (Ok (Scenario.resolved_show, Some {| idx_season := 1; idx_episode := 1 |}),
     log [ReqEpisode 77 1 1] (Scenario.start [])) /\
  exists id n,
    tmdb_id Scenario.resolved_show = Some id /\
    Scenario.same_title (title Scenario.pilot) n = true /\
    ((exists s e,
        ep_name (provider_episode (Scenario.knows_pilot "Pilot") id s e)
        = Some n /\
        index_of (provider_episode (Scenario.knows_pilot "Pilot") id s e)
        = Ok {| idx_season := 1; idx_episode := 1 |}) \/
     (exists s episodes x,
        0 <= s <= season_number Scenario.pilot /\
        sn_episodes (provider_season (Scenario.knows_pilot "Pilot") id s)
        = Some episodes /\
        In x episodes /\ se_name x = n /\
        {| idx_season := 1; idx_episode := 1 |}
        = {| idx_season := se_season_number x;
             idx_episode := se_episode_number x |})).
Proof.
  split; [reflexivity|].
  apply (find_episode_title_checked (Scenario.knows_pilot "Pilot")
           Scenario.overwrite Scenario.same_title Scenario.resolved_show
           Scenario.pilot (Scenario.start []) Scenario.resolved_show
           {| idx_season := 1; idx_episode := 1 |}
           (log [ReqEpisode 77 1 1] (Scenario.start [])) I).
  reflexivity.
Defined.
